(** * sanderveen.art — the crawler of [scripts/scrape.py]

    A shallow embedding of the scraper that enumerates the painting pages of
    the old web shop, extracts a record per painting, downloads the primary
    image and writes [manifest.json].

    Conventions of the embedding.
    - A Python [str] is a list of Unicode code points ([N]).  A [bytes] value
      is a list of octets, also carried by [N].
    - The character tables of the interpreter are exact on ASCII and on the
      white-space class (which is a short, closed list).  What Python knows
      about the other code points (decimal digits, alphanumerics, case
      mappings) is not part of this repository: it is the class
      [UnicodeDB], consulted only for code points above 127.
    - [re] is embedded as a backtracking matcher over a small regex syntax,
      with Python's priorities: leftmost start, greedy or lazy repetition,
      alternatives tried left to right.
    - The network and the disk are an environment [Env] of oracles; the
      mutable world ([World]) records the requests made, the files present,
      standard output and the naps taken.  Python exceptions are explicit
      outcomes. *)

From Stdlib Require Import QArith.
From stdpp Require Import base option list gmap strings sorting.

Open Scope N_scope.
Open Scope list_scope.

Abbreviation char := N (only parsing).
Abbreviation str := (list N) (only parsing).
Abbreviation bytes := (list N) (only parsing).

(** ** String literals *)

(** An ASCII literal as a [str]. *)
Definition lit (s : string) : str :=
  map Ascii.N_of_ascii (String.list_ascii_of_string s).

Definition euro : char := 8364.        (* U+20AC *)
Definition hyphen : char := 45.
Definition underscore : char := 95.
Definition space : char := 32.
Definition dot : char := 46.
Definition comma : char := 44.
Definition slash : char := 47.
Definition dquote : char := 34.

(** A literal of markup, written with a backquote wherever the markup has a
    double quote. *)
Definition markup (s : string) : str :=
  map (λ c, if c =? 96 then dquote else c) (lit s).

(** ** Character classes *)

Definition is_ascii (c : char) : bool := c <? 128.

Definition ascii_digit (c : char) : bool := (48 <=? c) && (c <=? 57).
Definition ascii_upper (c : char) : bool := (65 <=? c) && (c <=? 90).
Definition ascii_lower (c : char) : bool := (97 <=? c) && (c <=? 122).
Definition ascii_alpha (c : char) : bool := ascii_upper c || ascii_lower c.
Definition ascii_alnum (c : char) : bool := ascii_alpha c || ascii_digit c.

(** [str.isspace] for one code point, which is also [\s] of a [str]
    pattern: bidirectional type WS, B or S, or category Zs. *)
Definition is_space (c : char) : bool :=
  ((9 <=? c) && (c <=? 13)) || ((28 <=? c) && (c <=? 32))
  || (c =? 133) || (c =? 160) || (c =? 5760)
  || ((8192 <=? c) && (c <=? 8202))
  || (c =? 8232) || (c =? 8233) || (c =? 8239) || (c =? 8287) || (c =? 12288).

(** What the interpreter's Unicode database says about the code points
    above 127.  [udb_lower] sees the text around the character, because the
    lower-casing of a capital sigma depends on its context. *)
Class UnicodeDB := {
  udb_decimal : char → option N;     (* value of a decimal digit (Nd) *)
  udb_alnum : char → bool;           (* str.isalnum *)
  udb_cased : char → bool;
  udb_lower : str → char → str → str;
  udb_title : char → str;
  (* no white-space character is a decimal digit *)
  udb_space_not_decimal : ∀ c, is_space c = true → udb_decimal c = None;
}.

(** The database that knows nothing beyond ASCII; it serves to run the
    functions on ASCII text, where the database is never consulted. *)
Definition udb_plain : UnicodeDB := {|
  udb_decimal := λ _, None;
  udb_alnum := λ _, false;
  udb_cased := λ _, false;
  udb_lower := λ _ c _, [c];
  udb_title := λ c, [c];
  udb_space_not_decimal := λ _ _, eq_refl;
|}.

Section Text.
Context {U : UnicodeDB}.

(** Value of a decimal digit, as [int] and [float] read it. *)
Definition digit_value (c : char) : option N :=
  if is_ascii c then (if ascii_digit c then Some (c - 48) else None)
  else udb_decimal c.

(** [\d] *)
Definition is_digit (c : char) : bool :=
  match digit_value c with Some _ => true | None => false end.

Definition is_alnum (c : char) : bool :=
  if is_ascii c then ascii_alnum c else udb_alnum c.

(** [\w] *)
Definition is_word (c : char) : bool := is_alnum c || (c =? underscore).

Definition is_cased (c : char) : bool :=
  if is_ascii c then ascii_alpha c else udb_cased c.

Definition lower_char (before : str) (c : char) (after : str) : str :=
  if is_ascii c then [if ascii_upper c then c + 32 else c]
  else udb_lower before c after.

Definition title_char (c : char) : str :=
  if is_ascii c then [if ascii_lower c then c - 32 else c]
  else udb_title c.

(** [str.lower] *)
Fixpoint lower_from (before : str) (s : str) : str :=
  match s with
  | [] => []
  | c :: t => lower_char before c t ++ lower_from (before ++ [c]) t
  end.
Definition py_lower (s : str) : str := lower_from [] s.

(** [str.title]: a character that follows a cased one is lower-cased, any
    other is title-cased. *)
Fixpoint title_from (before : str) (previous_is_cased : bool) (s : str) : str :=
  match s with
  | [] => []
  | c :: t =>
      (if previous_is_cased then lower_char before c t else title_char c)
      ++ title_from (before ++ [c]) (is_cased c) t
  end.
Definition py_title (s : str) : str := title_from [] false s.

End Text.

(** ** The string methods the scraper calls *)

(** The longest prefix of characters of a class, and what follows it. *)
Fixpoint take_while (p : char → bool) (s : str) : str :=
  match s with
  | c :: t => if p c then c :: take_while p t else []
  | [] => []
  end.

Fixpoint drop_while (p : char → bool) (s : str) : str :=
  match s with
  | c :: t => if p c then drop_while p t else s
  | [] => []
  end.

Definition lstrip_by (p : char → bool) (s : str) : str := drop_while p s.

Definition rstrip_by (p : char → bool) (s : str) : str :=
  reverse (lstrip_by p (reverse s)).

Definition strip_by (p : char → bool) (s : str) : str :=
  rstrip_by p (lstrip_by p s).

Definition in_chars (chars : str) (c : char) : bool :=
  bool_decide (c ∈ chars).

(** [s.strip()], [s.strip(chars)], [s.rstrip(chars)] *)
Definition py_strip (s : str) : str := strip_by is_space s.
Definition py_strip_chars (chars s : str) : str := strip_by (in_chars chars) s.
Definition py_rstrip_chars (chars s : str) : str := rstrip_by (in_chars chars) s.

(** [s.startswith(p)] *)
Fixpoint startswith (p s : str) : bool :=
  match p, s with
  | [], _ => true
  | a :: p', b :: s' => (a =? b) && startswith p' s'
  | _ :: _, [] => false
  end.

(** [s.endswith(p)] *)
Definition endswith (p s : str) : bool := startswith (reverse p) (reverse s).

(** [p in s] *)
Fixpoint contains (p s : str) : bool :=
  startswith p s || match s with [] => false | _ :: t => contains p t end.

(** [s.split(sep, 1)] for a non-empty [sep]: the text before and after the
    leftmost occurrence of [sep], if there is one. *)
Fixpoint split_once (sep s : str) : option (str * str) :=
  if startswith sep s then Some ([], drop (length sep) s)
  else match s with
       | [] => None
       | c :: t => '(a, b) ← split_once sep t; Some (c :: a, b)
       end.

(** [s.split(sep)] for a one-character [sep]. *)
Fixpoint split_char (sep : char) (s : str) : list str :=
  match s with
  | [] => [[]]
  | c :: t =>
      if c =? sep then [] :: split_char sep t
      else match split_char sep t with
           | seg :: segs => (c :: seg) :: segs
           | [] => [[c]]
           end
  end.

(** [l[-1]] of a list of strings that is known to be non-empty. *)
Definition last_item (l : list str) : str := default [] (last l).

(** [s.replace(old, new)] for a one-character [old]. *)
Definition replace_char (old : char) (new : str) (s : str) : str :=
  mbind (M := list) (λ c, if c =? old then new else [c]) s.

(** A non-negative int formatted in an f-string. *)
Fixpoint digits_of_uint (d : Decimal.uint) : str :=
  match d with
  | Decimal.Nil => []
  | Decimal.D0 d => 48 :: digits_of_uint d
  | Decimal.D1 d => 49 :: digits_of_uint d
  | Decimal.D2 d => 50 :: digits_of_uint d
  | Decimal.D3 d => 51 :: digits_of_uint d
  | Decimal.D4 d => 52 :: digits_of_uint d
  | Decimal.D5 d => 53 :: digits_of_uint d
  | Decimal.D6 d => 54 :: digits_of_uint d
  | Decimal.D7 d => 55 :: digits_of_uint d
  | Decimal.D8 d => 56 :: digits_of_uint d
  | Decimal.D9 d => 57 :: digits_of_uint d
  end.
Definition format_int (n : N) : str := digits_of_uint (N.to_uint n).

(** ** Regular expressions: the part of [re] the scraper uses *)

Inductive regex : Type :=
  | Eps
  | Cls (p : char → bool)            (* one character of a class *)
  | Cat (r1 r2 : regex)
  | Alt (r1 r2 : regex)              (* r1|r2 *)
  | Star (r : regex)                 (* r*, greedy *)
  | LazyStar (r : regex)             (* r*?, lazy *)
  | Group (r : regex).               (* (r), the capture group 1 *)

Definition Lit (c : char) : regex := Cls (N.eqb c).
Definition Lits (s : str) : regex := foldr (λ c r, Cat (Lit c) r) Eps s.
Definition Plus (r : regex) : regex := Cat r (Star r).       (* r+ *)

(** The loops of the two repetitions, over the matcher [body] of the
    repeated expression: greedy tries one more iteration before the rest of
    the pattern [k], lazy tries [k] first.  An iteration that consumes
    nothing ends the loop; [fuel] bounds the iterations by the length of
    the text. *)
Fixpoint greedy_loop {A}
    (body : str → option str → (str → option str → option A) → option A)
    (k : str → option str → option A)
    (fuel : nat) (s : str) (g : option str) : option A :=
  match fuel with
  | O => k s g
  | S fuel' =>
      match body s g (λ s' g',
               if (length s' <? length s)%nat then greedy_loop body k fuel' s' g'
               else None) with
      | Some a => Some a
      | None => k s g
      end
  end.

Fixpoint lazy_loop {A}
    (body : str → option str → (str → option str → option A) → option A)
    (k : str → option str → option A)
    (fuel : nat) (s : str) (g : option str) : option A :=
  match fuel with
  | O => k s g
  | S fuel' =>
      match k s g with
      | Some a => Some a
      | None =>
          body s g (λ s' g',
            if (length s' <? length s)%nat then lazy_loop body k fuel' s' g'
            else None)
      end
  end.

(** The backtracking matcher, in continuation-passing style: [run r s g k]
    matches [r] at the head of [s] and hands the rest of the text and the
    text captured by group 1 to [k]; when [k] fails the matcher falls back
    on its next choice. *)
Fixpoint run {A} (r : regex) (s : str) (g : option str)
    (k : str → option str → option A) {struct r} : option A :=
  match r with
  | Eps => k s g
  | Cls p =>
      match s with
      | c :: t => if p c then k t g else None
      | [] => None
      end
  | Cat r1 r2 => run r1 s g (λ s' g', run r2 s' g' k)
  | Alt r1 r2 =>
      match run r1 s g k with
      | Some a => Some a
      | None => run r2 s g k
      end
  | Star r1 => greedy_loop (λ s' g' k', run r1 s' g' k') k (length s) s g
  | LazyStar r1 => lazy_loop (λ s' g' k', run r1 s' g' k') k (length s) s g
  | Group r1 =>
      run r1 s g (λ s' _, k s' (Some (take (length s - length s') s)))
  end.

(** A match anchored at the head of [s]: the text after the match and
    group 1 (empty when the group took no part). *)
Definition match_here (r : regex) (s : str) : option (str * str) :=
  run r s None (λ s' g, Some (s', default [] g)).

(** [re.search(r, s).group(1)], or [None] without a match. *)
Fixpoint re_search (r : regex) (s : str) : option str :=
  match match_here r s with
  | Some (_, g) => Some g
  | None => match s with [] => None | _ :: t => re_search r t end
  end.

(** [re.findall(r, s)] for a pattern with one group: group 1 of the
    successive non-overlapping matches, left to right.  After an empty
    match (none of the scraper's patterns has one) the scan moves on by one
    character. *)
Fixpoint findall_from (fuel : nat) (r : regex) (s : str) : list str :=
  match fuel with
  | O => []
  | S fuel' =>
      match match_here r s with
      | Some (s', g) =>
          g :: (if (length s' <? length s)%nat then findall_from fuel' r s'
                else match s with [] => [] | _ :: t => findall_from fuel' r t end)
      | None => match s with [] => [] | _ :: t => findall_from fuel' r t end
      end
  end.
Definition re_findall (r : regex) (s : str) : list str :=
  findall_from (S (length s)) r s.

(** [re.sub(r, repl, s)] for a literal replacement.  Every pattern of the
    scraper consumes at least one character; the rule of [re] for empty
    matches is not modelled, and the scan stops at one. *)
Fixpoint sub_from (fuel : nat) (r : regex) (repl : str) (s : str) : str :=
  match fuel with
  | O => s
  | S fuel' =>
      match s with
      | [] => []
      | c :: t =>
          match match_here r s with
          | Some (s', _) =>
              if (length s' <? length s)%nat then repl ++ sub_from fuel' r repl s'
              else s
          | None => c :: sub_from fuel' r repl t
          end
      end
  end.
Definition re_sub (r : regex) (repl : str) (s : str) : str :=
  sub_from (length s) r repl s.

(** ** slugify *)

Section Extract.
Context {U : UnicodeDB}.

(** [[^\w\s-]] *)
Definition slug_junk (c : char) : bool :=
  negb (is_word c || is_space c || (c =? hyphen)).

(** [[\s_]] *)
Definition slug_gap (c : char) : bool := is_space c || (c =? underscore).

Definition slugify (text : str) : str :=
  let text := py_strip (py_lower text) in
  let text := re_sub (Cls slug_junk) [] text in
  let text := re_sub (Plus (Cls slug_gap)) [hyphen] text in
  let text := re_sub (Plus (Lit hyphen)) [hyphen] text in
  py_strip_chars [hyphen] text.

(** ** extract_product_data *)

(** A JSON number of the manifest: Python's [int] or [float].  A float is
    carried by the rational its decimal literal denotes (the double Python
    stores is the one nearest to it). *)
Inductive py_number : Type :=
  | PyInt (n : Z)
  | PyFloat (q : Q).

(** The value of a run of decimal digits, most significant first. *)
Fixpoint digits_value (acc : N) (s : str) : option N :=
  match s with
  | [] => Some acc
  | c :: t => d ← digit_value c; digits_value (10 * acc + d) t
  end.

(** [int(s)] for a non-empty run of decimal digits. *)
Definition py_int (s : str) : option N :=
  match s with [] => None | _ => digits_value 0 s end.

(** [float(s)] on the strings that reach it, made of decimal digits and
    dots: digits with at most one dot, and at least one digit; anything
    else is the [ValueError] ([None]).  The value is the exact decimal,
    before the rounding to a double. *)
Definition py_float (s : str) : option Q :=
  let '(ip, fp) := default (s, []) (split_once [dot] s) in
  match ip ++ fp with
  | [] => None
  | ds => m ← digits_value 0 ds;
          Some (Qred (Z.of_N m # Z.to_pos (10 ^ Z.of_nat (length fp))))
  end.

(** [/detail/(\d+)/] *)
Definition id_re : regex :=
  Cat (Lits (lit "/detail/")) (Cat (Group (Plus (Cls is_digit))) (Lit slash)).

(** [[\d.,]] *)
Definition price_char (c : char) : bool :=
  is_digit c || (c =? dot) || (c =? comma).

(** [€\s*([\d.,]+)] *)
Definition price_re : regex :=
  Cat (Lit euro) (Cat (Star (Cls is_space)) (Group (Plus (Cls price_char)))).

(** The two quote characters, and the class of everything else. *)
Definition is_quote (c : char) : bool := (c =? dquote) || (c =? 39).
Definition not_quote (c : char) : bool := negb (is_quote c).

(** [src] or [href], an equals sign, a quote (either kind), then group 1:
    as few non-quote characters as possible, the upload path
    [/data/upload/Shop/images/] and one or more non-quote characters; then a
    closing quote of either kind. *)
Definition image_re : regex :=
  Cat (Alt (Lits (lit "src")) (Lits (lit "href")))
   (Cat (Lit 61)
    (Cat (Cls is_quote)
     (Cat (Group (Cat (LazyStar (Cls not_quote))
                  (Cat (Lits (lit "/data/upload/Shop/images/"))
                       (Plus (Cls not_quote)))))
          (Cls is_quote)))).

(** The attribute [property] with the double-quoted value [og:image], white
    space, and the attribute [content] whose double-quoted, non-empty value
    is group 1. *)
Definition og_re : regex :=
  Cat (Lits (lit "property=" ++ [dquote] ++ lit "og:image" ++ [dquote]))
   (Cat (Plus (Cls is_space))
    (Cat (Lits (lit "content=" ++ [dquote]))
     (Cat (Group (Plus (Cls (λ c, negb (c =? dquote))))) (Lit dquote)))).

(** [list(dict.fromkeys(keys))]: a dict keeps its keys in insertion order,
    and a key that is already there keeps its place. *)
Definition dict_fromkeys (keys : list str) : list str :=
  foldl (λ d k, if bool_decide (k ∈ d) then d else d ++ [k]) [] keys.

(** The fields of the dict built by [extract_product_data] that the
    crawler relies on.  The free-text fields (description, dimensions,
    medium) are left out: nothing below reads them. *)
Record product : Type := {
  title_nl : str;
  title_en : str;
  id : N;
  price : option py_number;       (* [None]: the key is absent *)
  images : list str;
}.

(** [s.replace(hyphen, space).strip().title()] *)
Definition title_of (s : str) : str :=
  py_title (py_strip (replace_char hyphen [space] s)).

Definition extract_titles (url : str) : str * str :=
  let slug := last_item (split_char slash (py_rstrip_chars (lit ".html") url)) in
  if contains (lit "--") slug then
    match split_once (lit "--") slug with
    | Some (nl, en) => (title_of nl, title_of en)
    | None => (title_of slug, title_of slug)      (* unreachable *)
    end
  else (title_of slug, title_of slug).

(** [int] has no bound here on the number of digits it converts. *)
Definition extract_id (url : str) : N :=
  match re_search id_re url with
  | Some g => default 0 (py_int g)
  | None => 0
  end.

Definition extract_price (html : str) : option py_number :=
  match re_search price_re html with
  | Some g =>
      let price_str := replace_char comma [dot] (replace_char dot [] g) in
      match py_float price_str with
      | Some q => Some (PyFloat q)
      | None => Some (PyInt 0)                       (* except ValueError *)
      end
  | None => None
  end.

Definition extract_images (html : str) : list str :=
  let image_matches := re_findall image_re html in
  let images := dict_fromkeys image_matches in
  match re_search og_re html with
  | Some og_img => if bool_decide (og_img ∈ images) then images else og_img :: images
  | None => images
  end.

Definition extract_product_data (html url : str) : product :=
  let '(nl, en) := extract_titles url in
  {| title_nl := nl; title_en := en;
     id := extract_id url;
     price := extract_price html;
     images := extract_images html |}.

End Extract.

(** ** The world outside: network, disk, standard output, the clock *)

(** What one attempt to request a URL brings back: the statements
    [Request(url)], [urlopen] and [read] of one pass through a [try]. *)
Inductive response : Type :=
  | NetError (cause : str)           (* [Request] or [urlopen] raised *)
  | ReadError (cause : str)          (* the response opened, [read] raised *)
  | Body (content : bytes).

(** What the disk does with one attempt to store a download: [mkdir] of the
    parent directories, then [write_bytes], which opens the file for
    writing (creating or truncating it) and writes the content. *)
Inductive disk_outcome : Type :=
  | MkdirError (cause : str)
  | CreateError (cause : str)               (* opening the file raised *)
  | WriteError (written : nat) (cause : str) (* created; the write raised after
                                               [written] octets *)
  | Written.

(** One start tag seen by [HTMLParser]: the tag name and its attributes, in
    order; an attribute without a value has [None]. *)
Definition start_tag : Type := str * list (str * option str).

(** The oracles.  The attempts to request a URL are numbered from 0 in the
    order the crawler makes them; [urlopen n url] answers attempt [n], and
    [disk n path] is the fate of the write that follows attempt [n].
    [start_tags html] are the start tags that [feed] hands to
    [handle_starttag], in order: all those of the page, or those before the
    place where the tokenizer itself raises, and [parse_error html] is what
    it raises there.  [exists_error path] is the [OSError] that
    [path.exists()] lets through for a path that is no file of the world
    (a name that is too long, for one).  [url_suffix] always returns: a
    URL that [urlparse] refuses (a malformed IPv6 host) is not covered. *)
Record Env : Type := {
  urlopen : nat → str → response;
  disk : nat → str → disk_outcome;
  utf8_replace : bytes → str;        (* decode as utf-8, errors replaced *)
  url_suffix : str → str;            (* splitext(urlparse(url).path)[1] *)
  start_tags : str → list start_tag; (* the tokenizer of html.parser *)
  parse_error : str → option str;    (* the exception of the tokenizer *)
  exists_error : str → option str;   (* the exception of path.exists() *)
}.

(** [requests] is the log of the attempts: one entry for each pass through
    the [try] of [fetch] or of [download_image], also when the attempt
    failed before anything was sent. *)
Record World : Type := {
  requests : list str;               (* the URLs of the attempts, oldest first *)
  files : gmap (list N) (list N);    (* the regular files, by path *)
  stdout : list str;                 (* the lines printed *)
  naps : list N;                     (* the sleeps, in milliseconds *)
}.

Definition new_world : World :=
  {| requests := []; files := ∅; stdout := []; naps := [] |}.

Definition print (line : str) (w : World) : World :=
  {| requests := requests w; files := files w;
     stdout := stdout w ++ [line]; naps := naps w |}.

Definition sleep (ms : N) (w : World) : World :=
  {| requests := requests w; files := files w;
     stdout := stdout w; naps := naps w ++ [ms] |}.

Definition request (url : str) (w : World) : World :=
  {| requests := requests w ++ [url]; files := files w;
     stdout := stdout w; naps := naps w |}.

Definition store (path : str) (content : bytes) (w : World) : World :=
  {| requests := requests w; files := <[path := content]> (files w);
     stdout := stdout w; naps := naps w |}.

(** [path.exists()], for the regular files; the world has no
    directories. *)
Definition file_exists (path : str) (w : World) : bool :=
  bool_decide (is_Some (files w !! path)).

(** [path.name] *)
Definition path_name (path : str) : str := last_item (split_char slash path).

(** The outcome of code that may raise. *)
Inductive result (A : Type) : Type :=
  | Done (a : A)
  | Raised (exn : str).
Arguments Done {A} a.
Arguments Raised {A} exn.

Section Crawler.
Context {U : UnicodeDB} (E : Env).

(** *** fetch *)

Definition attempt_failed (attempt : Z) (url cause : str) : str :=
  lit "  Attempt " ++ format_int (Z.to_N (attempt + 1)) ++ lit " failed for "
  ++ url ++ lit ": " ++ cause.

(** The loop [for attempt in range(retries)], from [attempt] on, with
    [todo] iterations left.  Every pass through the [try] is an attempt
    and is logged, whatever becomes of it. *)
Fixpoint fetch_from (url : str) (retries attempt : Z) (todo : nat) (w : World)
    : option str * World :=
  match todo with
  | O => (None, w)
  | S todo' =>
      let n := length (requests w) in
      let w := request url w in
      match urlopen E n url with
      | Body content => (Some (utf8_replace E content), w)
      | NetError e | ReadError e =>
          let w := print (attempt_failed attempt url e) w in
          let w := if (attempt <? retries - 1)%Z then sleep 2000 w else w in
          fetch_from url retries (attempt + 1)%Z todo' w
      end
  end.

Definition fetch (url : str) (retries : Z) (w : World) : option str * World :=
  fetch_from url retries 0 (Z.to_nat retries) w.

(** *** download_image *)

Definition download_failed (url cause : str) : str :=
  lit "  Failed to download " ++ url ++ lit ": " ++ cause.

(** The test [dest_path.exists()] is outside the [try]: what it raises
    leaves [download_image]. *)
Definition download_image (url dest_path : str) (w : World) : result bool * World :=
  if file_exists dest_path w then
    (Done true, print (lit "  Image already exists: " ++ path_name dest_path) w)
  else
    match exists_error E dest_path with
    | Some e => (Raised e, w)
    | None =>
        let n := length (requests w) in
        let w := request url w in
        match urlopen E n url with
        | NetError e => (Done false, print (download_failed url e) w)
        | ReadError e =>
            match disk E n dest_path with
            | MkdirError e' => (Done false, print (download_failed url e') w)
            | _ => (Done false, print (download_failed url e) w)
            end
        | Body content =>
            match disk E n dest_path with
            | MkdirError e | CreateError e =>
                (Done false, print (download_failed url e) w)
            | WriteError written e =>
                (Done false, print (download_failed url e)
                               (store dest_path (take written content) w))
            | Written =>
                (Done true, print (lit "  Downloaded: " ++ path_name dest_path)
                              (store dest_path content w))
            end
        end
    end.

(** *** LinkExtractor *)

(** [dict(attrs).get(key, dflt)]: the last attribute of that name wins. *)
Definition attrs_get (key : str) (dflt : option str)
    (attrs : list (str * option str)) : option str :=
  foldl (λ acc kv, if bool_decide (kv.1 = key) then kv.2 else acc) dflt attrs.

Definition is_detail_link (href : str) : bool :=
  contains (lit "/detail/") href && endswith (lit ".html") href.

(** [handle_starttag], on the list [self.links].  Testing a substring of
    [None] (an [href] attribute without a value) raises [TypeError]. *)
Definition handle_starttag (links : list str) (t : start_tag) : result (list str) :=
  if bool_decide (t.1 = lit "a") then
    match attrs_get (lit "href") (Some []) t.2 with
    | None => Raised (lit "TypeError")
    | Some href =>
        if is_detail_link href then
          if bool_decide (href ∈ links) then Done links else Done (links ++ [href])
        else Done links
    end
  else Done links.

(** [feed] on the start tags of the page, from [self.links = links]. *)
Fixpoint feed_tags (links : list str) (tags : list start_tag) : result (list str) :=
  match tags with
  | [] => Done links
  | t :: tags' =>
      match handle_starttag links t with
      | Done links' => feed_tags links' tags'
      | Raised e => Raised e
      end
  end.

(** [parser = LinkExtractor(); parser.feed(html); parser.links]: the
    handler is called on the start tags in turn, and then the tokenizer may
    raise by itself. *)
Definition extract_links (html : str) : result (list str) :=
  match feed_tags [] (start_tags E html) with
  | Done links =>
      match parse_error E html with
      | Some e => Raised e
      | None => Done links
      end
  | Raised e => Raised e
  end.

(** *** main *)

Definition BASE_URL : str := lit "https://sanderveen-artshop.nl".

(** The image directory and the manifest, relative to the root of the
    project (the script has them absolute, below the directory it is
    in). *)
Definition OUTPUT_DIR : str := lit "assets/images/paintings".
Definition MANIFEST_PATH : str := lit "scripts/manifest.json".

Definition CATEGORIES : list (str * str) :=
  [ (lit "abstract", lit "/webshop/schilderijenpaintings/abstract/");
    (lit "magisch-realisme",
     lit "/webshop/schilderijenpaintings/magisch-realisme--reverso-context/") ].

(** An entry of the manifest: the extracted dict with the keys [main] adds. *)
Record painting : Type := {
  data : product;
  category : str;
  url : str;
  slug : str;
  local_image : str;
}.


Definition absolute (link : str) : str :=
  if startswith (lit "http") link then link else BASE_URL ++ link.

(** The body of the loop over the detail links; [Done None] when the page
    could not be fetched and the link is skipped.  What [download_image]
    raises is not caught. *)
Definition process_link (category cat_dir link : str) (w : World)
    : result (option painting) * World :=
  let full_url := absolute link in
  let w := print (10 :: lit "Processing: " ++ last_item (split_char slash link)) w in
  match fetch full_url 3 w with
  | (Some ((_ :: _) as detail_html), w) =>
      let d := extract_product_data detail_html link in
      let slug := slugify (title_nl d) in
      let entry local :=
        {| data := d; category := category; url := link;
           slug := slug; local_image := local |} in
      match images d with
      | img :: _ =>
          let img_url := absolute img in
          let ext := match url_suffix E img_url with
                     | [] => lit ".jpg"
                     | ext => ext
                     end in
          let img_filename := slug ++ ext in
          let img_path := cat_dir ++ [slash] ++ img_filename in
          match download_image img_url img_path w with
          | (Done _, w) =>
              (Done (Some (entry (lit "images/paintings/" ++ category ++ [slash]
                                  ++ img_filename))),
               sleep 500 w)
          | (Raised e, w) => (Raised e, w)
          end
      | [] =>
          (Done (Some (entry [])), sleep 500 (print (lit "  No image found!") w))
      end
  | (_, w) => (Done None, print (lit "  Failed to fetch detail page") w)
  end.

Fixpoint process_links (category cat_dir : str) (links : list str)
    (paintings : list painting) (w : World) : result (list painting) * World :=
  match links with
  | [] => (Done paintings, w)
  | link :: links' =>
      match process_link category cat_dir link w with
      | (Done p, w) =>
          process_links category cat_dir links'
            (match p with Some p => paintings ++ [p] | None => paintings end) w
      | (Raised e, w) => (Raised e, w)
      end
  end.

(** The body of the loop over the categories. *)
Definition crawl_category (category cat_path : str) (paintings : list painting)
    (w : World) : result (list painting) * World :=
  let w := print (10 :: lit "--- Category: " ++ category ++ lit " ---") w in
  let cat_url := BASE_URL ++ cat_path in
  match fetch cat_url 3 w with
  | (Some ((_ :: _) as html), w) =>
      match extract_links html with
      | Raised e => (Raised e, w)
      | Done detail_links =>
          let w := print (lit "Found " ++ format_int (N.of_nat (length detail_links))
                          ++ lit " paintings in " ++ category) w in
          let cat_dir := OUTPUT_DIR ++ [slash] ++ category in
          process_links category cat_dir detail_links paintings w
      end
  | (_, w) => (Done paintings, print (lit "Failed to fetch category page: " ++ cat_url) w)
  end.

Fixpoint crawl (categories : list (str * str)) (paintings : list painting)
    (w : World) : result (list painting) * World :=
  match categories with
  | [] => (Done paintings, w)
  | (category, cat_path) :: rest =>
      match crawl_category category cat_path paintings w with
      | (Done paintings, w) => crawl rest paintings w
      | (Raised e, w) => (Raised e, w)
      end
  end.

(** [paintings.sort(key=id, reverse=True)]: descending and stable. *)
Fixpoint insert_by_id (p : painting) (l : list painting) : list painting :=
  match l with
  | [] => [p]
  | q :: l' => if id (data p) <? id (data q) then q :: insert_by_id p l' else p :: l
  end.
Definition sort_by_id (l : list painting) : list painting := foldr insert_by_id [] l.

(** [main]: the manifest that is written, when nothing raised on the way,
    and the world at the end.  The directories are not part of the world:
    the two [mkdir] of [main] and the write of the manifest itself are
    taken to succeed. *)
Definition main (w : World) : result (list painting) * World :=
  match crawl CATEGORIES [] w with
  | (Done paintings, w) =>
      let w := print ([10; 10] ++ lit "Done! Scraped "
                      ++ format_int (N.of_nat (length paintings))
                      ++ lit " paintings.") w in
      let w := print (lit "Manifest written to: " ++ MANIFEST_PATH) w in
      (Done (sort_by_id paintings), w)
  | (Raised e, w) => (Raised e, w)
  end.

End Crawler.


(** * Specification-level definitions *)

(** Direct descriptions of what the patterns and loops of the scraper
    compute, the predicates of the statements below, and the scenarios the
    statements are run on. *)

(** ** What the repetitions compute *)

(** A greedy repetition of a class, unrolled on the text. *)
Fixpoint greedy_cls {A} (p : char → bool) (k : str → option str → option A)
    (g : option str) (s : str) : option A :=
  match s with
  | c :: t =>
      if p c then
        match greedy_cls p k g t with Some a => Some a | None => k s g end
      else k s g
  | [] => k [] g
  end.

(** Every maximal run of characters of the class becomes [h]; [in_run]
    tells that the character before was of the class. *)
Fixpoint squeeze (p : char → bool) (h : char) (in_run : bool) (s : str) : str :=
  match s with
  | [] => []
  | c :: t =>
      if p c then (if in_run then squeeze p h true t else h :: squeeze p h true t)
      else c :: squeeze p h false t
  end.

(** ** The characters of a slug *)

(** The characters [slugify] keeps as they are: word characters other than
    the underscore, white space apart. *)
Definition slug_core {U : UnicodeDB} (c : char) : bool :=
  is_word c && negb (is_space c) && negb (c =? underscore).

(** The characters of an ASCII slug. *)
Definition slug_char (c : char) : bool :=
  ascii_lower c || ascii_digit c || (c =? hyphen).

Definition ascii_to_lower (c : char) : char := if ascii_upper c then c + 32 else c.

(** ** The price token *)

Section PriceToken.
Context {U : UnicodeDB}.

(** The numeric token that follows a currency sign: white space is
    skipped, then the digits, dots and commas are taken. *)
Definition token_after (rest : str) : str :=
  take_while price_char (drop_while is_space rest).

(** The first currency-marked numeric token of a text: the token after the
    first euro sign that has one. *)
Fixpoint price_token (html : str) : option str :=
  match html with
  | [] => None
  | c :: rest =>
      if c =? euro then
        match token_after rest with
        | [] => price_token rest
        | tok => Some tok
        end
      else price_token rest
  end.

(** The number a token stands for: the dots (thousands separators) go, the
    comma becomes the decimal point, and the result is parsed; the int 0
    stands in for a token that does not parse. *)
Definition price_number (tok : str) : py_number :=
  match py_float (replace_char comma [dot] (replace_char dot [] tok)) with
  | Some q => PyFloat q
  | None => PyInt 0
  end.

End PriceToken.

(** ** First occurrences *)

(** The first occurrences of a list, in order: the head, then the first
    occurrences of the tail that differ from it. *)
Fixpoint nub (l : list str) : list str :=
  match l with
  | [] => []
  | x :: t => x :: filter (λ y, y ≠ x) (nub t)
  end.

(** The loop "append the key unless it is there", from the list [seen]. *)
Definition append_new (seen keys : list str) : list str :=
  foldl (λ d k, if bool_decide (k ∈ d) then d else d ++ [k]) seen keys.

(** The [href] of an anchor, as [handle_starttag] reads it; [None] for the
    other tags and for an anchor whose [href] has no value. *)
Definition anchor_href (t : start_tag) : option str :=
  if bool_decide (t.1 = lit "a") then attrs_get (lit "href") (Some []) t.2
  else None.

(** An anchor whose [href] attribute has no value. *)
Definition bare_href (t : start_tag) : Prop :=
  t.1 = lit "a" ∧ attrs_get (lit "href") (Some []) t.2 = None.

(** ** Failed requests *)

(** The cause of a failed request; [None] for a response that came. *)
Definition failure (r : response) : option str :=
  match r with
  | NetError e | ReadError e => Some e
  | Body _ => None
  end.

Section Attempts.
Context (E : Env).

(** The lines printed by [todo] failed attempts in a row, the first being
    attempt number [attempt] (from 0) and request number [n]. *)
Fixpoint failed_attempts (url : str) (attempt : Z) (n todo : nat) : list str :=
  match todo with
  | O => []
  | S todo' =>
      attempt_failed attempt url (default [] (failure (urlopen E n url)))
      :: failed_attempts url (attempt + 1)%Z (S n) todo'
  end.

End Attempts.

(** The exception that the [try] of [download_image] catches on attempt
    [n], if any: [urlopen], then [mkdir], then [read], then the opening of
    the file and the write. *)
Definition download_error (E : Env) (n : nat) (url dest : str) : option str :=
  match urlopen E n url with
  | NetError e => Some e
  | ReadError e =>
      match disk E n dest with
      | MkdirError e' => Some e'
      | _ => Some e
      end
  | Body _ =>
      match disk E n dest with
      | MkdirError e | CreateError e | WriteError _ e => Some e
      | Written => None
      end
  end.

(** What attempt [n] leaves at the destination when the write raised
    midway: the octets written before. *)
Definition partial_file (E : Env) (n : nat) (url dest : str) : option bytes :=
  match urlopen E n url, disk E n dest with
  | Body content, WriteError written _ => Some (take written content)
  | _, _ => None
  end.

(** ** Scenarios *)

(** The listing of the first category, one detail page with one image, and
    an image server that answers 404. *)
Definition kloof_link : str :=
  lit "/webshop/schilderijenpaintings/abstract/detail/12/de-kloof--the-gap.html".

Definition kloof_page : str :=
  markup "<h1>De kloof</h1><img src=`/data/upload/Shop/images/kloof.jpg`>".

Definition listing_page : str := lit "<a href=...>".

Definition shop (image : response) (d : disk_outcome) : Env := {|
  urlopen := λ _ url,
    if bool_decide (url = BASE_URL ++ lit "/webshop/schilderijenpaintings/abstract/")
    then Body listing_page
    else if bool_decide (url = BASE_URL ++ kloof_link) then Body kloof_page
    else if bool_decide (url = BASE_URL ++ lit "/data/upload/Shop/images/kloof.jpg")
    then image
    else NetError (lit "HTTP Error 404: Not Found");
  disk := λ _ _, d;
  utf8_replace := λ content, content;
  url_suffix := λ _, lit ".jpg";
  start_tags := λ html,
    if bool_decide (html = listing_page)
    then [(lit "a", [(lit "href", Some kloof_link)])]
    else [];
  parse_error := λ _, None;
  exists_error := λ _, None;
|}.

Definition image_missing : Env :=
  shop (NetError (lit "HTTP Error 404: Not Found")) Written.

Definition disk_full : Env :=
  shop (Body [255; 216; 255; 224]) (WriteError 2 (lit "No space left on device")).

Definition shop_up : Env := shop (Body [255; 216; 255; 224]) Written.

(** A network where every request times out. *)
Definition offline : Env := {|
  urlopen := λ _ _, NetError (lit "timed out");
  disk := λ _ _, Written;
  utf8_replace := λ content, content;
  url_suffix := λ _, [];
  start_tags := λ _, [];
  parse_error := λ _, None;
  exists_error := λ _, None;
|}.

Definition kloof_jpg : str := lit "assets/images/paintings/abstract/de-kloof.jpg".
Definition kloof_url : str := BASE_URL ++ lit "/data/upload/Shop/images/kloof.jpg".

Definition gallery_page : str :=
  markup "<img src=`/data/upload/Shop/images/a.jpg`><a href='/data/upload/Shop/images/b.jpg'><img src=`/data/upload/Shop/images/a.jpg`><img src=`/data/upload/Shop/images/c.jpg`>".

Definition og_tag (content : string) : str :=
  markup "<meta property=`og:image` content=`" ++ lit content ++ markup "`>".

(** A listing with two detail links around a link to another page. *)
Definition three_anchors : Env := {|
  urlopen := λ _ _, NetError (lit "timed out");
  disk := λ _ _, Written;
  utf8_replace := λ content, content;
  url_suffix := λ _, [];
  start_tags := λ _,
    [ (lit "a", [(lit "href", Some (lit "/abstract/detail/12/de-kloof.html"))]);
      (lit "a", [(lit "href", Some (lit "/abstract/over-sander.html"))]);
      (lit "a", [(lit "class", Some (lit "more"));
                 (lit "href", Some (lit "/abstract/detail/15/stilte.html"))]) ];
  parse_error := λ _, None;
  exists_error := λ _, None;
|}.

(** The same listing with an anchor whose [href] has no value between the
    two detail links. *)
Definition bare_anchor : Env := {|
  urlopen := λ _ _, NetError (lit "timed out");
  disk := λ _ _, Written;
  utf8_replace := λ content, content;
  url_suffix := λ _, [];
  start_tags := λ _,
    [ (lit "a", [(lit "href", Some (lit "/abstract/detail/12/de-kloof.html"))]);
      (lit "a", [(lit "href", None)]);
      (lit "a", [(lit "class", Some (lit "more"));
                 (lit "href", Some (lit "/abstract/detail/15/stilte.html"))]) ];
  parse_error := λ _, None;
  exists_error := λ _, None;
|}.

(** ** The manifest invariant *)



(** ** A flaky network *)

(** A network that drops the first two requests and answers the third. *)
Definition flaky : Env := {|
  urlopen := λ n _, if (n <? 2)%nat then NetError (lit "timed out")
                    else Body [104; 105];
  disk := λ _ _, Written;
  utf8_replace := λ content, content;
  url_suffix := λ _, [];
  start_tags := λ _, [];
  parse_error := λ _, None;
  exists_error := λ _, None;
|}.

(** ** The crawl and what it leaves behind *)

(** [q] may follow [p] in the manifest. *)
Definition id_ge (p q : painting) : Prop := id (data q) ≤ id (data p).

(** The extension [main] gives the image file. *)
Definition image_ext (E : Env) (img : str) : str :=
  match url_suffix E (absolute img) with
  | [] => lit ".jpg"
  | ext => ext
  end.

(** Where an entry of the manifest comes from: its link is one of those
    the link extractor found on a non-empty listing that the server sent
    for its category, and its data come from a non-empty page that the
    server sent for that link. *)
Definition entry_from {U : UnicodeDB} (E : Env) (cats : list (str * str))
    (p : painting) : Prop :=
  (∃ cat_path n listing links,
      (category p, cat_path) ∈ cats
      ∧ urlopen E n (BASE_URL ++ cat_path) = Body listing
      ∧ utf8_replace E listing ≠ []
      ∧ extract_links E (utf8_replace E listing) = Done links
      ∧ url p ∈ links)
  ∧ is_detail_link (url p) = true
  ∧ (∃ n content, urlopen E n (absolute (url p)) = Body content
       ∧ utf8_replace E content ≠ []
       ∧ data p = extract_product_data (utf8_replace E content) (url p))
  ∧ slug p = slugify (title_nl (data p))
  ∧ local_image p = match images (data p) with
                    | [] => []
                    | img :: _ => lit "images/paintings/" ++ category p ++ [slash]
                                  ++ slug p ++ image_ext E img
                    end.

(** The files of [w] are in [w'] as they were, and what [w'] has more is
    below the image directory. *)
Definition adds_images (w w' : World) : Prop :=
  ∀ path,
    match files w !! path with
    | Some content => files w' !! path = Some content
    | None => is_Some (files w' !! path) →
              startswith (OUTPUT_DIR ++ [slash]) path = true
    end.

(** Two paintings without an image, listed in ascending order of id; the
    second category is down. *)
Definition two_pages : Env := {|
  urlopen := λ _ url,
    if bool_decide (url = BASE_URL ++ lit "/webshop/schilderijenpaintings/abstract/")
    then Body listing_page
    else if bool_decide
              (url = BASE_URL
                     ++ lit "/webshop/schilderijenpaintings/magisch-realisme--reverso-context/")
    then NetError (lit "HTTP Error 503: Service Unavailable")
    else Body (lit "<p>Verkocht</p>");
  disk := λ _ _, Written;
  utf8_replace := λ content, content;
  url_suffix := λ _, lit ".jpg";
  start_tags := λ html,
    if bool_decide (html = listing_page)
    then [ (lit "a", [(lit "href", Some (lit "/abstract/detail/12/de-kloof.html"))]);
           (lit "a", [(lit "href", Some (lit "/abstract/detail/15/stilte.html"))]) ]
    else [];
  parse_error := λ _, None;
  exists_error := λ _, None;
|}.

(** A listing with an anchor whose [href] has no value. *)
Definition bare_listing : Env := {|
  urlopen := λ _ _, Body listing_page;
  disk := λ _ _, Written;
  utf8_replace := λ content, content;
  url_suffix := λ _, [];
  start_tags := λ _,
    [ (lit "a", [(lit "href", Some (lit "/abstract/detail/12/de-kloof.html"))]);
      (lit "a", [(lit "href", None)]) ];
  parse_error := λ _, None;
  exists_error := λ _, None;
|}.

(** A server that answers every request with an empty body. *)
Definition blank : Env := {|
  urlopen := λ _ _, Body [];
  disk := λ _ _, Written;
  utf8_replace := λ content, content;
  url_suffix := λ _, [];
  start_tags := λ _, [];
  parse_error := λ _, None;
  exists_error := λ _, None;
|}.

(** ** ProductPageParser *)

(** The second parser of [scrape.py].  [main] does not use it; it is
    embedded on the events that [HTMLParser.feed] hands to the three
    handlers it overrides.  Of the attributes set by [__init__] the four
    below are the ones a handler assigns; the others keep their first
    value. *)
Module ProductPageParser.

Inductive event : Type :=
  | StartTag (tag : str) (attrs : list (str * option str))
  | EndTag (tag : str)
  | Data (text : str).

Record state : Type := {
  images : list str;
  meta_content : gmap (list N) (list N);
  tag_stack : list str;
  price_text : str;
}.

Definition init : state :=
  {| images := []; meta_content := ∅; tag_stack := []; price_text := [] |}.

Definition set_images (l : list str) (s : state) : state :=
  {| images := l; meta_content := meta_content s;
     tag_stack := tag_stack s; price_text := price_text s |}.

(** [if x not in self.images: self.images.append(x)] *)
Definition add_image (x : str) (s : state) : state :=
  if bool_decide (x ∈ images s) then s else set_images (images s ++ [x]) s.

(** A value that is a non-empty string. *)
Definition truthy (v : option str) : bool :=
  match v with Some (_ :: _) => true | _ => false end.

(** [handle_starttag].  The tag is pushed first.  For an [img], testing a
    substring of [None] (a [src] without a value) raises [TypeError]; for
    a [meta], a property without a value is just not equal to the names
    looked for. *)
Definition handle_starttag (s : state) (tag : str)
    (attrs : list (str * option str)) : result state :=
  let s := {| images := images s; meta_content := meta_content s;
              tag_stack := tag_stack s ++ [tag]; price_text := price_text s |} in
  let after_img :=
    if bool_decide (tag = lit "img") then
      match attrs_get (lit "src") (Some []) attrs with
      | None => Raised (lit "TypeError")
      | Some src =>
          if contains (lit "/data/upload/Shop/images/") src
          then Done (add_image src s) else Done s
      end
    else Done s in
  match after_img with
  | Raised e => Raised e
  | Done s =>
      if bool_decide (tag = lit "meta") then
        let prop := attrs_get (lit "property") (Some []) attrs in
        let content := attrs_get (lit "content") (Some []) attrs in
        let s := if bool_decide (prop = Some (lit "og:image")) && truthy content
                 then add_image (default [] content) s else s in
        let s := if bool_decide (prop = Some (lit "og:title")) && truthy content
                 then {| images := images s;
                         meta_content := <[lit "og_title" := default [] content]>
                                           (meta_content s);
                         tag_stack := tag_stack s; price_text := price_text s |}
                 else s in
        Done s
      else Done s
  end.

(** [handle_endtag]: the top of the stack is popped when it is the tag. *)
Definition handle_endtag (s : state) (tag : str) : state :=
  if bool_decide (last (tag_stack s) = Some tag)
  then {| images := images s; meta_content := meta_content s;
          tag_stack := removelast (tag_stack s); price_text := price_text s |}
  else s.

(** [handle_data] *)
Definition handle_data (s : state) (data : str) : state :=
  let text := py_strip data in
  match text with
  | [] => s
  | _ =>
      if contains [euro] text || contains (lit "EUR") text
      then {| images := images s; meta_content := meta_content s;
              tag_stack := tag_stack s; price_text := text |}
      else s
  end.

Definition handle (s : state) (ev : event) : result state :=
  match ev with
  | StartTag tag attrs => handle_starttag s tag attrs
  | EndTag tag => Done (handle_endtag s tag)
  | Data text => Done (handle_data s text)
  end.

(** [feed], on the events of the page. *)
Fixpoint feed (s : state) (events : list event) : result state :=
  match events with
  | [] => Done s
  | ev :: events' =>
      match handle s ev with
      | Done s' => feed s' events'
      | Raised e => Raised e
      end
  end.

(** The image a start tag contributes: the [src] of an [img] that has the
    upload path, the non-empty [content] of a [meta] whose property is
    [og:image]. *)
Definition image_of (ev : event) : option str :=
  match ev with
  | StartTag tag attrs =>
      if bool_decide (tag = lit "img") then
        match attrs_get (lit "src") (Some []) attrs with
        | Some src =>
            if contains (lit "/data/upload/Shop/images/") src then Some src else None
        | None => None
        end
      else if bool_decide (tag = lit "meta") then
        if bool_decide (attrs_get (lit "property") (Some []) attrs
                        = Some (lit "og:image"))
           && truthy (attrs_get (lit "content") (Some []) attrs)
        then attrs_get (lit "content") (Some []) attrs else None
      else None
  | _ => None
  end.

(** An [img] whose [src] attribute has no value. *)
Definition bare_src (ev : event) : Prop :=
  match ev with
  | StartTag tag attrs =>
      tag = lit "img" ∧ attrs_get (lit "src") (Some []) attrs = None
  | _ => False
  end.

(** The text a data event offers as price text: the stripped text, when
    it has a euro sign or the letters EUR. *)
Definition price_of (ev : event) : option str :=
  match ev with
  | Data data =>
      let text := py_strip data in
      if contains [euro] text || contains (lit "EUR") text then Some text else None
  | _ => None
  end.

End ProductPageParser.

(** ** What a pattern matches *)

(** [matches r g m g']: the pattern [r] matches the text [m], and group 1,
    which was [g] before, is [g'] after. *)
Inductive matches : regex → option str → str → option str → Prop :=
  | M_Eps g : matches Eps g [] g
  | M_Cls p c g : p c = true → matches (Cls p) g [c] g
  | M_Cat r1 r2 g m1 g1 m2 g2 :
      matches r1 g m1 g1 → matches r2 g1 m2 g2 →
      matches (Cat r1 r2) g (m1 ++ m2) g2
  | M_Alt_l r1 r2 g m g' : matches r1 g m g' → matches (Alt r1 r2) g m g'
  | M_Alt_r r1 r2 g m g' : matches r2 g m g' → matches (Alt r1 r2) g m g'
  | M_Star_nil r g : matches (Star r) g [] g
  | M_Star_cons r g m1 g1 m2 g2 :
      matches r g m1 g1 → matches (Star r) g1 m2 g2 →
      matches (Star r) g (m1 ++ m2) g2
  | M_LazyStar_nil r g : matches (LazyStar r) g [] g
  | M_LazyStar_cons r g m1 g1 m2 g2 :
      matches r g m1 g1 → matches (LazyStar r) g1 m2 g2 →
      matches (LazyStar r) g (m1 ++ m2) g2
  | M_Group r g m g' : matches r g m g' → matches (Group r) g m (Some m).

(** The matcher is sound for [r]: what it hands to its continuation is
    the rest of the text after a match of [r]. *)
Definition sound_for (A : Type) (r : regex) : Prop :=
  ∀ s g (k : str → option str → option A) a, run r s g k = Some a →
    ∃ m s' g', s = m ++ s' ∧ matches r g m g' ∧ k s' g' = Some a.

(** ** The upload path and ASCII numerals *)

(** The upload path that marks an image of the shop. *)
Definition upload_path : str := lit "/data/upload/Shop/images/".

(** The number an ASCII numeral stands for. *)
Definition decimal (ds : str) : N := foldl (λ acc c, 10 * acc + (c - 48)) 0 ds.

(** ** The dimensions *)

Section Dimensions.
Context {U : UnicodeDB}.

(** [[.,]] *)
Definition dot_or_comma (c : char) : bool := (c =? dot) || (c =? comma).

(** [\d+(?:[.,]\d+)?] *)
Definition number_re : regex :=
  Cat (Plus (Cls is_digit))
      (Alt (Cat (Cls dot_or_comma) (Plus (Cls is_digit))) Eps).

(** [(\d+(?:[.,]\d+)?\s*x\s*\d+(?:[.,]\d+)?)\s*cm] *)
Definition dim_re : regex :=
  Cat (Group (Cat number_re
               (Cat (Star (Cls is_space))
                 (Cat (Lit 120)
                   (Cat (Star (Cls is_space)) number_re)))))
      (Cat (Star (Cls is_space)) (Lits (lit "cm"))).

(** The value of the key [dimensions] in the dict built by
    [extract_product_data]. *)
Definition extract_dimensions (html : str) : str :=
  match re_search dim_re html with
  | Some g => py_strip g ++ lit " cm"
  | None => []
  end.

(** A numeral as the pattern reads it: digits, and possibly a dot or a
    comma with more digits. *)
Definition numeral (n : str) : Prop :=
  ∃ ip frac, n = ip ++ frac ∧ ip ≠ [] ∧ Forall (λ c, is_digit c = true) ip
    ∧ (frac = []
       ∨ ∃ sep fp, frac = sep :: fp ∧ dot_or_comma sep = true ∧ fp ≠ []
                   ∧ Forall (λ c, is_digit c = true) fp).

End Dimensions.

(** ** Naps, reused images, nested markup *)

(** From [w] to [w'] the crawler slept [n] times for half a second, and
    otherwise only for two seconds. *)
Definition napped (n : nat) (w w' : World) : Prop :=
  ∃ added, naps w' = naps w ++ added
    ∧ Forall (λ ms, ms = 2000 ∨ ms = 500) added
    ∧ length (filter (λ ms, ms = 500) added) = n.

(** Markup in which every start tag has its end tag, properly nested. *)
Inductive nested : list ProductPageParser.event → Prop :=
  | nested_nil : nested []
  | nested_data text rest :
      nested rest → nested (ProductPageParser.Data text :: rest)
  | nested_element tag attrs body rest :
      nested body → nested rest →
      nested (ProductPageParser.StartTag tag attrs
                :: body ++ ProductPageParser.EndTag tag :: rest).


(** * Theorems *)

(** ** Facts about the matcher *)

Section MatcherFacts.
Context {A : Type}.
Implicit Types (p : char → bool) (k : str → option str → option A).

Lemma run_Cat r1 r2 s g k :
  run (Cat r1 r2) s g k = run r1 s g (λ s' g', run r2 s' g' k).
Proof. done. Qed.

Lemma run_Cls p s g k :
  run (Cls p) s g k =
    match s with c :: t => if p c then k t g else None | [] => None end.
Proof. done. Qed.

Lemma run_Group r s g k :
  run (Group r) s g k =
    run r s g (λ s' _, k s' (Some (take (length s - length s') s))).
Proof. done. Qed.

Lemma greedy_loop_cls p k g s fuel :
  (length s ≤ fuel)%nat →
  greedy_loop (λ s' g' k', run (Cls p) s' g' k') k fuel s g = greedy_cls p k g s.
Proof.
  revert s. induction fuel as [|fuel IH]; intros [|c t] Hlen; simpl in *; try lia; try done.
  destruct (p c); [|done].
  destruct (Nat.ltb_spec (length t) (S (length t))); [|lia].
  rewrite IH by lia. done.
Qed.

Lemma run_star_cls p k g s :
  run (Star (Cls p)) s g k = greedy_cls p k g s.
Proof. by apply greedy_loop_cls. Qed.

Lemma run_plus_cls p s g k :
  run (Plus (Cls p)) s g k =
    match s with c :: t => if p c then greedy_cls p k g t else None | [] => None end.
Proof.
  unfold Plus. rewrite run_Cat, run_Cls. destruct s as [|c t]; [done|].
  destruct (p c); [|done]. apply run_star_cls.
Qed.

(** When the rest of the pattern cannot fail, the repetition takes the
    whole run. *)
Lemma greedy_cls_total p k g s :
  (∀ s' g', is_Some (k s' g')) →
  greedy_cls p k g s = k (drop_while p s) g.
Proof.
  intros Hk. induction s as [|c t IH]; simpl; [done|].
  destruct (p c); [|done]. rewrite IH. by destruct (Hk (drop_while p t) g) as [a ->].
Qed.

(** When the rest of the pattern fails on every text that starts inside the
    run, the repetition takes the whole run as well. *)
Lemma greedy_cls_disjoint p k g s :
  (∀ c t g', p c = true → k (c :: t) g' = None) →
  greedy_cls p k g s = k (drop_while p s) g.
Proof.
  intros Hk. induction s as [|c t IH]; simpl; [done|].
  destruct (p c) eqn:Hc; [|done]. rewrite IH, (Hk c t g Hc).
  by destruct (k (drop_while p t) g).
Qed.

End MatcherFacts.

Lemma take_drop_while p (s : str) : take_while p s ++ drop_while p s = s.
Proof. induction s as [|c t IH]; simpl; [done|]. destruct (p c); simpl; by f_equal. Qed.

Lemma length_drop_while p (s : str) : (length (drop_while p s) ≤ length s)%nat.
Proof. induction s as [|c t IH]; simpl; [done|]. destruct (p c); simpl; lia. Qed.

Lemma take_length_drop_while p (s : str) :
  take (length s - length (drop_while p s)) s = take_while p s.
Proof.
  rewrite <- (take_drop_while p s) at 1 3. rewrite length_app.
  replace (length (take_while p s) + length (drop_while p s) - length (drop_while p s))%nat
    with (length (take_while p s)) by lia.
  by rewrite take_app_length.
Qed.

(** [r+] of a class, anchored, followed by nothing that can fail. *)
Lemma match_plus_cls p (s : str) :
  match_here (Plus (Cls p)) s =
    match s with
    | c :: t => if p c then Some (drop_while p t, []) else None
    | [] => None
    end.
Proof.
  unfold match_here. rewrite run_plus_cls. destruct s as [|c t]; [done|].
  destruct (p c); [|done]. by rewrite greedy_cls_total by eauto.
Qed.

(** *** Substitution of a class and of the runs of a class *)

Lemma match_cls p (s : str) :
  match_here (Cls p) s =
    match s with c :: t => if p c then Some (t, []) else None | [] => None end.
Proof. done. Qed.

Lemma sub_cls_empty p (s : str) fuel :
  (length s ≤ fuel)%nat →
  sub_from fuel (Cls p) [] s = List.filter (λ c, negb (p c)) s.
Proof.
  revert s. induction fuel as [|fuel IH]; intros [|c t] Hlen; simpl in Hlen; try lia; try done.
  cbn [sub_from List.filter]. rewrite match_cls.
  destruct (p c); simpl.
  - destruct (Nat.ltb_spec (length t) (S (length t))); [|lia]. apply IH; lia.
  - f_equal. apply IH; lia.
Qed.

Lemma squeeze_drop_while p h (s : str) :
  squeeze p h false (drop_while p s) = squeeze p h true s.
Proof.
  induction s as [|c t IH]; simpl; [done|].
  destruct (p c) eqn:Hc; [done|]. simpl. by rewrite Hc.
Qed.

Lemma sub_plus_cls p h (s : str) fuel :
  (length s ≤ fuel)%nat →
  sub_from fuel (Plus (Cls p)) [h] s = squeeze p h false s.
Proof.
  revert s. induction fuel as [|fuel IH]; intros s Hlen.
  { destruct s; simpl in *; [done|lia]. }
  destruct s as [|c t]; [done|].
  cbn [sub_from]. rewrite match_plus_cls. cbn [squeeze].
  destruct (p c) eqn:Hc.
  - pose proof (length_drop_while p t) as Hd.
    destruct (Nat.ltb_spec (length (drop_while p t)) (length (c :: t))) as [_|Hge];
      [|simpl in Hge; lia].
    simpl. f_equal. rewrite IH by (simpl in Hlen; lia). apply squeeze_drop_while.
  - f_equal. apply IH. simpl in Hlen; lia.
Qed.

(** ** Facts about the string methods *)

Lemma startswith_spec (p s : str) :
  startswith p s = true ↔ ∃ l, s = p ++ l.
Proof.
  revert s. induction p as [|a p IH]; intros s; simpl.
  { split; [eauto|done]. }
  destruct s as [|b s]; [split; [done|by intros [l ?]]|].
  rewrite andb_true_iff, N.eqb_eq, IH. split.
  - intros [-> [l ->]]. eauto.
  - intros [l [= -> ->]]. eauto.
Qed.

Lemma contains_spec (p s : str) :
  contains p s = true ↔ ∃ l1 l2, s = l1 ++ p ++ l2.
Proof.
  induction s as [|c t IH].
  - simpl. rewrite orb_false_r, startswith_spec. split.
    + intros [l Hl]. by exists [], l.
    + intros (l1 & l2 & Hl). destruct l1; [eauto|done].
  - cbn [contains]. rewrite orb_true_iff, startswith_spec, IH. split.
    + intros [[l Hl]|(l1 & l2 & ->)]; [by exists [], l|by exists (c :: l1), l2].
    + intros (l1 & l2 & Hl). destruct l1 as [|a l1]; [left; eauto|].
      injection Hl as -> ->. right; eauto.
Qed.

Lemma contains_false (p s : str) :
  contains p s = false ↔ ∀ l1 l2, s ≠ l1 ++ p ++ l2.
Proof.
  rewrite <- not_true_iff_false, contains_spec. split.
  - intros H l1 l2 Heq. apply H; eauto.
  - intros H (l1 & l2 & Heq). by eapply H.
Qed.

Lemma endswith_spec (p s : str) :
  endswith p s = true ↔ ∃ l, s = l ++ p.
Proof.
  unfold endswith. rewrite startswith_spec. split.
  - intros [l Hl]. exists (reverse l).
    by rewrite <- (reverse_involutive s), Hl, reverse_app, reverse_involutive.
  - intros [l ->]. exists (reverse l). by rewrite reverse_app.
Qed.

Lemma take_while_Forall p (s : str) : Forall (λ c, p c = true) (take_while p s).
Proof.
  induction s as [|c t IH]; simpl; [done|].
  destruct (p c) eqn:Hc; by constructor.
Qed.

Lemma drop_while_head p (s : str) c :
  head (drop_while p s) = Some c → p c = false.
Proof.
  induction s as [|a t IH]; simpl; [done|].
  destruct (p a) eqn:Ha; [done|]. by intros [= <-].
Qed.

(** What [strip] leaves is a piece of the text between two runs of
    stripped characters. *)
Lemma rstrip_by_split p (s : str) :
  ∃ r, s = rstrip_by p s ++ r ∧ Forall (λ c, p c = true) r.
Proof.
  exists (reverse (take_while p (reverse s))). split.
  - unfold rstrip_by, lstrip_by. rewrite <- reverse_app, take_drop_while.
    by rewrite reverse_involutive.
  - apply Forall_reverse, take_while_Forall.
Qed.

Lemma strip_by_split p (s : str) :
  ∃ l r, s = l ++ strip_by p s ++ r
         ∧ Forall (λ c, p c = true) l ∧ Forall (λ c, p c = true) r.
Proof.
  destruct (rstrip_by_split p (lstrip_by p s)) as (r & Hr & HFr).
  exists (take_while p s), r. split_and!; [|apply take_while_Forall|done].
  unfold strip_by. rewrite <- Hr. symmetry. apply take_drop_while.
Qed.

Lemma rstrip_by_last p (s : str) c :
  last (rstrip_by p s) = Some c → p c = false.
Proof. unfold rstrip_by. rewrite last_reverse. apply drop_while_head. Qed.

Lemma strip_by_last p (s : str) c :
  last (strip_by p s) = Some c → p c = false.
Proof. apply rstrip_by_last. Qed.

Lemma strip_by_head p (s : str) c :
  head (strip_by p s) = Some c → p c = false.
Proof.
  unfold strip_by. destruct (rstrip_by_split p (lstrip_by p s)) as (r & Hr & _).
  intros Hh. apply (drop_while_head p s). fold (lstrip_by p s). rewrite Hr.
  destruct (rstrip_by p (lstrip_by p s)); [done|]. done.
Qed.

Lemma strip_by_elem p (s : str) c : c ∈ strip_by p s → c ∈ s.
Proof.
  destruct (strip_by_split p s) as (l & r & Hs & _). intros Hc.
  rewrite Hs. set_solver.
Qed.

Lemma strip_by_keeps p (s : str) c : c ∈ s → p c = false → c ∈ strip_by p s.
Proof.
  destruct (strip_by_split p s) as (l & r & Hs & Hl & Hr). intros Hc Hp.
  rewrite Forall_forall in Hl, Hr. rewrite Hs in Hc.
  apply elem_of_app in Hc as [Hc|Hc]; [apply Hl in Hc; congruence|].
  apply elem_of_app in Hc as [Hc|Hc]; [done|apply Hr in Hc; congruence].
Qed.

(** *** squeeze *)

Lemma squeeze_elem p h b (s : str) c :
  c ∈ squeeze p h b s → c = h ∨ (c ∈ s ∧ p c = false).
Proof.
  revert b. induction s as [|a t IH]; intros b; simpl; [by intros ?%elem_of_nil|].
  destruct (p a) eqn:Ha.
  - destruct b.
    + intros [?|[? ?]]%IH; [by left|right; split; [by right|done]].
    + intros [->|[?|[? ?]]%IH]%elem_of_cons; [by left|by left|].
      right; split; [by right|done].
  - intros [->|[?|[? ?]]%IH]%elem_of_cons; [right; split; [by left|done]|by left|].
    right; split; [by right|done].
Qed.

Lemma squeeze_keeps p h b (s : str) c :
  c ∈ s → p c = false → c ∈ squeeze p h b s.
Proof.
  revert b. induction s as [|a t IH]; intros b; [by intros ?%elem_of_nil|].
  intros [->|Hc]%elem_of_cons Hp; simpl.
  - rewrite Hp. by left.
  - destruct (p a), b; try right; by apply IH.
Qed.

(** After squeezing the runs of [h] into [h], no two [h] are adjacent. *)
Lemma squeeze_no_double h b (s : str) :
  (∀ l1 l2, squeeze (N.eqb h) h b s ≠ l1 ++ h :: h :: l2)
  ∧ (b = true → ∀ l, squeeze (N.eqb h) h b s ≠ h :: l).
Proof.
  revert b. induction s as [|a t IH]; intros b; simpl.
  { split; [by intros [|??] ?|done]. }
  destruct (N.eqb_spec h a) as [<-|Hne].
  - destruct b.
    + apply IH.
    + split; [|done]. intros [|x l1] l2; simpl.
      * intros [= Heq]. by eapply (proj2 (IH true)).
      * intros [= _ Heq]. by eapply (proj1 (IH true)).
  - split.
    + intros [|x l1] l2; simpl; [congruence|].
      intros [= _ Heq]. by eapply (proj1 (IH false)).
    + intros _ l. congruence.
Qed.

(** ** slugify *)

Lemma drop_while_ext p q (s : str) :
  (∀ c, p c = q c) → drop_while p s = drop_while q s.
Proof.
  intros Hpq. induction s as [|c t IH]; cbn [drop_while]; [done|].
  by rewrite Hpq, IH.
Qed.

Lemma in_chars_single h c : in_chars [h] c = (h =? c).
Proof.
  unfold in_chars. destruct (N.eqb_spec h c) as [<-|Hne].
  - apply bool_decide_eq_true_2. set_solver.
  - apply bool_decide_eq_false_2. set_solver.
Qed.

Section Slugify.
Context {U : UnicodeDB}.

(** [slugify] without the regular expressions. *)
Lemma slugify_eq text :
  slugify text =
    strip_by (N.eqb hyphen)
      (squeeze (N.eqb hyphen) hyphen false
         (squeeze slug_gap hyphen false
            (List.filter (λ c, negb (slug_junk c)) (py_strip (py_lower text))))).
Proof.
  unfold slugify, re_sub, Lit.
  rewrite sub_cls_empty, !sub_plus_cls by done.
  unfold py_strip_chars, strip_by, rstrip_by, lstrip_by.
  by rewrite !(drop_while_ext _ _ _ (in_chars_single hyphen)).
Qed.

Lemma slug_core_not_hyphen c : slug_core c = true → c ≠ hyphen.
Proof. intros Hc ->. by vm_compute in Hc. Qed.

(** Where a character of the slug comes from. *)
Lemma slugify_elem text c :
  c ∈ slugify text →
  c = hyphen ∨ (c ∈ py_lower text ∧ slug_core c = true).
Proof.
  rewrite slugify_eq. intros Hc%strip_by_elem.
  apply squeeze_elem in Hc as [?|[Hc _]]; [by left|].
  apply squeeze_elem in Hc as [?|[Hc Hgap]]; [by left|].
  rewrite list_elem_of_In, filter_In, <- list_elem_of_In in Hc. destruct Hc as [Hc Hjunk].
  apply strip_by_elem in Hc.
  unfold slug_junk in Hjunk. rewrite negb_involutive in Hjunk.
  unfold slug_gap in Hgap. apply orb_false_iff in Hgap as [Hsp Hus].
  rewrite Hsp, orb_false_r in Hjunk.
  apply orb_true_iff in Hjunk as [Hw|?%N.eqb_eq]; [|by left].
  right. split; [done|]. unfold slug_core. by rewrite Hw, Hsp, Hus.
Qed.

Lemma slugify_keeps text c :
  c ∈ py_lower text → slug_core c = true → c ∈ slugify text.
Proof.
  intros Hc Hcore. pose proof (slug_core_not_hyphen c Hcore) as Hh.
  unfold slug_core in Hcore.
  apply andb_true_iff in Hcore as [[Hw Hsp]%andb_true_iff Hus].
  apply negb_true_iff in Hsp, Hus.
  rewrite slugify_eq. apply strip_by_keeps; [|by apply N.eqb_neq].
  apply squeeze_keeps; [|by apply N.eqb_neq].
  apply squeeze_keeps; [|unfold slug_gap; by rewrite Hsp, Hus].
  rewrite list_elem_of_In, filter_In, <- list_elem_of_In. split.
  - by apply strip_by_keeps.
  - unfold slug_junk. by rewrite Hw.
Qed.

Lemma slugify_no_leading_hyphen text : startswith [hyphen] (slugify text) = false.
Proof.
  apply not_true_iff_false. rewrite startswith_spec. intros [l Hl].
  pose proof (strip_by_head (N.eqb hyphen) _ hyphen
                (eq_trans (f_equal head (eq_trans (eq_sym (slugify_eq text)) Hl)) eq_refl)).
  done.
Qed.

Lemma slugify_no_trailing_hyphen text : endswith [hyphen] (slugify text) = false.
Proof.
  apply not_true_iff_false. rewrite endswith_spec. intros [l Hl].
  assert (last (slugify text) = Some hyphen) as Hlast by (rewrite Hl; apply last_snoc).
  rewrite slugify_eq in Hlast. by apply strip_by_last in Hlast.
Qed.

Lemma slugify_no_double_hyphen text : contains [hyphen; hyphen] (slugify text) = false.
Proof.
  apply contains_false. intros l1 l2 Heq. rewrite slugify_eq in Heq.
  match type of Heq with strip_by ?p ?s = _ =>
    destruct (strip_by_split p s) as (l & r & Hs & _);
    apply (proj1 (squeeze_no_double hyphen false
             (squeeze slug_gap hyphen false
               (List.filter (λ c, negb (slug_junk c)) (py_strip (py_lower text)))))
             (l ++ l1) (l2 ++ r))
  end.
  rewrite Hs, Heq. by rewrite <- !app_assoc.
Qed.

Lemma slugify_nonempty text :
  slugify text ≠ [] ↔ Exists (λ c, slug_core c = true) (py_lower text).
Proof.
  rewrite Exists_exists. split.
  - intros Hne. destruct (slugify text) as [|c t] eqn:Hs; [done|].
    assert (c ∈ slugify text) as Hc by (rewrite Hs; by left).
    apply slugify_elem in Hc as [->|[? ?]]; [|eauto].
    pose proof (slugify_no_leading_hyphen text) as Hlead. by rewrite Hs in Hlead.
  - intros (c & Hc & Hcore) Hs.
    pose proof (slugify_keeps text c Hc Hcore) as Hin. rewrite Hs in Hin.
    by apply elem_of_nil in Hin.
Qed.

(** *** ASCII titles *)

Lemma lower_from_ascii before (s : str) :
  Forall (λ c, is_ascii c = true) s →
  lower_from before s = map ascii_to_lower s.
Proof.
  revert before. induction s as [|c t IH]; intros before Hs; [done|].
  inversion Hs as [|? ? Hc Ht]; subst. simpl. unfold lower_char. rewrite Hc.
  simpl. f_equal. by apply IH.
Qed.

Lemma slug_core_ascii_lower c :
  is_ascii c = true →
  slug_core (ascii_to_lower c) = ascii_alnum c
  ∧ (slug_core (ascii_to_lower c) = true → slug_char (ascii_to_lower c) = true).
Proof.
  intros Hc. unfold is_ascii in Hc. apply N.ltb_lt in Hc.
  assert (∃ n : nat, (n < 128)%nat ∧ c = N.of_nat n) as (n & Hn & ->).
  { exists (N.to_nat c). split; lia. }
  clear Hc. do 128 (destruct n as [|n]; [by vm_compute|]). lia.
Qed.

Lemma slugify_ascii text :
  Forall (λ c, is_ascii c = true) text →
  Forall (λ c, slug_char c = true) (slugify text)
  ∧ (slugify text ≠ [] ↔ Exists (λ c, ascii_alnum c = true) text).
Proof.
  intros Hascii. split.
  - rewrite Forall_forall. intros c [->|[Hc Hcore]]%slugify_elem; [done|].
    unfold py_lower in Hc. rewrite lower_from_ascii in Hc by done.
    apply list_elem_of_fmap in Hc as (a & -> & Ha).
    rewrite Forall_forall in Hascii.
    by apply (slug_core_ascii_lower a (Hascii a Ha)).
  - rewrite slugify_nonempty. unfold py_lower. rewrite lower_from_ascii by done.
    rewrite Exists_fmap. rewrite Forall_forall in Hascii.
    rewrite !Exists_exists. split; intros (a & Ha & Hp); exists a; split; try done.
    + by rewrite <- (proj1 (slug_core_ascii_lower a (Hascii a Ha))).
    + simpl. by rewrite (proj1 (slug_core_ascii_lower a (Hascii a Ha))).
Qed.

End Slugify.

(** ** The price *)

Section Price.
Context {U : UnicodeDB}.

Lemma is_space_spec c :
  is_space c = true →
  9 ≤ c ≤ 13 ∨ 28 ≤ c ≤ 32 ∨ c = 133 ∨ c = 160 ∨ c = 5760 ∨ 8192 ≤ c ≤ 8202
  ∨ c = 8232 ∨ c = 8233 ∨ c = 8239 ∨ c = 8287 ∨ c = 12288.
Proof.
  unfold is_space.
  rewrite !orb_true_iff, !andb_true_iff, !N.leb_le, !N.eqb_eq. tauto.
Qed.

Lemma space_not_price_char c : is_space c = true → price_char c = false.
Proof.
  intros Hsp. pose proof (is_space_spec c Hsp) as Hc.
  unfold price_char. rewrite !orb_false_iff. split_and!.
  - unfold is_digit, digit_value. destruct (is_ascii c).
    + destruct (ascii_digit c) eqn:Hd; [|done].
      unfold ascii_digit in Hd. rewrite andb_true_iff, !N.leb_le in Hd. lia.
    + by rewrite (udb_space_not_decimal c Hsp).
  - apply N.eqb_neq. unfold dot. lia.
  - apply N.eqb_neq. unfold comma. lia.
Qed.

Lemma match_price_re (s : str) :
  match_here price_re s =
    match s with
    | c :: rest =>
        if c =? euro then
          match token_after rest with
          | [] => None
          | tok => Some (drop_while price_char (drop_while is_space rest), tok)
          end
        else None
    | [] => None
    end.
Proof.
  unfold match_here, price_re, Lit. rewrite run_Cat, run_Cls.
  destruct s as [|c rest]; [done|]. rewrite (N.eqb_sym euro c).
  destruct (c =? euro); [|done].
  rewrite run_Cat, run_star_cls, greedy_cls_disjoint.
  - rewrite run_Group, run_plus_cls. unfold token_after.
    destruct (drop_while is_space rest) as [|a t] eqn:Hd; [done|].
    cbn [take_while]. destruct (price_char a) eqn:Ha; [|done].
    rewrite greedy_cls_total by eauto.
    pose proof (take_length_drop_while price_char (a :: t)) as Ht.
    cbn [drop_while take_while] in Ht. rewrite Ha in Ht.
    cbn [drop_while]. rewrite Ha. do 2 f_equal. exact Ht.
  - intros a t g' Ha. rewrite run_Group, run_plus_cls.
    by rewrite (space_not_price_char a Ha).
Qed.

(** The regular expression finds the first currency-marked token. *)
Lemma re_search_price (html : str) :
  re_search price_re html = price_token html.
Proof.
  induction html as [|c rest IH]; [done|].
  cbn [re_search price_token]. rewrite match_price_re.
  destruct (c =? euro); [|done].
  by destruct (token_after rest).
Qed.

Lemma extract_price_eq (html : str) :
  extract_price html = price_number <$> price_token html.
Proof.
  unfold extract_price. rewrite re_search_price.
  destruct (price_token html) as [tok|]; [|done]. simpl. unfold price_number.
  by destruct (py_float _).
Qed.

Lemma price_token_no_euro (html : str) : euro ∉ html → price_token html = None.
Proof.
  induction html as [|c rest IH]; [done|]. intros Hnot.
  apply not_elem_of_cons in Hnot as [Hne Hnot]. cbn [price_token].
  destruct (N.eqb_spec c euro); [congruence|]. by apply IH.
Qed.

Lemma price_token_first (pre rest : str) :
  euro ∉ pre → token_after rest ≠ [] →
  price_token (pre ++ euro :: rest) = Some (token_after rest).
Proof.
  intros Hnot Htok. induction pre as [|c pre IH]; simpl.
  - by destruct (token_after rest).
  - apply not_elem_of_cons in Hnot as [Hne Hnot].
    destruct (N.eqb_spec c euro); [congruence|]. by apply IH.
Qed.

Lemma take_while_app_stop p (tok post : str) :
  Forall (λ c, p c = true) tok →
  head post ≫= (λ c, if p c then Some c else None) = None →
  take_while p (tok ++ post) = tok.
Proof.
  intros Htok Hpost. induction Htok as [|c tok Hc _ IH]; simpl.
  - destruct post as [|c post]; [done|]. simpl in *. by destruct (p c).
  - by rewrite Hc, IH.
Qed.

End Price.

(** ** Deduplication in order of first occurrence *)

Lemma append_new_nub (seen keys : list str) :
  append_new seen keys = seen ++ filter (λ y, y ∉ seen) (nub keys).
Proof.
  revert seen. induction keys as [|x t IH]; intros seen.
  { simpl. by rewrite app_nil_r. }
  unfold append_new in *. cbn [foldl nub]. case_bool_decide as Hx.
  - rewrite IH. f_equal. rewrite filter_cons_False by (intros ?; done).
    rewrite list_filter_filter. apply list_filter_iff. intros y.
    split; [|tauto]. intros Hy. split; [done|]. by intros ->.
  - rewrite IH, <- app_assoc. f_equal. rewrite filter_cons_True by done.
    simpl. f_equal. rewrite list_filter_filter. apply list_filter_iff. intros y.
    rewrite not_elem_of_app, not_elem_of_cons. pose proof (not_elem_of_nil y). tauto.
Qed.

Lemma append_new_nil (keys : list str) : append_new [] keys = nub keys.
Proof.
  rewrite append_new_nub. simpl. induction (nub keys) as [|y l IH]; [done|].
  rewrite filter_cons_True by apply not_elem_of_nil. by f_equal.
Qed.

Lemma dict_fromkeys_nub (keys : list str) : dict_fromkeys keys = nub keys.
Proof. apply append_new_nil. Qed.

Lemma elem_of_nub (l : list str) x : x ∈ nub l ↔ x ∈ l.
Proof.
  induction l as [|a t IH]; [done|]. cbn [nub].
  rewrite !elem_of_cons, list_elem_of_filter, IH.
  destruct (decide (x = a)); naive_solver.
Qed.

Lemma NoDup_nub (l : list str) : NoDup (nub l).
Proof.
  induction l as [|a t IH]; cbn [nub]; constructor.
  - rewrite list_elem_of_filter. naive_solver.
  - by apply NoDup_filter.
Qed.

Lemma head_nub (l : list str) : head (nub l) = head l.
Proof. by destruct l. Qed.

(** ** The images *)

(** [extract_images], in terms of what the two patterns find. *)
Lemma extract_images_eq (html : str) :
  extract_images html =
    let found := nub (re_findall image_re html) in
    match re_search og_re html with
    | Some og => if bool_decide (og ∈ found) then found else og :: found
    | None => found
    end.
Proof. unfold extract_images. by rewrite dict_fromkeys_nub. Qed.

Lemma extract_images_NoDup (html : str) : NoDup (extract_images html).
Proof.
  rewrite extract_images_eq. cbn zeta.
  destruct (re_search og_re html) as [og|]; [|apply NoDup_nub].
  case_bool_decide; [apply NoDup_nub|]. constructor; [done|apply NoDup_nub].
Qed.

(** ** The detail links *)

Lemma feed_tags_append_new (links : list str) (tags : list start_tag) :
  Forall (λ t, ¬ bare_href t) tags →
  feed_tags links tags =
    Done (append_new links (List.filter is_detail_link (omap anchor_href tags))).
Proof.
  intros Hok. revert links. induction Hok as [|t tags Ht _ IH]; intros links; [done|].
  cbn [feed_tags].
  change (omap anchor_href (t :: tags))
    with (match anchor_href t with
          | Some y => y :: omap anchor_href tags
          | None => omap anchor_href tags
          end).
  unfold handle_starttag, bare_href in *.
  destruct (anchor_href t) as [href|] eqn:Hhref; unfold anchor_href in Hhref.
  - case_bool_decide as Ha; [|done]. rewrite Hhref.
    cbn [List.filter]. destruct (is_detail_link href); [|apply IH].
    unfold append_new. cbn [foldl]. case_bool_decide; apply IH.
  - case_bool_decide as Ha; [tauto|apply IH].
Qed.

Lemma feed_tags_raises (links : list str) (tags : list start_tag) :
  Exists bare_href tags → feed_tags links tags = Raised (lit "TypeError").
Proof.
  intros Hbad. revert links. induction Hbad as [t tags [Ha Hhref]|t tags _ IH]; intros links.
  - cbn [feed_tags]. unfold handle_starttag.
    by rewrite bool_decide_eq_true_2, Hhref by done.
  - cbn [feed_tags]. destruct (handle_starttag links t) as [links'|e] eqn:Ht; [apply IH|].
    unfold handle_starttag in Ht. case_bool_decide; [|done].
    destruct (attrs_get _ _ _) as [href|]; [|by injection Ht as <-].
    destruct (is_detail_link href); [by case_bool_decide|done].
Qed.

Lemma Done_inj {A} (a b : A) : Done a = Done b → a = b.
Proof. by intros [=]. Qed.

(** ** fetch *)

Section Fetch.
Context (E : Env).

Lemma fetch_from_all_fail (url : str) (retries : Z) (todo : nat) :
  (∀ n, failure (urlopen E n url) ≠ None) →
  ∀ (attempt : Z) (w : World),
  (attempt + Z.of_nat todo = retries)%Z →
  fetch_from E url retries attempt todo w =
    (None,
     {| requests := requests w ++ replicate todo url;
        files := files w;
        stdout := stdout w ++ failed_attempts E url attempt (length (requests w)) todo;
        naps := naps w ++ replicate (todo - 1) 2000 |}).
Proof.
  intros Hfail. induction todo as [|todo IH]; intros attempt w Hinv.
  { simpl. rewrite !app_nil_r. by destruct w. }
  cbn [fetch_from failed_attempts]. specialize (Hfail (length (requests w))).
  assert (∀ e, failure (urlopen E (length (requests w)) url) = Some e →
    fetch_from E url retries (attempt + 1) todo
      (let w0 := print (attempt_failed attempt url e) (request url w) in
       if (attempt <? retries - 1)%Z then sleep 2000 w0 else w0) =
    (None,
     {| requests := requests w ++ replicate (S todo) url;
        files := files w;
        stdout := stdout w ++ attempt_failed attempt url e
                    :: failed_attempts E url (attempt + 1) (S (length (requests w))) todo;
        naps := naps w ++ replicate (S todo - 1) 2000 |})) as Hstep.
  { intros e _. rewrite IH by lia. cbn zeta.
    destruct todo as [|todo].
    - destruct (Z.ltb_spec attempt (retries - 1)); [lia|].
      simpl. by rewrite <- !app_assoc, !app_nil_r.
    - destruct (Z.ltb_spec attempt (retries - 1)); [|lia].
      simpl. rewrite <- !app_assoc, length_app. simpl.
      by rewrite Nat.add_1_r, Nat.sub_0_r. }
  destruct (urlopen E (length (requests w)) url) as [e|e|body]; simpl in *;
    [by apply Hstep|by apply Hstep|done].
Qed.

(** A failure is only reported when every attempt has been made and has
    failed. *)
Lemma fetch_from_None (url : str) (retries : Z) (todo : nat) (attempt : Z) (w : World) :
  (fetch_from E url retries attempt todo w).1 = None →
  requests (fetch_from E url retries attempt todo w).2 = requests w ++ replicate todo url
  ∧ ∀ i, (i < todo)%nat → failure (urlopen E (length (requests w) + i) url) ≠ None.
Proof.
  revert attempt w. induction todo as [|todo IH]; intros attempt w Hnone.
  { simpl. split; [by rewrite app_nil_r|lia]. }
  cbn [fetch_from] in *.
  destruct (urlopen E (length (requests w)) url) as [e|e|body] eqn:Hopen;
    [| |done];
    (apply IH in Hnone as [Hreq Hall]; split;
     [rewrite Hreq; destruct (_ <? _)%Z; simpl; by rewrite <- app_assoc
     |intros [|i] Hi;
      [by rewrite Nat.add_0_r, Hopen
      |specialize (Hall i ltac:(lia));
       destruct (_ <? _)%Z; simpl in Hall; rewrite length_app in Hall; simpl in Hall;
       by replace (length (requests w) + S i)%nat
            with (length (requests w) + 1 + i)%nat by lia]]).
Qed.

(** A success is the decoded body of the first response that came. *)
Lemma fetch_from_Some (url : str) (retries : Z) (todo : nat) (attempt : Z) (w : World) text :
  (fetch_from E url retries attempt todo w).1 = Some text →
  ∃ i content, (i < todo)%nat
    ∧ urlopen E (length (requests w) + i) url = Body content
    ∧ text = utf8_replace E content
    ∧ requests (fetch_from E url retries attempt todo w).2
      = requests w ++ replicate (S i) url.
Proof.
  revert attempt w. induction todo as [|todo IH]; intros attempt w Hsome; [done|].
  cbn [fetch_from] in *.
  destruct (urlopen E (length (requests w)) url) as [e|e|body] eqn:Hopen.
  3: { exists O, body. simpl in *. rewrite Nat.add_0_r. split_and!; [lia|done|congruence|done]. }
  all: apply IH in Hsome as (i & content & Hi & Hbody & Htext & Hreq);
    exists (S i), content; split_and!; [lia| |done|].
  all: destruct (_ <? _)%Z; simpl in *; rewrite ?length_app in *; simpl in *;
    rewrite ?Hreq, <- ?app_assoc; try done;
    by replace (length (requests w) + S i)%nat
         with (length (requests w) + 1 + i)%nat by lia.
Qed.

End Fetch.

(** ** download_image *)

Section Download.
Context (E : Env).

Lemma file_exists_store path content w : file_exists path (store path content w) = true.
Proof.
  unfold file_exists, store. simpl. apply bool_decide_eq_true_2.
  rewrite lookup_insert_eq. eauto.
Qed.

Lemma file_exists_print path line w : file_exists path (print line w) = file_exists path w.
Proof. done. Qed.

Lemma file_exists_request path url w : file_exists path (request url w) = file_exists path w.
Proof. done. Qed.

(** A destination that is there: success at once, nothing requested,
    nothing written. *)
Lemma download_image_exists url dest w :
  file_exists dest w = true →
  download_image E url dest w
  = (Done true, print (lit "  Image already exists: " ++ path_name dest) w).
Proof. intros Hex. unfold download_image. by rewrite Hex. Qed.

(** What the existence check raises leaves the downloader. *)
Lemma download_image_raises url dest w e :
  file_exists dest w = false → exists_error E dest = Some e →
  download_image E url dest w = (Raised e, w).
Proof. intros Hex He. unfold download_image. by rewrite Hex, He. Qed.

(** Success means the file is there afterwards. *)
Lemma download_image_true url dest w :
  (download_image E url dest w).1 = Done true →
  file_exists dest (download_image E url dest w).2 = true.
Proof.
  unfold download_image. destruct (file_exists dest w) eqn:Hex; [done|].
  destruct (exists_error E dest); [done|].
  destruct (urlopen E _ url); [done| |].
  - by destruct (disk E _ dest).
  - destruct (disk E _ dest); try done. intros _. simpl.
    rewrite file_exists_print. apply file_exists_store.
Qed.

(** Success is reported exactly when the file was there or the whole
    body was written. *)
Lemma download_image_true_iff url dest w :
  (download_image E url dest w).1 = Done true ↔
  file_exists dest w = true
  ∨ exists_error E dest = None
    ∧ ∃ content, urlopen E (length (requests w)) url = Body content
                 ∧ disk E (length (requests w)) dest = Written.
Proof.
  unfold download_image. destruct (file_exists dest w) eqn:Hex; [naive_solver|].
  destruct (exists_error E dest); [naive_solver|].
  destruct (urlopen E _ url) as [e|e|content]; [naive_solver| |].
  - destruct (disk E _ dest); naive_solver.
  - destruct (disk E _ dest) eqn:Hd; simpl; naive_solver.
Qed.

(** The attempt of a download, when the destination is not there and the
    existence check went through. *)
Lemma download_image_attempt url dest w :
  file_exists dest w = false → exists_error E dest = None →
  let n := length (requests w) in
  download_image E url dest w =
    match download_error E n url dest with
    | Some cause =>
        (Done false,
         print (download_failed url cause)
           (match partial_file E n url dest with
            | Some part => store dest part (request url w)
            | None => request url w
            end))
    | None =>
        (Done true,
         print (lit "  Downloaded: " ++ path_name dest)
           (store dest (match urlopen E n url with Body content => content | _ => [] end)
              (request url w)))
    end.
Proof.
  intros Hex He. unfold download_image, download_error, partial_file.
  rewrite Hex, He. cbv zeta.
  destruct (urlopen E _ url) as [e|e|content]; [done| |];
    by destruct (disk E _ dest).
Qed.

(** A failure is reported exactly when an error was caught. *)
Lemma download_image_false_iff url dest w :
  (download_image E url dest w).1 = Done false ↔
  file_exists dest w = false ∧ exists_error E dest = None
  ∧ download_error E (length (requests w)) url dest ≠ None.
Proof.
  destruct (file_exists dest w) eqn:Hex.
  { rewrite download_image_exists by done. naive_solver. }
  destruct (exists_error E dest) as [e|] eqn:He.
  { rewrite (download_image_raises _ _ _ e) by done. naive_solver. }
  rewrite download_image_attempt by done. cbv zeta.
  destruct (download_error E _ url dest); naive_solver.
Qed.

End Download.

(** ** The claims *)


(** C2 (as the code has it).  The price is the number of the first
    currency-marked numeric token: the dots are removed, the comma becomes
    the decimal point and the result is parsed.  A text without a euro sign
    has no price; a text whose first euro sign is followed by
    [ 1.250,50] and then by no further digit, dot or comma has the price
    1250.50; a token that does not parse gives the price 0 (an int), not an
    absent price. *)
Theorem extract_price_spec {U : UnicodeDB} :
  (∀ html, extract_price html = price_number <$> price_token html)
  ∧ (∀ html, euro ∉ html → extract_price html = None)
  ∧ (∀ pre post,
       euro ∉ pre →
       (∀ c, head post = Some c → price_char c = false) →
       extract_price (pre ++ euro :: lit " 1.250,50" ++ post)
       = Some (PyFloat (2501 # 2)))
  ∧ (∀ html tok,
       price_token html = Some tok →
       py_float (replace_char comma [dot] (replace_char dot [] tok)) = None →
       extract_price html = Some (PyInt 0)).
Proof.
  split_and!.
  - apply extract_price_eq.
  - intros html Hno. by rewrite extract_price_eq, price_token_no_euro.
  - intros pre post Hpre Hpost. rewrite extract_price_eq.
    assert (token_after (lit " 1.250,50" ++ post) = lit "1.250,50") as Htok.
    { unfold token_after.
      change (drop_while is_space (lit " 1.250,50" ++ post))
        with (lit "1.250,50" ++ post).
      apply take_while_app_stop.
      - repeat constructor.
      - destruct post as [|c post]; [done|]. simpl. by rewrite (Hpost c). }
    rewrite price_token_first by (by rewrite ?Htok). by rewrite Htok.
  - intros html tok Htok Hbad. rewrite extract_price_eq, Htok. simpl.
    unfold price_number. by rewrite Hbad.
Qed.

Lemma extract_price_spec_witness :
  extract_price (U := udb_plain) (lit "Prijs op aanvraag") = None
  ∧ extract_price (U := udb_plain)
      (lit "<b>" ++ euro :: lit " 1.250,50" ++ lit "</b>")
    = Some (PyFloat (2501 # 2))
  ∧ extract_price (U := udb_plain) (euro :: lit " 1,2,3") = Some (PyInt 0).
Proof.
  destruct (extract_price_spec (U := udb_plain)) as (_ & Hnone & Hprice & Hzero).
  split_and!.
  - apply Hnone. apply (bool_decide_unpack _). vm_compute. exact I.
  - apply (Hprice (lit "<b>") (lit "</b>")).
    + apply (bool_decide_unpack _). vm_compute. exact I.
    + intros c [= <-]. reflexivity.
  - apply (Hzero _ (lit "1,2,3")); reflexivity.
Defined.

(** C2, the counterexample: the token [1,2,3] after a euro sign does not
    parse, and the price is the int 0, not absent. *)
Lemma extract_price_unparsable_is_zero :
  price_token (U := udb_plain) (euro :: lit " 1,2,3") = Some (lit "1,2,3")
  ∧ py_float (U := udb_plain) (lit "1.2.3") = None
  ∧ extract_price (U := udb_plain) (euro :: lit " 1,2,3") = Some (PyInt 0)
  ∧ extract_price (U := udb_plain) (euro :: lit " 1,2,3") ≠ None.
Proof. vm_compute. done. Qed.

(** C3.  The two examples of the specification hold, but the extension is
    stripped with [rstrip], which removes every trailing character among
    [.], [h], [t], [m] and [l]: a name that ends in one of these letters
    loses them too. *)
Theorem extract_titles_examples {U : UnicodeDB} :
  extract_titles (lit "/webshop/detail/12/de-kloof--the-gap.html")
  = (lit "De Kloof", lit "The Gap")
  ∧ extract_titles (lit "/webshop/detail/12/de-kloof.html")
    = (lit "De Kloof", lit "De Kloof")
  ∧ extract_titles (lit "/webshop/detail/8/de-nacht--the-night.html")
    = (lit "De Nacht", lit "The Nig")
  ∧ extract_titles (lit "/webshop/detail/9/stil.html") = (lit "Sti", lit "Sti").
Proof. vm_compute. done. Qed.

Lemma nub_abac (a b c : str) :
  a ≠ b → a ≠ c → b ≠ c → nub [a; b; a; c] = [a; b; c].
Proof.
  intros Hab Hac Hbc. cbn [nub].
  repeat (rewrite ?filter_nil;
          first [rewrite filter_cons_True by congruence
                |rewrite filter_cons_False by (intros ?; congruence)]).
  by rewrite filter_nil.
Qed.

(** C4.  The images are the upload-path URLs in document order, without
    the repetitions, and an og:image URL that is not among them comes
    first: for the occurrences [A, B, A, C] the list is [A, B, C], and
    [P, A, B, C] when the page also names a primary image [P] that is
    neither A, B nor C. *)
Theorem extract_images_dedup_primary_first (html : str) :
  NoDup (extract_images html)
  ∧ (re_search og_re html = None →
     extract_images html = nub (re_findall image_re html))
  ∧ (∀ P, re_search og_re html = Some P → P ∉ re_findall image_re html →
     extract_images html = P :: nub (re_findall image_re html))
  ∧ (∀ A B C, A ≠ B → A ≠ C → B ≠ C →
     re_findall image_re html = [A; B; A; C] →
     (re_search og_re html = None → extract_images html = [A; B; C])
     ∧ (∀ P, re_search og_re html = Some P → P ∉ [A; B; C] →
        extract_images html = [P; A; B; C])).
Proof.
  split_and!.
  - apply extract_images_NoDup.
  - intros Hog. by rewrite extract_images_eq, Hog.
  - intros P Hog HP. rewrite extract_images_eq, Hog. cbn zeta.
    rewrite bool_decide_eq_false_2; [done|]. by rewrite elem_of_nub.
  - intros A B C Hab Hac Hbc Hfound. rewrite extract_images_eq, Hfound.
    rewrite nub_abac by done. cbn zeta. split.
    + by intros ->.
    + intros P -> HP. by rewrite bool_decide_eq_false_2.
Qed.

Lemma extract_images_dedup_primary_first_witness :
  extract_images gallery_page
  = [lit "/data/upload/Shop/images/a.jpg"; lit "/data/upload/Shop/images/b.jpg";
     lit "/data/upload/Shop/images/c.jpg"]
  ∧ extract_images (og_tag "/media/p.jpg" ++ gallery_page)
    = [lit "/media/p.jpg"; lit "/data/upload/Shop/images/a.jpg";
       lit "/data/upload/Shop/images/b.jpg"; lit "/data/upload/Shop/images/c.jpg"].
Proof.
  split.
  - destruct (extract_images_dedup_primary_first gallery_page)
      as (_ & _ & _ & Habac).
    apply (Habac (lit "/data/upload/Shop/images/a.jpg")
                 (lit "/data/upload/Shop/images/b.jpg")
                 (lit "/data/upload/Shop/images/c.jpg")); try reflexivity;
      intros [=].
  - destruct (extract_images_dedup_primary_first
                (og_tag "/media/p.jpg" ++ gallery_page)) as (_ & _ & _ & Habac).
    apply (Habac (lit "/data/upload/Shop/images/a.jpg")
                 (lit "/data/upload/Shop/images/b.jpg")
                 (lit "/data/upload/Shop/images/c.jpg")); try reflexivity;
      try (intros [=]).
    apply (bool_decide_unpack _). vm_compute. exact I.
Defined.

(** C10.  When the og:image URL is already in the list, behind the first
    element, the list stays as it is: the primary image is the first
    upload-path URL of the document, not the og:image. *)
Theorem extract_images_og_already_listed (html og : str) (i : nat) :
  re_search og_re html = Some og →
  dict_fromkeys (re_findall image_re html) !! S i = Some og →
  extract_images html = dict_fromkeys (re_findall image_re html)
  ∧ head (extract_images html) = head (re_findall image_re html)
  ∧ head (extract_images html) ≠ Some og.
Proof.
  intros Hog Hi. unfold extract_images. rewrite Hog.
  rewrite bool_decide_eq_true_2 by (by eapply list_elem_of_lookup_2).
  split_and!; [done|by rewrite dict_fromkeys_nub, head_nub|].
  rewrite dict_fromkeys_nub in *. intros Hhead.
  pose proof (NoDup_nub (re_findall image_re html)) as Hnd.
  rewrite head_lookup in Hhead.
  by pose proof (NoDup_lookup _ _ _ _ Hnd Hhead Hi).
Qed.

Lemma extract_images_og_already_listed_witness :
  extract_images
    (og_tag "/data/upload/Shop/images/c.jpg" ++ gallery_page)
  = dict_fromkeys (re_findall image_re
                     (og_tag "/data/upload/Shop/images/c.jpg" ++ gallery_page))
  ∧ head (extract_images
            (og_tag "/data/upload/Shop/images/c.jpg" ++ gallery_page))
    = Some (lit "/data/upload/Shop/images/a.jpg").
Proof.
  destruct (extract_images_og_already_listed
              (og_tag "/data/upload/Shop/images/c.jpg" ++ gallery_page)
              (lit "/data/upload/Shop/images/c.jpg") 1) as (Heq & Hhead & _);
    [reflexivity..|].
  split; [exact Heq|]. rewrite Hhead. reflexivity.
Defined.

(** C9.  On a page that the tokenizer reads to the end and where every
    [href] of an anchor has a value, the extractor returns the hrefs of the
    anchors that contain [/detail/] and end in [.html], each once, in the
    order of their first occurrence; two such links around one that does
    not qualify come back as exactly these two, in document order.  But an
    anchor whose [href] has no value makes the extractor raise a
    [TypeError], whatever links the page has: the default of [get] covers
    a missing [href], not one without a value. *)
Theorem extract_links_spec (E : Env) (html : str) :
  let hrefs := omap anchor_href (start_tags E html) in
  let links := nub (List.filter is_detail_link hrefs) in
  (parse_error E html = None →
   Forall (λ t, ¬ bare_href t) (start_tags E html) →
   extract_links E html = Done links
   ∧ NoDup links
   ∧ (∀ href, href ∈ links ↔
        href ∈ hrefs ∧ contains (lit "/detail/") href = true
                     ∧ endswith (lit ".html") href = true)
   ∧ (∀ a b c, hrefs = [a; c; b] → a ≠ b →
        is_detail_link a = true → is_detail_link b = true →
        is_detail_link c = false → extract_links E html = Done [a; b]))
  ∧ (Exists bare_href (start_tags E html) →
     extract_links E html = Raised (lit "TypeError")).
Proof.
  intros hrefs links. split.
  - intros Hparse Hok.
    assert (extract_links E html = Done links) as Heq.
    { unfold extract_links. rewrite feed_tags_append_new by done.
      by rewrite append_new_nil, Hparse. }
    split_and!; [done|apply NoDup_nub| |].
    + intros href. unfold links. rewrite elem_of_nub, list_elem_of_In, filter_In.
      rewrite <- list_elem_of_In. unfold is_detail_link. by rewrite andb_true_iff.
    + intros a b c Hhrefs Hab Ha Hb Hc. rewrite Heq. unfold links. rewrite Hhrefs.
      cbn [List.filter]. rewrite Ha, Hb, Hc. cbn [nub].
      rewrite filter_cons_True by congruence. by rewrite !filter_nil.
  - intros Hbad. unfold extract_links. by rewrite feed_tags_raises.
Qed.

Lemma extract_links_spec_witness :
  extract_links three_anchors listing_page
  = Done [lit "/abstract/detail/12/de-kloof.html";
          lit "/abstract/detail/15/stilte.html"].
Proof.
  assert (Forall (λ t, ¬ bare_href t) (start_tags three_anchors listing_page)) as Hok.
  { repeat constructor; intros [_ Hbare]; vm_compute in Hbare; discriminate. }
  destruct (extract_links_spec three_anchors listing_page) as [Hgood _].
  destruct (Hgood eq_refl Hok) as (_ & _ & _ & Hex).
  apply (Hex _ _ (lit "/abstract/over-sander.html")); try reflexivity.
  intros [=].
Defined.

(** C9, the failing input: two detail links around an anchor whose [href]
    has no value.  The extractor raises instead of returning the two
    links. *)
Lemma extract_links_raises_on_bare_href :
  extract_links bare_anchor listing_page = Raised (lit "TypeError")
  ∧ List.filter is_detail_link
      (omap anchor_href
         (List.filter (λ t, negb (bool_decide (bare_href t)))
            (start_tags bare_anchor listing_page)))
    = [lit "/abstract/detail/12/de-kloof.html";
       lit "/abstract/detail/15/stilte.html"].
Proof. vm_compute. done. Qed.

(** C5 (as the code has it).  [slugify] is a function of the title; the
    slug neither starts nor ends with a hyphen and has no two hyphens in a
    row; its characters are hyphens and word characters other than the
    underscore; it is non-empty exactly when the lower-cased title has such
    a word character.  For an ASCII title the characters are lower-case
    letters, digits and hyphens, and the slug is non-empty exactly when the
    title has a letter or a digit. *)
Theorem slugify_spec {U : UnicodeDB} (title : str) :
  (∀ title', title' = title → slugify title' = slugify title)
  ∧ startswith [hyphen] (slugify title) = false
  ∧ endswith [hyphen] (slugify title) = false
  ∧ contains (lit "--") (slugify title) = false
  ∧ Forall (λ c, c = hyphen ∨ slug_core c = true) (slugify title)
  ∧ (slugify title ≠ [] ↔ Exists (λ c, slug_core c = true) (py_lower title))
  ∧ (Forall (λ c, is_ascii c = true) title →
     Forall (λ c, slug_char c = true) (slugify title)
     ∧ (slugify title ≠ [] ↔ Exists (λ c, ascii_alnum c = true) title)).
Proof.
  split_and!.
  - by intros ? ->.
  - apply slugify_no_leading_hyphen.
  - apply slugify_no_trailing_hyphen.
  - apply slugify_no_double_hyphen.
  - rewrite Forall_forall. intros c [->|[_ ?]]%slugify_elem; eauto.
  - apply slugify_nonempty.
  - apply slugify_ascii.
Qed.

Lemma slugify_spec_witness :
  Forall (λ c, is_ascii c = true) (lit "De Kloof")
  ∧ Forall (λ c, slug_char c = true) (slugify (U := udb_plain) (lit "De Kloof"))
  ∧ slugify (U := udb_plain) (lit "De Kloof") ≠ [].
Proof.
  assert (Forall (λ c, is_ascii c = true) (lit "De Kloof")) as Hascii
    by (repeat constructor).
  destruct (slugify_spec (U := udb_plain) (lit "De Kloof"))
    as (_ & _ & _ & _ & _ & _ & Hslug).
  destruct (Hslug Hascii) as [Hchars Hne].
  split_and!; [exact Hascii|exact Hchars|].
  apply Hne. apply Exists_cons_hd. reflexivity.
Defined.

(** C5, the counterexample: a title without a letter or a digit has the
    empty slug. *)
Lemma slugify_empty :
  slugify (U := udb_plain) (lit "???") = []
  ∧ slugify (U := udb_plain) [] = []
  ∧ slugify (U := udb_plain) (lit " _ - ") = [].
Proof. vm_compute. done. Qed.

(** ** The downloader *)

Lemma download_image_requests (E : Env) url dest w :
  file_exists dest w = false →
  (download_image E url dest w).1 = Done true →
  requests (download_image E url dest w).2 = requests w ++ [url].
Proof.
  intros Hex. unfold download_image. rewrite Hex.
  destruct (exists_error E dest); [done|].
  destruct (urlopen E _ url); [done| |]; by destruct (disk E _ dest).
Qed.

(** C6 (as the code has it).  The downloader reports a failure exactly
    when the destination is not there, the existence check went through
    and the attempt ran into an error; it then has printed the cause on
    one line.  An error before the write (the request, [mkdir], the read,
    the opening of the file) leaves the files as they were, with nothing
    at the destination.  A write that fails midway leaves what was written
    so far at the destination, and the next call takes it for the image:
    it succeeds at once.  What the existence check itself raises is not
    caught: it leaves the downloader, and the world is as it was. *)
Theorem download_image_failure (E : Env) (url dest : str) (w : World) :
  let n := length (requests w) in
  let r := download_image E url dest w in
  (r.1 = Done false ↔
     file_exists dest w = false ∧ exists_error E dest = None
     ∧ download_error E n url dest ≠ None)
  ∧ (∀ cause,
       r.1 = Done false → download_error E n url dest = Some cause →
       match partial_file E n url dest with
       | None =>
           r.2 = print (download_failed url cause) (request url w)
           ∧ files r.2 = files w ∧ file_exists dest r.2 = false
       | Some part =>
           r.2 = print (download_failed url cause)
                   (store dest part (request url w))
           ∧ files r.2 !! dest = Some part
           ∧ download_image E url dest r.2
             = (Done true,
                print (lit "  Image already exists: " ++ path_name dest) r.2)
       end)
  ∧ (∀ e, file_exists dest w = false → exists_error E dest = Some e →
          r = (Raised e, w))
  ∧ (∀ content written e,
       file_exists dest w = false → exists_error E dest = None →
       urlopen E n url = Body content →
       disk E n dest = WriteError written e →
       r = (Done false,
            print (download_failed url e)
              (store dest (take written content) (request url w)))).
Proof.
  intros n r. split_and!.
  - apply download_image_false_iff.
  - intros cause Hfalse Hcause.
    apply download_image_false_iff in Hfalse as (Hex & He & _).
    unfold r. rewrite download_image_attempt by done. cbv zeta.
    fold n. rewrite Hcause.
    destruct (partial_file E n url dest) as [part|]; cbn [snd].
    + split_and!; [done|apply lookup_insert_eq|].
      apply download_image_exists. rewrite file_exists_print.
      apply file_exists_store.
    + split_and!; [done|done|].
      by rewrite file_exists_print, file_exists_request.
  - intros e Hex He. by apply download_image_raises.
  - intros content written e Hex He Hbody Hdisk.
    unfold r, download_image. rewrite Hex, He. fold n. cbv zeta.
    by rewrite Hbody, Hdisk.
Qed.

Lemma download_image_failure_witness :
  download_image image_missing kloof_url kloof_jpg new_world
  = (Done false,
     {| requests := [kloof_url]; files := ∅;
        stdout := [lit "  Failed to download " ++ kloof_url
                   ++ lit ": HTTP Error 404: Not Found"];
        naps := [] |})
  ∧ file_exists kloof_jpg
      (download_image image_missing kloof_url kloof_jpg new_world).2 = false.
Proof.
  destruct (download_image_failure image_missing kloof_url kloof_jpg new_world)
    as (_ & Hfailed & _).
  specialize (Hfailed (lit "HTTP Error 404: Not Found") eq_refl eq_refl).
  change (partial_file image_missing (length (requests new_world)) kloof_url kloof_jpg)
    with (@None (list N)) in Hfailed.
  destruct Hfailed as (Hworld & _ & Hgone). split; [|exact Hgone].
  rewrite (surjective_pairing (download_image _ _ _ _)), Hworld. reflexivity.
Defined.

(** C6, the counterexample: the disk fills up after two octets.  The
    download is reported as failed, the two octets stay at the
    destination, and the next call takes them for the image: it succeeds
    without a request. *)
Lemma download_image_leaves_partial_file :
  let r := download_image disk_full kloof_url kloof_jpg new_world in
  r.1 = Done false
  ∧ files r.2 !! kloof_jpg = Some [255; 216]
  ∧ file_exists kloof_jpg r.2 = true
  ∧ (download_image disk_full kloof_url kloof_jpg r.2).1 = Done true
  ∧ requests (download_image disk_full kloof_url kloof_jpg r.2).2 = [kloof_url].
Proof. vm_compute. done. Qed.

(** C7.  With a file at the destination the downloader succeeds at once,
    without a request and without touching the files.  Hence, from a
    destination that is not there yet, a download that succeeds followed
    by a second call makes one request in all, and the second call is a
    success that changes no file. *)
Theorem download_image_idempotent (E : Env) (url dest : str) (w : World) :
  (file_exists dest w = true →
   download_image E url dest w
   = (Done true, print (lit "  Image already exists: " ++ path_name dest) w))
  ∧ (file_exists dest w = false →
     (download_image E url dest w).1 = Done true →
     let w1 := (download_image E url dest w).2 in
     let second := download_image E url dest w1 in
     requests w1 = requests w ++ [url]
     ∧ second.1 = Done true
     ∧ requests second.2 = requests w ++ [url]
     ∧ files second.2 = files w1).
Proof.
  split; [apply download_image_exists|].
  intros Hex Hok w1 second.
  pose proof (download_image_true E url dest w Hok) as Hthere.
  pose proof (download_image_requests E url dest w Hex Hok) as Hreq.
  unfold second. rewrite (download_image_exists E url dest w1 Hthere).
  by split_and!.
Qed.

Lemma download_image_idempotent_witness :
  file_exists kloof_jpg new_world = false
  ∧ (download_image shop_up kloof_url kloof_jpg new_world).1 = Done true
  ∧ requests (download_image shop_up kloof_url kloof_jpg
                (download_image shop_up kloof_url kloof_jpg new_world).2).2
    = [kloof_url].
Proof.
  assert (file_exists kloof_jpg new_world = false) as Hex by reflexivity.
  assert ((download_image shop_up kloof_url kloof_jpg new_world).1 = Done true)
    as Hok by reflexivity.
  split_and!; [exact Hex|exact Hok|].
  destruct (download_image_idempotent shop_up kloof_url kloof_jpg new_world)
    as [_ Htwice].
  destruct (Htwice Hex Hok) as (_ & _ & Hreq & _). exact Hreq.
Defined.

(** ** The fetcher *)

(** C8.  Against an endpoint where every request fails, a fetch with 3
    attempts makes exactly 3 requests, prints a line with the number and
    the cause of each failed attempt, sleeps between the attempts and
    returns the failure signal.  In general a fetch returns the failure
    signal only when each of its attempts was made and failed, and a text
    it returns is the decoded body of a response. *)
Theorem fetch_retry_exhaustion (E : Env) (url : str) (w : World) :
  ((∀ n, failure (urlopen E n url) ≠ None) →
   let n := length (requests w) in
   let cause i := default [] (failure (urlopen E i url)) in
   fetch E url 3 w =
     (None,
      {| requests := requests w ++ [url; url; url];
         files := files w;
         stdout := stdout w ++
           [ lit "  Attempt 1 failed for " ++ url ++ lit ": " ++ cause n;
             lit "  Attempt 2 failed for " ++ url ++ lit ": " ++ cause (S n);
             lit "  Attempt 3 failed for " ++ url ++ lit ": " ++ cause (S (S n)) ];
         naps := naps w ++ [2000; 2000] |}))
  ∧ (∀ retries,
       (fetch E url retries w).1 = None →
       requests (fetch E url retries w).2
       = requests w ++ replicate (Z.to_nat retries) url
       ∧ ∀ i, (i < Z.to_nat retries)%nat →
              failure (urlopen E (length (requests w) + i) url) ≠ None)
  ∧ (∀ retries text,
       (fetch E url retries w).1 = Some text →
       ∃ i content, (i < Z.to_nat retries)%nat
         ∧ urlopen E (length (requests w) + i) url = Body content
         ∧ text = utf8_replace E content).
Proof.
  split_and!.
  - intros Hfail n cause. unfold fetch. change (Z.to_nat 3) with 3%nat.
    rewrite (fetch_from_all_fail E url 3 3 Hfail 0%Z w) by done. reflexivity.
  - intros retries. apply fetch_from_None.
  - intros retries text Hsome.
    apply fetch_from_Some in Hsome as (i & content & ? & ? & ? & _). eauto.
Qed.

Lemma fetch_retry_exhaustion_witness :
  fetch offline kloof_url 3 new_world =
    (None,
     {| requests := [kloof_url; kloof_url; kloof_url];
        files := ∅;
        stdout :=
          [ lit "  Attempt 1 failed for " ++ kloof_url ++ lit ": timed out";
            lit "  Attempt 2 failed for " ++ kloof_url ++ lit ": timed out";
            lit "  Attempt 3 failed for " ++ kloof_url ++ lit ": timed out" ];
        naps := [2000; 2000] |}).
Proof.
  destruct (fetch_retry_exhaustion offline kloof_url new_world) as [Hfail _].
  apply Hfail. intros n. discriminate.
Defined.

(** ** The manifest *)

Section Manifest.
Context {U : UnicodeDB} (E : Env).


















End Manifest.



(** ** More on fetch and download_image *)

Section FetchEffects.
Context (E : Env).

Lemma fetch_from_recovers (url : str) (retries : Z) (content : bytes) (k : nat) :
  ∀ (todo : nat) (attempt : Z) (w : World),
  (k < todo)%nat →
  (attempt + Z.of_nat todo = retries)%Z →
  (∀ i, (i < k)%nat → failure (urlopen E (length (requests w) + i) url) ≠ None) →
  urlopen E (length (requests w) + k) url = Body content →
  fetch_from E url retries attempt todo w =
    (Some (utf8_replace E content),
     {| requests := requests w ++ replicate (S k) url;
        files := files w;
        stdout := stdout w ++ failed_attempts E url attempt (length (requests w)) k;
        naps := naps w ++ replicate k 2000 |}).
Proof.
  induction k as [|k IH]; intros [|todo] attempt w Hk Hinv Hfail Hbody; try lia.
  - cbn [fetch_from]. rewrite Nat.add_0_r in Hbody. rewrite Hbody.
    destruct w; simpl. by rewrite !app_nil_r.
  - cbn [fetch_from failed_attempts].
    pose proof (Hfail 0%nat ltac:(lia)) as H0. rewrite Nat.add_0_r in H0.
    assert (∀ e, failure (urlopen E (length (requests w)) url) = Some e →
      fetch_from E url retries (attempt + 1) todo
        (let w0 := print (attempt_failed attempt url e) (request url w) in
         if (attempt <? retries - 1)%Z then sleep 2000 w0 else w0) =
      (Some (utf8_replace E content),
       {| requests := requests w ++ replicate (S (S k)) url;
          files := files w;
          stdout := stdout w ++ attempt_failed attempt url e
                      :: failed_attempts E url (attempt + 1) (S (length (requests w))) k;
          naps := naps w ++ replicate (S k) 2000 |})) as Hstep.
    { intros e _. cbn zeta.
      destruct (Z.ltb_spec attempt (retries - 1)); [|lia].
      rewrite (IH todo (attempt + 1)%Z); [|lia|lia|..].
      - simpl. rewrite <- !app_assoc, length_app. simpl. by rewrite Nat.add_1_r.
      - intros i Hi. simpl. rewrite length_app. simpl.
        replace (length (requests w) + 1 + i)%nat
          with (length (requests w) + S i)%nat by lia.
        apply Hfail. lia.
      - simpl. rewrite length_app. simpl.
        by replace (length (requests w) + 1 + k)%nat
             with (length (requests w) + S k)%nat by lia. }
    destruct (urlopen E (length (requests w)) url) as [e|e|body]; simpl in *;
      [by apply Hstep|by apply Hstep|done].
Qed.

Lemma fetch_from_effects (url : str) (retries : Z) (todo : nat) :
  ∀ (attempt : Z) (w : World),
  (todo ≠ 0%nat → attempt + Z.of_nat todo = retries)%Z →
  let r := fetch_from E url retries attempt todo w in
  ∃ n : nat,
    (n ≤ todo)%nat
    ∧ (r.1 = None → n = todo)
    ∧ (is_Some r.1 → (0 < n)%nat)
    ∧ requests r.2 = requests w ++ replicate n url
    ∧ files r.2 = files w
    ∧ let failed := match r.1 with Some _ => (n - 1)%nat | None => n end in
      stdout r.2 = stdout w ++ failed_attempts E url attempt (length (requests w)) failed
      ∧ naps r.2 = naps w ++ replicate (failed `min` (todo - 1)) 2000.
Proof.
  induction todo as [|todo IH]; intros attempt w Hinv.
  { exists 0%nat. simpl. rewrite !app_nil_r. by split_and!. }
  specialize (Hinv ltac:(done)). cbn [fetch_from]. cbv zeta.
  assert (∀ e,
    let r := fetch_from E url retries (attempt + 1) todo
               (let w0 := print (attempt_failed attempt url e) (request url w) in
                if (attempt <? retries - 1)%Z then sleep 2000 w0 else w0) in
    failure (urlopen E (length (requests w)) url) = Some e →
    ∃ n : nat,
      (n ≤ S todo)%nat
      ∧ (r.1 = None → n = S todo)
      ∧ (is_Some r.1 → (0 < n)%nat)
      ∧ requests r.2 = requests w ++ replicate n url
      ∧ files r.2 = files w
      ∧ let failed := match r.1 with Some _ => (n - 1)%nat | None => n end in
        stdout r.2 = stdout w
          ++ failed_attempts E url attempt (length (requests w)) failed
        ∧ naps r.2 = naps w ++ replicate (failed `min` (S todo - 1)) 2000) as Hstep.
  { intros e r He. subst r.
    set (w1 := let w0 := print (attempt_failed attempt url e) (request url w) in
               if (attempt <? retries - 1)%Z then sleep 2000 w0 else w0).
    destruct (IH (attempt + 1)%Z w1 ltac:(lia))
      as (n & Hn & Hnone & Hsome & Hreq & Hfiles & Hout & Hnaps).
    assert (requests w1 = requests w ++ [url] ∧ files w1 = files w
            ∧ stdout w1 = stdout w ++ [attempt_failed attempt url e]
            ∧ naps w1 = naps w ++ replicate (if decide (todo = 0%nat) then 0 else 1)%nat 2000)
      as (Hr1 & Hf1 & Ho1 & Hn1).
    { unfold w1. cbv zeta. destruct (Z.ltb_spec attempt (retries - 1));
        destruct (decide (todo = 0%nat)); try lia; simpl; by rewrite ?app_nil_r. }
    exists (S n). split_and!; [lia|intros ?; f_equal; auto|lia| | |].
    - rewrite Hreq, Hr1, <- app_assoc. done.
    - congruence.
    - cbv zeta in *. rewrite Hr1, length_app in Hout. simpl in Hout.
      rewrite Nat.add_1_r in Hout.
      destruct (fetch_from E url retries (attempt + 1) todo w1).1 as [text|] eqn:Hres.
      + pose proof (Hsome ltac:(eauto)) as Hpos.
        replace (S n - 1)%nat with (S (n - 1)) by lia.
        cbn [failed_attempts]. rewrite He. cbn [default].
        rewrite Hout, Ho1, <- app_assoc. split; [done|].
        rewrite Hnaps, Hn1, <- app_assoc, <- replicate_add. do 2 f_equal.
        destruct (decide (todo = 0%nat)); lia.
      + cbn [failed_attempts]. rewrite He. cbn [default].
        rewrite Hout, Ho1, <- app_assoc. split; [done|].
        rewrite Hnaps, Hn1, <- app_assoc, <- replicate_add. do 2 f_equal.
        specialize (Hnone eq_refl). destruct (decide (todo = 0%nat)); lia. }
  destruct (urlopen E (length (requests w)) url) as [e|e|body] eqn:Hopen.
  1, 2: by apply (Hstep e).
  exists 1%nat. simpl. rewrite !app_nil_r. split_and!; try done; lia.
Qed.

End FetchEffects.

(** X1.  When the first [k] requests fail and the next one brings a body,
    with [k] below the number of attempts, [fetch] returns the decoded
    body after [k + 1] requests of the URL, [k] printed failures and [k]
    naps of two seconds; no file is touched. *)
Theorem fetch_recovers (E : Env) (url : str) (retries : Z) (k : nat)
    (content : bytes) (w : World) :
  (Z.of_nat k < retries)%Z →
  (∀ i, (i < k)%nat → failure (urlopen E (length (requests w) + i) url) ≠ None) →
  urlopen E (length (requests w) + k) url = Body content →
  fetch E url retries w =
    (Some (utf8_replace E content),
     {| requests := requests w ++ replicate (S k) url;
        files := files w;
        stdout := stdout w ++ failed_attempts E url 0 (length (requests w)) k;
        naps := naps w ++ replicate k 2000 |}).
Proof.
  intros Hk Hfail Hbody. unfold fetch.
  apply fetch_from_recovers; [lia|lia|done|done].
Qed.

(** X2.  What a call of [fetch] does to the world, whatever becomes of
    its attempts: at most [retries] attempts, each logged with the URL
    (also one that failed before anything was sent), and all [retries] of
    them when the result is the failure signal; one printed line per failed
    attempt; a nap of two seconds after each failed attempt but the last
    possible one; no file touched. *)
Theorem fetch_effects (E : Env) (url : str) (retries : Z) (w : World) :
  let r := fetch E url retries w in
  ∃ n : nat,
    (n ≤ Z.to_nat retries)%nat
    ∧ (r.1 = None → n = Z.to_nat retries)
    ∧ requests r.2 = requests w ++ replicate n url
    ∧ files r.2 = files w
    ∧ let failed := match r.1 with Some _ => (n - 1)%nat | None => n end in
      stdout r.2 = stdout w ++ failed_attempts E url 0 (length (requests w)) failed
      ∧ naps r.2 = naps w ++ replicate (failed `min` (Z.to_nat retries - 1)) 2000.
Proof.
  unfold fetch.
  destruct (fetch_from_effects E url retries (Z.to_nat retries) 0 w)
    as (n & Hn & Hnone & _ & Hreq & Hfiles & Hrest); [lia|].
  exists n. split; [exact Hn|]. split; [exact Hnone|]. split; [exact Hreq|].
  split; [exact Hfiles|exact Hrest].
Qed.

Lemma fetch_recovers_witness :
  fetch flaky kloof_url 3 new_world =
    (Some [104; 105],
     {| requests := [kloof_url; kloof_url; kloof_url];
        files := ∅;
        stdout :=
          [ lit "  Attempt 1 failed for " ++ kloof_url ++ lit ": timed out";
            lit "  Attempt 2 failed for " ++ kloof_url ++ lit ": timed out" ];
        naps := [2000; 2000] |}).
Proof.
  apply (fetch_recovers flaky kloof_url 3 2 [104; 105] new_world).
  - lia.
  - intros [|[|i]] Hi; [discriminate|discriminate|lia].
  - reflexivity.
Defined.

Section DownloadEffects.
Context (E : Env).

Lemma download_image_other_files (url dest path : str) (w : World) :
  path ≠ dest →
  files (download_image E url dest w).2 !! path = files w !! path.
Proof.
  intros Hne. unfold download_image. destruct (file_exists dest w); [done|].
  destruct (exists_error E dest); [done|].
  destruct (urlopen E _ url); [| |];
    try destruct (disk E _ dest); simpl; by rewrite ?lookup_insert_ne.
Qed.

Lemma download_image_stored (url dest : str) (w : World) :
  file_exists dest w = false →
  (download_image E url dest w).1 = Done true →
  ∃ content, urlopen E (length (requests w)) url = Body content
             ∧ files (download_image E url dest w).2 = <[dest := content]> (files w).
Proof.
  unfold download_image. intros ->. destruct (exists_error E dest); [done|].
  destruct (urlopen E _ url) as [e|e|content]; [done| |].
  - by destruct (disk E _ dest).
  - destruct (disk E _ dest); try done. eauto.
Qed.

Lemma download_image_keeps (url dest : str) (w : World) :
  file_exists dest w = true → files (download_image E url dest w).2 = files w.
Proof. intros Hex. by rewrite download_image_exists. Qed.

End DownloadEffects.

(** X3.  A call of [download_image] touches no file but the destination
    and never sleeps.  When it returns, it has made at most one attempt to
    request the URL it was given (there is no retry) and has printed
    exactly one line.  When the existence check raises, the world is as it
    was: nothing requested, printed or written. *)
Theorem download_image_frame (E : Env) (url dest : str) (w : World) :
  let r := download_image E url dest w in
  (∀ path, path ≠ dest → files r.2 !! path = files w !! path)
  ∧ naps r.2 = naps w
  ∧ match r.1 with
    | Done _ =>
        (requests r.2 = requests w ∨ requests r.2 = requests w ++ [url])
        ∧ ∃ line, stdout r.2 = stdout w ++ [line]
    | Raised _ => r.2 = w
    end.
Proof.
  cbv zeta. split; [intros path; apply download_image_other_files|].
  unfold download_image. destruct (file_exists dest w).
  { simpl. split_and!; [done|by left|by eauto]. }
  destruct (exists_error E dest); [by split|].
  destruct (urlopen E _ url); [| |];
    try destruct (disk E _ dest); simpl;
    (split_and!; [done|by right|by eauto]).
Qed.

(** X4.  What is at the destination after a success.  A file that was
    there is left as it was, whatever the server would have sent; a file
    that was not there holds exactly the body of the response. *)
Theorem download_image_content (E : Env) (url dest : str) (w : World) :
  (download_image E url dest w).1 = Done true →
  let w' := (download_image E url dest w).2 in
  match files w !! dest with
  | Some old => files w' = files w
  | None => ∃ content, urlopen E (length (requests w)) url = Body content
                       ∧ files w' !! dest = Some content
  end.
Proof.
  intros Hok w'. destruct (files w !! dest) as [old|] eqn:Hdest.
  - apply download_image_keeps. apply bool_decide_eq_true_2. rewrite Hdest. eauto.
  - destruct (download_image_stored E url dest w) as (content & Hbody & Hfiles);
      [|done|].
    + apply bool_decide_eq_false_2. rewrite Hdest. by intros [? [=]].
    + exists content. split; [done|]. unfold w'. by rewrite Hfiles, lookup_insert_eq.
Qed.

Lemma download_image_content_witness :
  (download_image shop_up kloof_url kloof_jpg new_world).1 = Done true
  ∧ files (download_image shop_up kloof_url kloof_jpg new_world).2 !! kloof_jpg
    = Some [255; 216; 255; 224].
Proof.
  assert ((download_image shop_up kloof_url kloof_jpg new_world).1 = Done true)
    as Hok by reflexivity.
  split; [exact Hok|].
  pose proof (download_image_content shop_up kloof_url kloof_jpg new_world Hok)
    as Hcontent.
  change (files new_world !! kloof_jpg) with (@None (list N)) in Hcontent.
  destruct Hcontent as (content & Hbody & Hfile).
  rewrite Hfile. f_equal. vm_compute in Hbody. congruence.
Defined.

(** ** The order of the manifest *)

Lemma insert_by_id_perm p l : insert_by_id p l ≡ₚ p :: l.
Proof.
  induction l as [|q l IH]; simpl; [done|].
  destruct (_ <? _); [|done]. rewrite IH. apply Permutation_swap.
Qed.

Lemma sort_by_id_perm l : sort_by_id l ≡ₚ l.
Proof.
  induction l as [|p l IH]; [done|]. unfold sort_by_id in *. cbn [foldr].
  by rewrite insert_by_id_perm, IH.
Qed.

Lemma insert_by_id_sorted p l :
  StronglySorted id_ge l → StronglySorted id_ge (insert_by_id p l).
Proof.
  induction 1 as [|q l Hl IH Hq]; simpl; [by repeat constructor|].
  destruct (N.ltb_spec (id (data p)) (id (data q))) as [Hlt|Hge].
  - constructor; [done|]. rewrite insert_by_id_perm. constructor; [|done].
    unfold id_ge. lia.
  - constructor; [by constructor|]. constructor; [done|].
    eapply Forall_impl; [exact Hq|]. unfold id_ge. intros r Hr. lia.
Qed.

Lemma sort_by_id_sorted l : StronglySorted id_ge (sort_by_id l).
Proof.
  induction l as [|p l IH]; [constructor|]. by apply insert_by_id_sorted.
Qed.

Lemma insert_by_id_stable k p l :
  filter (λ q, id (data q) = k) (insert_by_id p l)
  = filter (λ q, id (data q) = k) (p :: l).
Proof.
  induction l as [|q l IH]; simpl; [done|].
  destruct (N.ltb_spec (id (data p)) (id (data q))) as [Hlt|Hge]; [|done].
  rewrite filter_cons, IH, !filter_cons.
  repeat case_decide; try done; lia.
Qed.

Lemma sort_by_id_stable k l :
  filter (λ q, id (data q) = k) (sort_by_id l) = filter (λ q, id (data q) = k) l.
Proof.
  induction l as [|p l IH]; [done|]. unfold sort_by_id in *. cbn [foldr].
  by rewrite insert_by_id_stable, !filter_cons, IH.
Qed.

(** X5.  The manifest is what the crawl found, reordered: the same
    entries, by descending [id], and entries with the same [id] in the
    order the crawl found them. *)
Theorem main_manifest_order {U : UnicodeDB} (E : Env) (w w' : World)
    (manifest : list painting) :
  main E w = (Done manifest, w') →
  ∃ found, (crawl E CATEGORIES [] w).1 = Done found
    ∧ manifest ≡ₚ found
    ∧ StronglySorted (λ p q, id (data q) ≤ id (data p)) manifest
    ∧ ∀ k, filter (λ p, id (data p) = k) manifest
           = filter (λ p, id (data p) = k) found.
Proof.
  unfold main. destruct (crawl E CATEGORIES [] w) as [[found|e] w1]; [|done].
  intros [= <- _]. exists found. split_and!; [done| | |].
  - apply sort_by_id_perm.
  - apply sort_by_id_sorted.
  - intros k. apply sort_by_id_stable.
Qed.

(** ** The calls of the crawl *)

Section LinkExtractorOutcome.
Context (E : Env).

Lemma feed_tags_Done (links l : list str) (tags : list start_tag) :
  feed_tags links tags = Done l → Forall (λ t, ¬ bare_href t) tags.
Proof.
  revert links. induction tags as [|t tags IH]; intros links; [done|].
  cbn [feed_tags]. destruct (handle_starttag links t) as [links'|e] eqn:Ht; [|done].
  intros Hrest. constructor; [|by eapply IH].
  unfold handle_starttag in Ht. intros [Ha Hnone].
  by rewrite bool_decide_eq_true_2, Hnone in Ht.
Qed.

Lemma feed_tags_Raised (links : list str) (tags : list start_tag) e :
  feed_tags links tags = Raised e → e = lit "TypeError" ∧ Exists bare_href tags.
Proof.
  revert links. induction tags as [|t tags IH]; intros links; [done|].
  cbn [feed_tags]. destruct (handle_starttag links t) as [links'|e'] eqn:Ht.
  - intros [-> ?]%IH. split; [done|by apply Exists_cons_tl].
  - intros [= <-]. unfold handle_starttag in Ht.
    case_bool_decide as Ha; [|done].
    destruct (attrs_get _ _ _) as [href|] eqn:Hhref.
    + destruct (is_detail_link href); [by case_bool_decide|done].
    + injection Ht as <-. split; [done|]. by apply Exists_cons_hd.
Qed.

Lemma extract_links_detail (html : str) (links : list str) :
  extract_links E html = Done links →
  NoDup links ∧ Forall (λ href, is_detail_link href = true) links.
Proof.
  unfold extract_links.
  destruct (feed_tags [] (start_tags E html)) as [l|e] eqn:Hfeed; [|done].
  destruct (parse_error E html); [done|]. intros Hdone.
  pose proof (feed_tags_Done _ _ _ Hfeed) as Hok.
  rewrite feed_tags_append_new, append_new_nil in Hfeed by done.
  apply Done_inj in Hdone as <-. apply Done_inj in Hfeed as <-.
  split; [apply NoDup_nub|].
  rewrite Forall_forall. intros href. rewrite elem_of_nub, list_elem_of_In, filter_In.
  tauto.
Qed.

End LinkExtractorOutcome.

Section Crawl.
Context {U : UnicodeDB} (E : Env).

Lemma fetch_first_body (url : str) (content : bytes) (w : World) :
  urlopen E (length (requests w)) url = Body content →
  fetch E url 3 w = (Some (utf8_replace E content), request url w).
Proof.
  intros Hbody. unfold fetch. change (Z.to_nat 3) with 3%nat.
  cbn [fetch_from]. by rewrite Hbody.
Qed.

Lemma fetch_all_fail (url : str) (w : World) :
  (∀ n, failure (urlopen E n url) ≠ None) →
  fetch E url 3 w =
    (None,
     {| requests := requests w ++ replicate 3 url;
        files := files w;
        stdout := stdout w ++ failed_attempts E url 0 (length (requests w)) 3;
        naps := naps w ++ replicate 2 2000 |}).
Proof.
  intros Hfail. unfold fetch. change (Z.to_nat 3) with 3%nat.
  by rewrite (fetch_from_all_fail E url 3 3 Hfail 0%Z w).
Qed.

Lemma fetch_files (url : str) (retries : Z) (w : World) :
  files (fetch E url retries w).2 = files w.
Proof.
  unfold fetch.
  destruct (fetch_from_effects E url retries (Z.to_nat retries) 0 w)
    as (n & _ & _ & _ & _ & Hfiles & _); [lia|done].
Qed.

Lemma fetch_body (url : str) (retries : Z) (w : World) (text : str) :
  (fetch E url retries w).1 = Some text →
  ∃ n content, urlopen E n url = Body content ∧ text = utf8_replace E content.
Proof.
  unfold fetch. intros (i & content & _ & Hbody & Htext & _)%fetch_from_Some. eauto.
Qed.

(** ** The entries *)

Lemma process_link_entry (cats : list (str * str)) (cat cat_path link : str)
    (n : nat) (listing : bytes) (links : list str) (w : World) (p : painting) :
  (cat, cat_path) ∈ cats →
  urlopen E n (BASE_URL ++ cat_path) = Body listing →
  utf8_replace E listing ≠ [] →
  extract_links E (utf8_replace E listing) = Done links →
  link ∈ links →
  is_detail_link link = true →
  (process_link E cat (OUTPUT_DIR ++ [slash] ++ cat) link w).1 = Done (Some p) →
  entry_from E cats p.
Proof.
  intros Hcat Hlisting Hne Hlinks Hin Hlink. unfold process_link. cbv zeta.
  match goal with |- context [fetch E ?u 3 ?w0] =>
    pose proof (fetch_body u 3 w0) as Hbody;
    destruct (fetch E u 3 w0) as [[[|c html]|] w1]
  end; cbn [fst snd] in Hbody; cbv beta iota; cbn [fst snd]; [done| |done].
  destruct (Hbody _ eq_refl) as (m & content & Hopen & Htext).
  set (d := extract_product_data (c :: html) link).
  assert (∀ local,
    local = match images d with
            | [] => []
            | img :: _ => lit "images/paintings/" ++ cat ++ [slash]
                          ++ slugify (title_nl d) ++ image_ext E img
            end →
    entry_from E cats {| data := d; category := cat; url := link;
                         slug := slugify (title_nl d); local_image := local |})
    as Hentry.
  { intros local ->.
    split; [by exists cat_path, n, listing, links|]. split; [done|].
    split; [exists m, content; cbn [url data]; by rewrite <- Htext|].
    done. }
  destruct (images d) as [|img rest] eqn:Himg; cbv beta iota; cbn [fst snd].
  - intros Hp. apply Done_inj, (inj Some) in Hp as <-. by apply Hentry.
  - match goal with |- context [download_image E ?u ?d0 ?w0] =>
      destruct (download_image E u d0 w0) as [[ok|e] w2]
    end; cbv beta iota; cbn [fst snd]; [|done].
    intros Hp. apply Done_inj, (inj Some) in Hp as <-. by apply Hentry.
Qed.

Lemma process_links_entries (cats : list (str * str)) (cat cat_path : str)
    (n : nat) (listing : bytes) (found links : list str)
    (paintings l : list painting) (w : World) :
  (cat, cat_path) ∈ cats →
  urlopen E n (BASE_URL ++ cat_path) = Body listing →
  utf8_replace E listing ≠ [] →
  extract_links E (utf8_replace E listing) = Done found →
  Forall (λ href, href ∈ found ∧ is_detail_link href = true) links →
  Forall (entry_from E cats) paintings →
  (process_links E cat (OUTPUT_DIR ++ [slash] ++ cat) links paintings w).1 = Done l →
  Forall (entry_from E cats) l.
Proof.
  intros Hcat Hlisting Hne Hfound Hlinks. revert paintings w.
  induction Hlinks as [|link links [Hin Hlink] _ IH]; intros paintings w Hall.
  { cbn [process_links fst]. by intros <-%Done_inj. }
  cbn [process_links].
  pose proof (process_link_entry cats cat cat_path link n listing found w)
    as Hnew.
  destruct (process_link E cat _ link w) as [[p|e] w1]; cbn [fst] in Hnew; [|done].
  apply IH. destruct p as [p|]; [|done].
  apply Forall_app. split; [done|]. constructor; [by apply Hnew|done].
Qed.

Lemma crawl_category_entries (cats : list (str * str)) (category cat_path : str)
    (paintings l : list painting) (w : World) :
  (category, cat_path) ∈ cats →
  Forall (entry_from E cats) paintings →
  (crawl_category E category cat_path paintings w).1 = Done l →
  Forall (entry_from E cats) l.
Proof.
  intros Hcat Hall. unfold crawl_category. cbv zeta.
  match goal with |- context [fetch E ?u 3 ?w0] =>
    pose proof (fetch_body u 3 w0) as Hbody;
    destruct (fetch E u 3 w0) as [[[|c html]|] w1]
  end; cbn [fst snd] in Hbody; cbv beta iota; cbn [fst snd];
    [by intros [= <-]| |by intros [= <-]].
  destruct (Hbody _ eq_refl) as (n & listing & Hopen & Htext).
  pose proof (extract_links_detail E (c :: html)) as Hlinks.
  destruct (extract_links E (c :: html)) as [links|e] eqn:Hfound; [|done].
  destruct (Hlinks _ eq_refl) as [_ Hdetail].
  apply (process_links_entries cats category cat_path n listing links links);
    try done.
  - by rewrite <- Htext.
  - by rewrite <- Htext.
  - rewrite Forall_forall in Hdetail. apply Forall_forall. intros href Hin.
    split; [done|by apply Hdetail].
Qed.

Lemma crawl_entries (cats categories : list (str * str)) (paintings l : list painting)
    (w : World) :
  categories ⊆ cats →
  Forall (entry_from E cats) paintings →
  (crawl E categories paintings w).1 = Done l →
  Forall (entry_from E cats) l.
Proof.
  revert paintings w. induction categories as [|[category cat_path] rest IH];
    intros paintings w Hsub Hall; [by intros [= <-]|].
  cbn [crawl].
  pose proof (λ l, crawl_category_entries cats category cat_path paintings l w) as Hcat.
  destruct (crawl_category E category cat_path paintings w) as [[l1|e] w1];
    cbn [fst] in *; [|done].
  apply IH; [set_solver|]. apply (Hcat l1); [set_solver|done|done].
Qed.

End Crawl.

(** ** What a run leaves in the world *)

Section WorldInvariant.
Context {U : UnicodeDB} (E : Env) (R : World → World → Prop).
Hypothesis R_refl : ∀ w, R w w.
Hypothesis R_trans : ∀ w1 w2 w3, R w1 w2 → R w2 w3 → R w1 w3.
Hypothesis R_print : ∀ line w, R w (print line w).
Hypothesis R_sleep : ∀ ms w, R w (sleep ms w).
Hypothesis R_fetch : ∀ url w, R w (fetch E url 3 w).2.
Hypothesis R_download : ∀ url cat name w,
  R w (download_image E url ((OUTPUT_DIR ++ [slash] ++ cat) ++ [slash] ++ name) w).2.

Lemma process_link_preserves (cat link : str) (w : World) :
  R w (process_link E cat (OUTPUT_DIR ++ [slash] ++ cat) link w).2.
Proof.
  unfold process_link. cbv zeta.
  match goal with |- context [fetch E ?u 3 ?w0] =>
    pose proof (R_trans _ _ _ (R_print _ w) (R_fetch u w0)) as Hfetch;
    destruct (fetch E u 3 w0) as [[[|c html]|] w1]
  end; cbn [fst snd] in Hfetch; cbv beta iota; cbn [fst snd].
  1, 3: eapply R_trans; [exact Hfetch|apply R_print].
  destruct (images (extract_product_data (c :: html) link)) as [|img rest];
    cbv beta iota; cbn [fst snd].
  - eapply R_trans; [exact Hfetch|]. eapply R_trans; [apply R_print|apply R_sleep].
  - match goal with |- context [download_image E ?u (_ ++ [slash] ++ ?name) ?w0] =>
      pose proof (R_download u cat name w0) as Hload;
      destruct (download_image E u ((OUTPUT_DIR ++ [slash] ++ cat) ++ [slash] ++ name) w0)
        as [[ok|e] w2]
    end; cbn [fst snd] in *.
    + eapply R_trans; [exact Hfetch|]. eapply R_trans; [exact Hload|apply R_sleep].
    + eapply R_trans; [exact Hfetch|exact Hload].
Qed.

Lemma process_links_preserves (cat : str) (links : list str)
    (paintings : list painting) (w : World) :
  R w (process_links E cat (OUTPUT_DIR ++ [slash] ++ cat) links paintings w).2.
Proof.
  revert paintings w. induction links as [|link links IH]; intros paintings w;
    [apply R_refl|].
  cbn [process_links]. pose proof (process_link_preserves cat link w) as Hone.
  destruct (process_link E cat _ link w) as [[p|e] w1]; cbn [snd] in Hone; [|done].
  eapply R_trans; [exact Hone|apply IH].
Qed.

Lemma crawl_category_preserves (cat cat_path : str) (paintings : list painting)
    (w : World) :
  R w (crawl_category E cat cat_path paintings w).2.
Proof.
  unfold crawl_category. cbv zeta.
  match goal with |- context [fetch E ?u 3 ?w0] =>
    pose proof (R_trans _ _ _ (R_print _ w) (R_fetch u w0)) as Hfetch;
    destruct (fetch E u 3 w0) as [[[|c html]|] w1]
  end; cbn [fst snd] in Hfetch; cbv beta iota; cbn [fst snd].
  1, 3: eapply R_trans; [exact Hfetch|apply R_print].
  destruct (extract_links E (c :: html)) as [links|e]; [|done].
  cbn [snd].
  eapply R_trans; [exact Hfetch|].
  eapply R_trans; [apply R_print|apply process_links_preserves].
Qed.

Lemma crawl_preserves (categories : list (str * str)) (paintings : list painting)
    (w : World) :
  R w (crawl E categories paintings w).2.
Proof.
  revert paintings w. induction categories as [|[cat cat_path] rest IH];
    intros paintings w; [apply R_refl|].
  cbn [crawl]. pose proof (crawl_category_preserves cat cat_path paintings w) as Hone.
  destruct (crawl_category E cat cat_path paintings w) as [[l|e] w1];
    cbn [snd] in *; [|done].
  eapply R_trans; [exact Hone|apply IH].
Qed.

Lemma main_preserves (w : World) : R w (main E w).2.
Proof.
  unfold main. pose proof (crawl_preserves CATEGORIES [] w) as Hcrawl.
  destruct (crawl E CATEGORIES [] w) as [[l|e] w1]; cbn [snd] in *; [|done].
  eapply R_trans; [exact Hcrawl|]. eapply R_trans; apply R_print.
Qed.

End WorldInvariant.

Lemma adds_images_same (w w' : World) : files w' = files w → adds_images w w'.
Proof.
  intros Heq path. rewrite Heq. destruct (files w !! path); [done|].
  by intros [? [=]].
Qed.

Lemma adds_images_trans (w1 w2 w3 : World) :
  adds_images w1 w2 → adds_images w2 w3 → adds_images w1 w3.
Proof.
  intros H12 H23 path. specialize (H12 path). specialize (H23 path).
  destruct (files w1 !! path) as [c1|]; [by rewrite H12 in H23|].
  destruct (files w2 !! path) as [c2|]; [intros _; apply H12; eauto|done].
Qed.

Lemma adds_images_download (E : Env) (url cat name : str) (w : World) :
  adds_images w
    (download_image E url ((OUTPUT_DIR ++ [slash] ++ cat) ++ [slash] ++ name) w).2.
Proof.
  set (dest := (OUTPUT_DIR ++ [slash] ++ cat) ++ [slash] ++ name).
  intros path. destruct (decide (path = dest)) as [->|Hne].
  - destruct (files w !! dest) as [old|] eqn:Hdest.
    + rewrite download_image_keeps, Hdest; [done|].
      apply bool_decide_eq_true_2. rewrite Hdest. eauto.
    + intros _. apply startswith_spec. exists (cat ++ [slash] ++ name).
      unfold dest. by rewrite <- !app_assoc.
  - rewrite (download_image_other_files E url dest path w Hne).
    destruct (files w !! path); [done|]. by intros [? [=]].
Qed.

(** ** Runs of the crawler *)

Lemma main_manifest_order_witness :
  ∃ manifest w',
    main (U := udb_plain) two_pages new_world = (Done manifest, w')
    ∧ map (λ p, id (data p)) manifest = [15; 12]
    ∧ StronglySorted (λ p q, id (data q) ≤ id (data p)) manifest.
Proof.
  assert (match main (U := udb_plain) two_pages new_world with
          | (Done manifest, _) => map (λ p, id (data p)) manifest = [15; 12]
          | _ => False
          end) as Hids by (vm_compute; reflexivity).
  destruct (main (U := udb_plain) two_pages new_world) as [[manifest|e] w'] eqn:Hmain;
    [|contradiction].
  exists manifest, w'. split; [reflexivity|]. split; [exact Hids|].
  destruct (main_manifest_order two_pages new_world w' manifest Hmain)
    as (found & _ & _ & Hsorted & _).
  exact Hsorted.
Defined.

(** X6.  What the link extractor does with a page.  It raises a
    [TypeError] when one of the start tags it is handed is an anchor whose
    [href], as [dict(attrs)] keeps it (the last attribute of that name),
    has no value; without such an anchor it raises what the tokenizer
    raises, if the tokenizer raises; otherwise it returns the detail links
    among the [href]s of the anchors, each once, in the order of their
    first occurrence. *)
Theorem extract_links_outcome (E : Env) (html : str) :
  let tags := start_tags E html in
  match extract_links E html with
  | Done links =>
      Forall (λ t, ¬ bare_href t) tags
      ∧ parse_error E html = None
      ∧ links = nub (List.filter is_detail_link (omap anchor_href tags))
      ∧ NoDup links
      ∧ Forall (λ href, is_detail_link href = true) links
  | Raised e =>
      (Exists bare_href tags ∧ e = lit "TypeError")
      ∨ (Forall (λ t, ¬ bare_href t) tags ∧ parse_error E html = Some e)
  end.
Proof.
  intros tags. pose proof (extract_links_detail E html) as Hdetail.
  unfold extract_links in *. fold tags in Hdetail |- *.
  destruct (feed_tags [] tags) as [l|e] eqn:Hfeed.
  - pose proof (feed_tags_Done _ _ _ Hfeed) as Hok.
    rewrite feed_tags_append_new, append_new_nil in Hfeed by done.
    apply Done_inj in Hfeed as <-.
    destruct (parse_error E html) as [e|]; [by right|].
    destruct (Hdetail _ eq_refl) as [Hnodup Hall]. done.
  - left. by apply feed_tags_Raised in Hfeed as [-> ?].
Qed.

(** X7.  [main] does not catch the [TypeError] of the link extractor: when
    the listing of the first category has an anchor whose [href] has no
    value, the run stops there, after one request, and no manifest is
    written. *)
Theorem main_aborts_on_bare_href {U : UnicodeDB} (E : Env) (w : World)
    (content : bytes) :
  urlopen E (length (requests w))
    (BASE_URL ++ lit "/webshop/schilderijenpaintings/abstract/") = Body content →
  utf8_replace E content ≠ [] →
  Exists bare_href (start_tags E (utf8_replace E content)) →
  (main E w).1 = Raised (lit "TypeError")
  ∧ requests (main E w).2
    = requests w ++ [BASE_URL ++ lit "/webshop/schilderijenpaintings/abstract/"]
  ∧ files (main E w).2 = files w.
Proof.
  intros Hbody Hne Hbad. unfold main, CATEGORIES. cbn [crawl].
  unfold crawl_category. cbv zeta.
  rewrite fetch_first_body with (content := content) by exact Hbody.
  destruct (utf8_replace E content) as [|c html] eqn:Htext; [done|].
  unfold extract_links. by rewrite (feed_tags_raises [] _ Hbad).
Qed.

Lemma main_aborts_on_bare_href_witness :
  (main (U := udb_plain) bare_listing new_world).1 = Raised (lit "TypeError")
  ∧ requests (main (U := udb_plain) bare_listing new_world).2
    = [BASE_URL ++ lit "/webshop/schilderijenpaintings/abstract/"].
Proof.
  destruct (main_aborts_on_bare_href (U := udb_plain) bare_listing new_world
              listing_page) as (Hraised & Hreq & _).
  - reflexivity.
  - discriminate.
  - apply Exists_cons_tl, Exists_cons_hd. split; reflexivity.
  - split; [exact Hraised|exact Hreq].
Defined.

(** X8.  With the network down the run still ends well: each category is
    tried three times and skipped, four naps are taken, nothing is
    downloaded, and the manifest that is written is empty. *)
Theorem main_offline {U : UnicodeDB} (E : Env) (w : World) :
  (∀ n url, failure (urlopen E n url) ≠ None) →
  (main E w).1 = Done []
  ∧ requests (main E w).2
    = requests w ++ flat_map (λ c, replicate 3 (BASE_URL ++ c.2)) CATEGORIES
  ∧ files (main E w).2 = files w
  ∧ naps (main E w).2 = naps w ++ replicate 4 2000.
Proof.
  intros Hfail. unfold main, CATEGORIES. cbn [crawl].
  unfold crawl_category. cbv zeta.
  rewrite fetch_all_fail by (intros n; apply Hfail). cbv beta iota.
  rewrite fetch_all_fail by (intros n; apply Hfail). cbv beta iota.
  cbn [fst snd requests files naps print flat_map]. split_and!; try done.
  - by rewrite <- !app_assoc.
  - by rewrite <- !app_assoc.
Qed.

Lemma main_offline_witness :
  (main (U := udb_plain) offline new_world).1 = Done []
  ∧ length (requests (main (U := udb_plain) offline new_world).2) = 6%nat.
Proof.
  destruct (main_offline (U := udb_plain) offline new_world) as (Hdone & Hreq & _).
  - intros n url. discriminate.
  - split; [exact Hdone|]. rewrite Hreq. reflexivity.
Defined.

(** X9.  Every entry of the manifest comes from the listing of its
    category: the server sent a non-empty listing for one of the paths of
    that category, the link extractor returned links for it, and the url
    of the entry is one of them, a detail link.  Its data are those of a
    non-empty page that the server sent for that link, its slug is the
    slug of its Dutch title, and its [local_image] is empty when the page
    has no image and [images/paintings/<category>/<slug><ext>]
    otherwise. *)
Theorem main_entries {U : UnicodeDB} (E : Env) (w w' : World)
    (manifest : list painting) :
  main E w = (Done manifest, w') →
  Forall (entry_from E CATEGORIES) manifest.
Proof.
  unfold main. intros Hmain.
  pose proof (λ l, crawl_entries E CATEGORIES CATEGORIES [] l w) as Hcrawl.
  destruct (crawl E CATEGORIES [] w) as [[l|e] w1]; [|done].
  injection Hmain as <- _. rewrite sort_by_id_perm. by apply Hcrawl.
Qed.

Lemma main_entries_witness :
  ∃ p w', main (U := udb_plain) shop_up new_world = (Done [p], w')
          ∧ slug p = slugify (U := udb_plain) (title_nl (data p))
          ∧ is_detail_link (url p) = true
          ∧ ∃ cat_path n listing links,
              (category p, cat_path) ∈ CATEGORIES
              ∧ urlopen shop_up n (BASE_URL ++ cat_path) = Body listing
              ∧ extract_links shop_up (utf8_replace shop_up listing) = Done links
              ∧ url p ∈ links.
Proof.
  assert (match main (U := udb_plain) shop_up new_world with
          | (Done [p], _) => True
          | _ => False
          end) as Hshape by (vm_compute; exact I).
  destruct (main (U := udb_plain) shop_up new_world) as [[[|p [|q l]]|e] w'] eqn:Hmain;
    try contradiction.
  exists p, w'. split; [reflexivity|].
  pose proof (main_entries shop_up new_world w' [p] Hmain) as Hall.
  apply Forall_cons_1 in Hall as [(Hfrom & Hlink & _ & Hslug & _) _].
  split; [exact Hslug|]. split; [exact Hlink|].
  destruct Hfrom as (cat_path & n & listing & links & Hcat & Hopen & _ & Hfound & Hin).
  by exists cat_path, n, listing, links.
Defined.

(** X10.  Up to the writing of the manifest, a run never changes or
    removes a file that is there when it starts, and every file it creates
    is below the image directory. *)
Theorem main_only_adds_images {U : UnicodeDB} (E : Env) (w : World) (path : str) :
  match files w !! path with
  | Some content => files (main E w).2 !! path = Some content
  | None => is_Some (files (main E w).2 !! path) →
            startswith (OUTPUT_DIR ++ [slash]) path = true
  end.
Proof.
  revert path. fold (adds_images w (main E w).2).
  apply main_preserves.
  - intros w0. by apply adds_images_same.
  - apply adds_images_trans.
  - intros line w0. by apply adds_images_same.
  - intros ms w0. by apply adds_images_same.
  - intros url w0. apply adds_images_same, fetch_files.
  - apply adds_images_download.
Qed.

(** X11.  A page that decodes to the empty string counts as a failed
    fetch, although the request succeeded: it is requested once, and the
    listing is reported as failed and its category skipped, the detail
    page is reported as failed and gets no entry. *)
Theorem empty_page_counts_as_failure {U : UnicodeDB} (E : Env)
    (category cat_dir path : str) (paintings : list painting) (content : bytes)
    (w : World) :
  utf8_replace E content = [] →
  (urlopen E (length (requests w)) (BASE_URL ++ path) = Body content →
   crawl_category E category path paintings w =
     (Done paintings,
      print (lit "Failed to fetch category page: " ++ BASE_URL ++ path)
        (request (BASE_URL ++ path)
           (print (10 :: lit "--- Category: " ++ category ++ lit " ---") w))))
  ∧ (urlopen E (length (requests w)) (absolute path) = Body content →
     process_link E category cat_dir path w =
       (Done None,
        print (lit "  Failed to fetch detail page")
          (request (absolute path)
             (print (10 :: lit "Processing: " ++ last_item (split_char slash path))
                w)))).
Proof.
  intros Hempty. split; intros Hbody.
  - unfold crawl_category. cbv zeta.
    rewrite fetch_first_body with (content := content) by exact Hbody.
    by rewrite Hempty.
  - unfold process_link. cbv zeta.
    rewrite fetch_first_body with (content := content) by exact Hbody.
    by rewrite Hempty.
Qed.

Lemma empty_page_counts_as_failure_witness :
  (main (U := udb_plain) blank new_world).1 = Done []
  ∧ (crawl_category (U := udb_plain) blank (lit "abstract")
       (lit "/webshop/schilderijenpaintings/abstract/") [] new_world).1 = Done [].
Proof.
  split; [reflexivity|].
  destruct (empty_page_counts_as_failure (U := udb_plain) blank (lit "abstract") []
              (lit "/webshop/schilderijenpaintings/abstract/") [] [] new_world
              eq_refl) as [Hlisting _].
  rewrite Hlisting; reflexivity.
Defined.

(** ** ProductPageParser *)

Section PageParser.
Import ProductPageParser.

Lemma add_image_append (x : str) (s : state) :
  images (add_image x s) = append_new (images s) [x].
Proof. unfold add_image, append_new. simpl. by case_bool_decide. Qed.

Lemma append_new_app (seen k1 k2 : list str) :
  append_new seen (k1 ++ k2) = append_new (append_new seen k1) k2.
Proof. unfold append_new. by rewrite foldl_app. Qed.

Lemma omap_cons_option_list {A B} (f : A → option B) (x : A) (l : list A) :
  omap f (x :: l) = option_list (f x) ++ omap f l.
Proof. cbn. by destruct (f x). Qed.

Lemma handle_images (s s' : state) (ev : event) :
  handle s ev = Done s' →
  images s' = append_new (images s) (option_list (image_of ev)).
Proof.
  destruct ev as [tag attrs|tag|text]; cbn [handle image_of].
  - unfold handle_starttag. cbv zeta. case_bool_decide as Himg.
    + subst tag. rewrite bool_decide_eq_false_2 by (intros [=]).
      destruct (attrs_get (lit "src") _ attrs) as [src|]; [|done].
      destruct (contains _ src); intros [= <-]; by rewrite ?add_image_append.
    + case_bool_decide as Hmeta; [|by intros [= <-]].
      set (prop := attrs_get (lit "property") (Some []) attrs).
      set (content := attrs_get (lit "content") (Some []) attrs).
      destruct (bool_decide (prop = Some (lit "og:image")) && truthy content)
        eqn:Hog;
        destruct (bool_decide (prop = Some (lit "og:title")) && truthy content);
        intros [= <-]; cbn [images]; try done.
      all: apply andb_true_iff in Hog as [_ Hc];
        destruct content as [[|c content]|]; try done;
        by rewrite add_image_append.
  - intros [= <-]. unfold handle_endtag. by case_bool_decide.
  - intros [= <-]. unfold handle_data. cbv zeta.
    destruct (py_strip text); [done|]. by destruct (_ || _).
Qed.

Lemma feed_images_from (s s' : state) (events : list event) :
  feed s events = Done s' →
  images s' = append_new (images s) (omap image_of events).
Proof.
  revert s. induction events as [|ev events IH]; intros s; [by intros [= <-]|].
  cbn [feed]. destruct (handle s ev) as [s1|e] eqn:Hev; [|done].
  intros Hrest. rewrite (IH _ Hrest), (handle_images _ _ _ Hev).
  by rewrite omap_cons_option_list, append_new_app.
Qed.

Lemma handle_raises (s : state) (ev : event) e :
  handle s ev = Raised e ↔ e = lit "TypeError" ∧ bare_src ev.
Proof.
  destruct ev as [tag attrs|tag|text]; simpl; [|naive_solver..].
  unfold handle_starttag. cbv zeta. case_bool_decide as Himg.
  - subst tag. rewrite bool_decide_eq_false_2 by (intros [=]).
    destruct (attrs_get (lit "src") _ attrs) as [src|].
    + destruct (contains _ src); naive_solver.
    + naive_solver.
  - case_bool_decide; naive_solver.
Qed.

Lemma feed_raises_iff (s : state) (events : list event) :
  feed s events = Raised (lit "TypeError") ↔ Exists bare_src events.
Proof.
  revert s. induction events as [|ev events IH]; intros s.
  { cbn [feed]. rewrite Exists_nil. naive_solver. }
  cbn [feed]. rewrite Exists_cons. destruct (handle s ev) as [s1|e] eqn:Hev.
  - rewrite IH. split; [tauto|]. intros [Hbad|?]; [|done].
    assert (handle s ev = Raised (lit "TypeError")) as Hr
      by (by apply handle_raises).
    congruence.
  - apply handle_raises in Hev as [-> ?]. tauto.
Qed.

Lemma feed_raised (s : state) (events : list event) e :
  feed s events = Raised e → e = lit "TypeError".
Proof.
  revert s. induction events as [|ev events IH]; intros s; [done|].
  cbn [feed]. destruct (handle s ev) as [s1|e'] eqn:Hev; [apply IH|].
  intros [= <-]. by apply handle_raises in Hev as [? _].
Qed.

Lemma handle_price_text (s s' : state) (ev : event) :
  handle s ev = Done s' →
  price_text s' = default (price_text s) (price_of ev).
Proof.
  destruct ev as [tag attrs|tag|text]; cbn [handle price_of default].
  - unfold handle_starttag. cbv zeta.
    destruct (bool_decide (tag = lit "img")).
    + destruct (attrs_get (lit "src") _ attrs) as [src|]; [|done].
      destruct (contains _ src); simpl; unfold add_image;
        repeat (case_bool_decide || destruct (_ && _)); by intros [= <-].
    + simpl. unfold add_image.
      repeat (case_bool_decide || destruct (_ && _)); by intros [= <-].
  - intros [= <-]. unfold handle_endtag. by case_bool_decide.
  - intros [= <-]. unfold handle_data, price_of. cbv zeta.
    destruct (py_strip text) as [|c t] eqn:Htext; [done|].
    by destruct (_ || _).
Qed.

Lemma feed_price_text_from (s s' : state) (events : list event) :
  feed s events = Done s' →
  price_text s' = default (price_text s) (last (omap price_of events)).
Proof.
  revert s. induction events as [|ev events IH]; intros s; [by intros [= <-]|].
  cbn [feed]. destruct (handle s ev) as [s1|e] eqn:Hev; [|done].
  intros Hrest. rewrite (IH _ Hrest), (handle_price_text _ _ _ Hev).
  rewrite omap_cons_option_list.
  destruct (price_of ev) as [text|]; [|done]. simpl.
  destruct (omap price_of events) as [|a l] eqn:Hl; [done|].
  rewrite last_cons_cons. destruct (last (a :: l)) eqn:Hlast; [done|].
  by apply last_None in Hlast.
Qed.

End PageParser.

(** X12.  The images of [ProductPageParser] after a page: the qualifying
    [img] sources and [og:image] contents in the order of their first
    occurrence, each once, so that an [og:image] that comes after the
    [img] tags is not the first image.  The parser raises exactly when an
    [img] has a [src] without a value, and what it raises is a
    [TypeError]. *)
Theorem page_parser_images (events : list ProductPageParser.event) :
  match ProductPageParser.feed ProductPageParser.init events with
  | Done s =>
      ¬ Exists ProductPageParser.bare_src events
      ∧ ProductPageParser.images s = nub (omap ProductPageParser.image_of events)
      ∧ NoDup (ProductPageParser.images s)
  | Raised e => e = lit "TypeError" ∧ Exists ProductPageParser.bare_src events
  end.
Proof.
  destruct (ProductPageParser.feed ProductPageParser.init events) as [s|e] eqn:Hfeed.
  - assert (ProductPageParser.images s = nub (omap ProductPageParser.image_of events))
      as Himages.
    { rewrite (feed_images_from _ _ _ Hfeed). apply append_new_nil. }
    split_and!; [|done|rewrite Himages; apply NoDup_nub].
    intros Hbad%(feed_raises_iff ProductPageParser.init). congruence.
  - pose proof (feed_raised _ _ _ Hfeed) as ->. split; [done|].
    by apply (feed_raises_iff ProductPageParser.init).
Qed.

(** X13.  The price text of [ProductPageParser] after a page is the
    stripped text of the last data that has a euro sign or the letters
    EUR, and empty when there is none: a later price replaces an earlier
    one. *)
Theorem page_parser_price_text (events : list ProductPageParser.event)
    (s : ProductPageParser.state) :
  ProductPageParser.feed ProductPageParser.init events = Done s →
  ProductPageParser.price_text s
  = default [] (last (omap ProductPageParser.price_of events)).
Proof. apply feed_price_text_from. Qed.

Lemma page_parser_price_text_witness :
  ∃ s, ProductPageParser.feed ProductPageParser.init
         [ ProductPageParser.Data (euro :: lit " 100 ");
           ProductPageParser.StartTag (lit "p") [];
           ProductPageParser.Data (lit " EUR 250 ");
           ProductPageParser.Data (lit "per stuk") ] = Done s
       ∧ ProductPageParser.price_text s = lit "EUR 250".
Proof.
  destruct (ProductPageParser.feed _ _) as [s|e] eqn:Hfeed;
    [|vm_compute in Hfeed; discriminate].
  exists s. split; [reflexivity|].
  rewrite (page_parser_price_text _ _ Hfeed). reflexivity.
Defined.

(** ** What a pattern matches *)

Section Soundness.
Context {A : Type}.
Implicit Types (k : str → option str → option A).

Lemma greedy_loop_sound (r : regex) (fuel : nat) :
  sound_for A r →
  ∀ s g k a,
    greedy_loop (λ s' g' k', run r s' g' k') k fuel s g = Some a →
    ∃ m s' g', s = m ++ s' ∧ matches (Star r) g m g' ∧ k s' g' = Some a.
Proof.
  intros Hr. induction fuel as [|fuel IH]; intros s g k a; cbn [greedy_loop].
  { intros Hk. exists [], s, g. split_and!; [done|constructor|done]. }
  destruct (run r s g _) as [a'|] eqn:Hbody.
  - intros [= ->]. apply Hr in Hbody as (m1 & s1 & g1 & -> & Hm1 & Hrest).
    destruct (_ <? _)%nat; [|done].
    apply IH in Hrest as (m2 & s2 & g2 & -> & Hm2 & Hk).
    exists (m1 ++ m2), s2, g2. rewrite <- app_assoc.
    split_and!; [done|by econstructor|done].
  - intros Hk. exists [], s, g. split_and!; [done|constructor|done].
Qed.

Lemma lazy_loop_sound (r : regex) (fuel : nat) :
  sound_for A r →
  ∀ s g k a,
    lazy_loop (λ s' g' k', run r s' g' k') k fuel s g = Some a →
    ∃ m s' g', s = m ++ s' ∧ matches (LazyStar r) g m g' ∧ k s' g' = Some a.
Proof.
  intros Hr. induction fuel as [|fuel IH]; intros s g k a; cbn [lazy_loop].
  { intros Hk. exists [], s, g. split_and!; [done|constructor|done]. }
  destruct (k s g) as [a'|] eqn:Hk.
  - intros [= ->]. exists [], s, g. split_and!; [done|constructor|done].
  - intros Hbody. apply Hr in Hbody as (m1 & s1 & g1 & -> & Hm1 & Hrest).
    destruct (_ <? _)%nat; [|done].
    apply IH in Hrest as (m2 & s2 & g2 & -> & Hm2 & Hk2).
    exists (m1 ++ m2), s2, g2. rewrite <- app_assoc.
    split_and!; [done|by econstructor|done].
Qed.

End Soundness.

Lemma run_sound {A} (r : regex) : sound_for A r.
Proof.
  induction r as [|p|r1 IH1 r2 IH2|r1 IH1 r2 IH2|r IH|r IH|r IH];
    intros s g k a; cbn [run].
  - intros Hk. exists [], s, g. split_and!; [done|constructor|done].
  - destruct s as [|c t]; [done|]. destruct (p c) eqn:Hc; [|done].
    intros Hk. exists [c], t, g. split_and!; [done|by constructor|done].
  - intros (m1 & s1 & g1 & -> & Hm1 & Hrest)%IH1.
    apply IH2 in Hrest as (m2 & s2 & g2 & -> & Hm2 & Hk).
    exists (m1 ++ m2), s2, g2. rewrite <- app_assoc.
    split_and!; [done|by econstructor|done].
  - destruct (run r1 s g k) as [a'|] eqn:H1.
    + intros [= ->]. apply IH1 in H1 as (m & s' & g' & -> & Hm & Hk).
      exists m, s', g'. split_and!; [done|by apply M_Alt_l|done].
    + intros (m & s' & g' & -> & Hm & Hk)%IH2.
      exists m, s', g'. split_and!; [done|by apply M_Alt_r|done].
  - by apply greedy_loop_sound.
  - by apply lazy_loop_sound.
  - intros (m & s' & g' & -> & Hm & Hk)%IH.
    rewrite length_app, Nat.add_sub, take_app_length in Hk.
    exists m, s', (Some m). split_and!; [done|by econstructor|done].
Qed.

Lemma match_here_sound (r : regex) (s rest x : str) :
  match_here r s = Some (rest, x) →
  ∃ m g', s = m ++ rest ∧ matches r None m g' ∧ x = default [] g'.
Proof.
  unfold match_here. intros (m & s' & g' & -> & Hm & [= <- <-])%run_sound. eauto.
Qed.

Lemma re_search_sound (r : regex) (s x : str) :
  re_search r s = Some x →
  ∃ pre m post g', s = pre ++ m ++ post ∧ matches r None m g' ∧ x = default [] g'.
Proof.
  induction s as [|c t IH]; cbn [re_search].
  - destruct (match_here r []) as [[rest y]|] eqn:Hm; [|done].
    intros [= ->]. apply match_here_sound in Hm as (m & g' & Hs & Hm & ->).
    exists [], m, rest, g'. by split_and!.
  - destruct (match_here r (c :: t)) as [[rest y]|] eqn:Hm.
    + intros [= ->]. apply match_here_sound in Hm as (m & g' & Hs & Hm & ->).
      exists [], m, rest, g'. by split_and!.
    + intros (pre & m & post & g' & -> & Hm' & ->)%IH.
      exists (c :: pre), m, post, g'. by split_and!.
Qed.

Lemma findall_from_sound (r : regex) (fuel : nat) (s : str) :
  Forall (λ x, ∃ pre m post g',
            s = pre ++ m ++ post ∧ matches r None m g' ∧ x = default [] g')
         (findall_from fuel r s).
Proof.
  revert s. induction fuel as [|fuel IH]; intros s; cbn [findall_from]; [done|].
  assert (∀ c t, s = c :: t →
    Forall (λ x, ∃ pre m post g',
              s = pre ++ m ++ post ∧ matches r None m g' ∧ x = default [] g')
           (findall_from fuel r t)) as Hnext.
  { intros c t ->. eapply Forall_impl; [apply IH|].
    intros x (pre & m & post & g' & -> & Hm & ->).
    exists (c :: pre), m, post, g'. by split_and!. }
  destruct (match_here r s) as [[rest y]|] eqn:Hm.
  - apply match_here_sound in Hm as (m & g' & Hs & Hm & ->). constructor.
    { exists [], m, rest, g'. by split_and!. }
    destruct (_ <? _)%nat.
    + eapply Forall_impl; [apply IH|].
      intros x (pre & m' & post & g'' & -> & Hm' & ->).
      exists (m ++ pre), m', post, g''. rewrite Hs, <- app_assoc. by split_and!.
    + destruct s as [|c t]; [done|]. by eapply Hnext.
  - destruct s as [|c t]; [done|]. by eapply Hnext.
Qed.

(** ** Reading a match *)

Lemma matches_Lits (s : str) g m g' : matches (Lits s) g m g' → m = s ∧ g' = g.
Proof.
  revert g m g'. induction s as [|c s IH]; intros g m g'; cbn [Lits foldr].
  - by inversion 1.
  - inversion 1 as [| |? ? ? m1 g1 m2 g2 H1 H2| | | | | | |]; subst.
    inversion H1 as [|? c' ? Hc| | | | | | | |]; subst.
    apply N.eqb_eq in Hc as <-. apply IH in H2 as [-> ->]. done.
Qed.

Lemma matches_Cls (p : char → bool) g m g' :
  matches (Cls p) g m g' → ∃ c, m = [c] ∧ p c = true ∧ g' = g.
Proof. inversion 1; subst. eauto. Qed.

Lemma matches_Cat_inv r1 r2 g m g' :
  matches (Cat r1 r2) g m g' →
  ∃ m1 g1 m2, m = m1 ++ m2 ∧ matches r1 g m1 g1 ∧ matches r2 g1 m2 g'.
Proof. inversion 1; subst. eauto 10. Qed.

Lemma matches_Group_inv r g m g' :
  matches (Group r) g m g' → g' = Some m ∧ ∃ g1, matches r g m g1.
Proof. inversion 1; subst. eauto. Qed.

Lemma matches_Star_Cls (p : char → bool) g m g' :
  matches (Star (Cls p)) g m g' → Forall (λ c, p c = true) m ∧ g' = g.
Proof.
  remember (Star (Cls p)) as r eqn:Hr. induction 1; try done.
  - injection Hr as ->. apply matches_Cls in H as (c & -> & Hc & ->).
    destruct (IHmatches2 eq_refl) as [? ->]. split; [by constructor|done].
Qed.

Lemma matches_LazyStar_Cls (p : char → bool) g m g' :
  matches (LazyStar (Cls p)) g m g' → Forall (λ c, p c = true) m ∧ g' = g.
Proof.
  remember (LazyStar (Cls p)) as r eqn:Hr. induction 1; try done.
  - injection Hr as ->. apply matches_Cls in H as (c & -> & Hc & ->).
    destruct (IHmatches2 eq_refl) as [? ->]. split; [by constructor|done].
Qed.

Lemma matches_Plus_Cls (p : char → bool) g m g' :
  matches (Plus (Cls p)) g m g' → m ≠ [] ∧ Forall (λ c, p c = true) m ∧ g' = g.
Proof.
  unfold Plus. intros (m1 & g1 & m2 & -> & H1 & H2)%matches_Cat_inv.
  apply matches_Cls in H1 as (c & -> & Hc & ->).
  apply matches_Star_Cls in H2 as [? ->]. split_and!; [done|by constructor|done].
Qed.

(** ** The image URLs *)

Lemma matches_image_re (m : str) (g' : option str) :
  matches image_re None m g' →
  ∃ a b before after,
    g' = Some (a ++ upload_path ++ b) ∧ b ≠ []
    ∧ Forall (λ c, is_quote c = false) (a ++ upload_path ++ b)
    ∧ m = before ++ (a ++ upload_path ++ b) ++ after.
Proof.
  unfold image_re.
  intros (m1 & g1 & m2 & -> & _ & H)%matches_Cat_inv.
  apply matches_Cat_inv in H as (m3 & g2 & m4 & -> & _ & H).
  apply matches_Cat_inv in H as (m5 & g3 & m6 & -> & _ & H).
  apply matches_Cat_inv in H as (x & g4 & m7 & -> & Hgroup & Hclose).
  apply matches_Cls in Hclose as (q & -> & _ & ->).
  apply matches_Group_inv in Hgroup as [-> [g5 H]].
  apply matches_Cat_inv in H as (a & g6 & m8 & -> & Ha & H).
  apply matches_Cat_inv in H as (u & g7 & b & -> & Hu & Hb).
  apply matches_LazyStar_Cls in Ha as [Ha _].
  apply matches_Lits in Hu as [-> _].
  apply matches_Plus_Cls in Hb as (Hne & Hb & _).
  exists a, b, (m1 ++ m3 ++ m5), [q]. split_and!; [done|done| |by rewrite <- !app_assoc].
  rewrite !Forall_app. split_and!.
  - eapply Forall_impl; [exact Ha|]. intros c. unfold not_quote. by destruct (is_quote c).
  - unfold upload_path. repeat constructor.
  - eapply Forall_impl; [exact Hb|]. intros c. unfold not_quote. by destruct (is_quote c).
Qed.

Lemma matches_og_re (m : str) (g' : option str) :
  matches og_re None m g' →
  ∃ x before after,
    g' = Some x ∧ x ≠ [] ∧ (dquote ∉ x) ∧ m = before ++ x ++ after.
Proof.
  unfold og_re.
  intros (m1 & g1 & m2 & -> & _ & H)%matches_Cat_inv.
  apply matches_Cat_inv in H as (m3 & g2 & m4 & -> & _ & H).
  apply matches_Cat_inv in H as (m5 & g3 & m6 & -> & _ & H).
  apply matches_Cat_inv in H as (x & g4 & m7 & -> & Hgroup & Hclose).
  apply matches_Cls in Hclose as (q & -> & _ & ->).
  apply matches_Group_inv in Hgroup as [-> [g5 H]].
  apply matches_Plus_Cls in H as (Hne & Hx & _).
  exists x, (m1 ++ m3 ++ m5), [q]. split_and!; [done|done| |by rewrite <- !app_assoc].
  rewrite Forall_forall in Hx. intros Hin. apply Hx in Hin.
  by rewrite N.eqb_refl in Hin.
Qed.

Lemma contains_app_mid (x l1 l2 : str) : contains x (l1 ++ x ++ l2) = true.
Proof. apply contains_spec. eauto. Qed.

Lemma re_findall_image_re (html : str) :
  Forall (λ x, ∃ a b, x = a ++ upload_path ++ b ∧ b ≠ []
                      ∧ Forall (λ c, is_quote c = false) x
                      ∧ contains x html = true)
         (re_findall image_re html).
Proof.
  eapply Forall_impl; [apply findall_from_sound|]. cbv beta.
  intros x (pre & m & post & g' & -> & Hm & ->).
  apply matches_image_re in Hm as (a & b & before & after & -> & Hb & Hq & ->).
  exists a, b. split_and!; try done. apply contains_spec.
  exists (pre ++ before), (after ++ post). simpl (default _ _). by rewrite <- !app_assoc.
Qed.

Lemma re_search_og_re (html x : str) :
  re_search og_re html = Some x →
  x ≠ [] ∧ (dquote ∉ x) ∧ contains x html = true.
Proof.
  intros (pre & m & post & g' & -> & Hm & ->)%re_search_sound.
  apply matches_og_re in Hm as (x & before & after & -> & Hne & Hq & ->).
  split_and!; try done. apply contains_spec.
  exists (pre ++ before), (after ++ post). simpl (default _ _). by rewrite <- !app_assoc.
Qed.

(** X14.  Every image URL that [extract_product_data] returns is copied
    from the page and is not empty.  It is the [og:image] value, free of
    double quotes, or it has the upload path with at least one character
    after it and no quote of either kind. *)
Theorem extract_images_shape (html : str) :
  Forall (λ x, x ≠ [] ∧ contains x html = true
               ∧ ((re_search og_re html = Some x ∧ (dquote ∉ x))
                  ∨ ∃ a b, x = a ++ upload_path ++ b ∧ b ≠ []
                           ∧ Forall (λ c, is_quote c = false) x))
         (extract_images html).
Proof.
  assert (Forall (λ x, x ≠ [] ∧ contains x html = true
               ∧ ((re_search og_re html = Some x ∧ (dquote ∉ x))
                  ∨ ∃ a b, x = a ++ upload_path ++ b ∧ b ≠ []
                           ∧ Forall (λ c, is_quote c = false) x))
            (nub (re_findall image_re html))) as Hfound.
  { rewrite Forall_forall. intros x Hx. rewrite elem_of_nub in Hx.
    pose proof (re_findall_image_re html) as Hall. rewrite Forall_forall in Hall.
    destruct (Hall x Hx) as (a & b & -> & Hb & Hq & Hin).
    split_and!; [|done|right; eauto].
    intros Hnil. apply app_eq_nil in Hnil as [_ Hnil]. by vm_compute in Hnil. }
  rewrite extract_images_eq. cbv zeta.
  destruct (re_search og_re html) as [og|] eqn:Hog; [|done].
  case_bool_decide; [done|]. constructor; [|done].
  destruct (re_search_og_re html og Hog) as (Hne & Hq & Hin).
  split_and!; [done|done|by left].
Qed.

(** ** The product id *)

Lemma run_Lits {A} (p x : str) g (k : str → option str → option A) :
  run (Lits p) x g k = if startswith p x then k (drop (length p) x) g else None.
Proof.
  revert x. induction p as [|a p IH]; intros x; [done|].
  cbn [Lits foldr]. fold (Lits p). rewrite run_Cat. unfold Lit at 1. rewrite run_Cls.
  destruct x as [|c t]; [done|]. cbn [startswith length drop].
  destruct (a =? c); [apply IH|done].
Qed.

Lemma startswith_app_long (p s t : str) :
  (length p ≤ length s)%nat → startswith p (s ++ t) = startswith p s.
Proof.
  revert s. induction p as [|a p IH]; intros [|c s] Hlen; simpl in *; try done; try lia.
  destruct (a =? c); [|done]. apply IH. lia.
Qed.

Section ProductId.
Context {U : UnicodeDB}.

Lemma slash_not_digit c : is_digit c = true → (slash =? c) = false.
Proof. intros Hc. destruct (N.eqb_spec slash c) as [<-|]; [done|done]. Qed.

Lemma ascii_digit_is_digit c : ascii_digit c = true → digit_value c = Some (c - 48).
Proof.
  intros Hc. unfold digit_value. rewrite Hc.
  unfold ascii_digit in Hc. apply andb_true_iff in Hc as [_ Hc%N.leb_le].
  unfold is_ascii. destruct (N.ltb_spec c 128); [done|lia].
Qed.

Lemma digits_value_decimal (ds : str) (acc : N) :
  Forall (λ c, ascii_digit c = true) ds →
  digits_value acc ds = Some (foldl (λ acc c, 10 * acc + (c - 48)) acc ds).
Proof.
  intros Hds. revert acc. induction Hds as [|c ds Hc _ IH]; intros acc; [done|].
  cbn [digits_value foldl]. rewrite (ascii_digit_is_digit c Hc). apply IH.
Qed.

Lemma take_while_digits (ds post : str) :
  Forall (λ c, is_digit c = true) ds →
  take_while is_digit (ds ++ slash :: post) = ds
  ∧ drop_while is_digit (ds ++ slash :: post) = slash :: post.
Proof.
  induction 1 as [|c ds Hc _ [IH1 IH2]]; [done|].
  cbn [app take_while drop_while]. rewrite Hc, IH1, IH2. done.
Qed.

Lemma match_id_re (ds post : str) :
  ds ≠ [] → Forall (λ c, is_digit c = true) ds →
  match_here id_re (lit "/detail/" ++ ds ++ slash :: post) = Some (post, ds).
Proof.
  intros Hne Hds. unfold match_here, id_re. rewrite run_Cat, run_Lits.
  rewrite (proj2 (startswith_spec _ _)) by eauto.
  rewrite drop_app_length. rewrite run_Cat, run_Group, run_plus_cls.
  destruct ds as [|d ds]; [done|]. apply Forall_cons_1 in Hds as [Hd Hds].
  cbn [app]. rewrite Hd. rewrite greedy_cls_disjoint.
  - destruct (take_while_digits ds post Hds) as [Htake Hdrop]. rewrite Hdrop.
    unfold Lit. rewrite run_Cls, N.eqb_refl. cbn [default]. do 3 f_equal.
    cbn [length]. rewrite length_app. cbn [length].
    replace (S (length ds + S (length post)) - S (length post))%nat
      with (S (length ds)) by lia.
    unfold Datatypes.id. cbn [take]. f_equal. by rewrite take_app_length.
  - intros c t g' Hc. unfold Lit. rewrite run_Cls. by rewrite (slash_not_digit c Hc).
Qed.

Lemma match_id_re_None (x : str) :
  startswith (lit "/detail/") x = false → match_here id_re x = None.
Proof.
  intros Hno. unfold match_here, id_re. by rewrite run_Cat, run_Lits, Hno.
Qed.

Lemma re_search_here (r : regex) (s rest x : str) :
  match_here r s = Some (rest, x) → re_search r s = Some x.
Proof. intros Hm. destruct s; cbn [re_search]; by rewrite Hm. Qed.

Lemma re_search_id_re (pre ds post : str) :
  contains (lit "/detail/") (pre ++ lit "/detail") = false →
  ds ≠ [] → Forall (λ c, is_digit c = true) ds →
  re_search id_re (pre ++ lit "/detail/" ++ ds ++ slash :: post) = Some ds.
Proof.
  intros Hpre Hne Hds. induction pre as [|c pre IH].
  - by apply (re_search_here _ _ post), match_id_re.
  - cbn [app contains] in Hpre. apply orb_false_iff in Hpre as [Hhere Hpre].
    cbn [app re_search]. rewrite match_id_re_None; [by apply IH|].
    change (lit "/detail/") with (lit "/detail" ++ [slash]) at 2.
    rewrite <- (app_assoc (lit "/detail")), (app_assoc pre), app_comm_cons.
    rewrite startswith_app_long; [done|].
    cbn [length]. rewrite length_app. change (length (lit "/detail/")) with 8%nat.
    change (length (lit "/detail")) with 7%nat. lia.
Qed.

Lemma matches_id_re (m : str) (g' : option str) :
  matches id_re None m g' →
  ∃ ds, m = lit "/detail/" ++ ds ++ [slash] ∧ g' = Some ds ∧ ds ≠ []
        ∧ Forall (λ c, is_digit c = true) ds.
Proof.
  unfold id_re.
  intros (m1 & g1 & m2 & -> & H1 & H)%matches_Cat_inv.
  apply matches_Lits in H1 as [-> ->].
  apply matches_Cat_inv in H as (ds & g2 & m3 & -> & Hgroup & Hslash).
  apply matches_Cls in Hslash as (c & -> & Hc%N.eqb_eq & ->). subst c.
  apply matches_Group_inv in Hgroup as [-> [g3 H]].
  apply matches_Plus_Cls in H as (Hne & Hds & _).
  exists ds. by split_and!.
Qed.

Lemma re_search_id_re_sound (url x : str) :
  re_search id_re url = Some x →
  ∃ pre post, url = pre ++ lit "/detail/" ++ x ++ slash :: post
              ∧ x ≠ [] ∧ Forall (λ c, is_digit c = true) x.
Proof.
  intros (pre & m & post & g' & -> & Hm & ->)%re_search_sound.
  apply matches_id_re in Hm as (ds & -> & -> & Hne & Hds).
  exists pre, post. split_and!; [|done..]. simpl (default _ _).
  by rewrite <- !app_assoc.
Qed.

End ProductId.

(** X15.  The id of a product.  A URL without [/detail/] has the id 0,
    and so has every URL where no [/detail/] is followed by digits and a
    slash.  When the first [/detail/] of the URL is followed by an ASCII
    numeral and a slash, the id is the number the numeral stands for
    ([int] refuses a numeral of more than 4300 digits, which the embedding
    leaves out). *)
Theorem extract_id_spec {U : UnicodeDB} (url : str) :
  (contains (lit "/detail/") url = false → extract_id url = 0)
  ∧ (extract_id url ≠ 0 →
     ∃ pre ds post, url = pre ++ lit "/detail/" ++ ds ++ slash :: post
                    ∧ ds ≠ [] ∧ Forall (λ c, is_digit c = true) ds)
  ∧ (∀ pre ds post,
       url = pre ++ lit "/detail/" ++ ds ++ slash :: post →
       contains (lit "/detail/") (pre ++ lit "/detail") = false →
       ds ≠ [] → Forall (λ c, ascii_digit c = true) ds →
       (length ds ≤ 4300)%nat →
       extract_id url = decimal ds).
Proof.
  assert (extract_id url ≠ 0 →
     ∃ pre ds post, url = pre ++ lit "/detail/" ++ ds ++ slash :: post
                    ∧ ds ≠ [] ∧ Forall (λ c, is_digit c = true) ds) as Hshape.
  { unfold extract_id. destruct (re_search id_re url) as [x|] eqn:Hx; [|done].
    intros _. apply re_search_id_re_sound in Hx as (pre & post & ? & ? & ?).
    by exists pre, x, post. }
  split_and!; [|done|].
  - intros Hno. destruct (N.eq_dec (extract_id url) 0) as [|Hne]; [done|].
    destruct (Hshape Hne) as (pre & ds & post & -> & _).
    rewrite (proj2 (contains_spec _ _)) in Hno by eauto. done.
  - intros pre ds post -> Hpre Hne Hds _. unfold extract_id.
    rewrite re_search_id_re; [|done|done|].
    + destruct ds as [|d ds]; [done|]. unfold py_int.
      by rewrite digits_value_decimal.
    + eapply Forall_impl; [exact Hds|]. intros c Hc. unfold is_digit.
      by rewrite ascii_digit_is_digit.
Qed.

Lemma extract_id_spec_witness :
  extract_id (U := udb_plain) (lit "/webshop/abstract/over-sander.html") = 0
  ∧ extract_id (U := udb_plain) kloof_link = 12.
Proof.
  destruct (extract_id_spec (U := udb_plain)
              (lit "/webshop/abstract/over-sander.html")) as (Hnone & _ & _).
  destruct (extract_id_spec (U := udb_plain) kloof_link) as (_ & _ & Hid).
  split; [by apply Hnone|].
  apply (Hid (lit "/webshop/schilderijenpaintings/abstract") (lit "12")
             (lit "de-kloof--the-gap.html")).
  - reflexivity.
  - reflexivity.
  - discriminate.
  - repeat constructor.
  - simpl. lia.
Defined.

(** ** The titles *)

Lemma drop_while_app_all p (l s : str) :
  Forall (λ c, p c = true) l → drop_while p (l ++ s) = drop_while p s.
Proof. induction 1 as [|c l Hc _ IH]; [done|]. cbn [app drop_while]. by rewrite Hc. Qed.

Lemma rstrip_by_app_all p (s sfx : str) :
  Forall (λ c, p c = true) sfx → rstrip_by p (s ++ sfx) = rstrip_by p s.
Proof.
  intros Hsfx. unfold rstrip_by, lstrip_by. rewrite reverse_app.
  rewrite drop_while_app_all; [done|]. by apply Forall_reverse.
Qed.

Lemma rstrip_by_stop p (s : str) :
  (∀ c, last s = Some c → p c = false) → rstrip_by p s = s.
Proof.
  intros Hlast. unfold rstrip_by, lstrip_by.
  destruct (reverse s) as [|c t] eqn:Hrev.
  - apply (f_equal reverse) in Hrev. rewrite reverse_involutive in Hrev. by subst.
  - cbn [drop_while]. rewrite Hlast.
    + rewrite <- Hrev. apply reverse_involutive.
    + rewrite <- (reverse_involutive s), Hrev, reverse_cons. apply last_snoc.
Qed.

Lemma split_char_no_sep (sep : char) (s : str) : sep ∉ s → split_char sep s = [s].
Proof.
  induction s as [|c t IH]; [done|]. intros Hno.
  apply not_elem_of_cons in Hno as [Hne Hno]. cbn [split_char].
  destruct (N.eqb_spec c sep); [congruence|]. by rewrite IH.
Qed.

Lemma split_char_app_sep (sep : char) (a b : str) :
  ∃ seg segs, split_char sep (a ++ sep :: b) = (seg :: segs) ++ split_char sep b.
Proof.
  induction a as [|c t (seg & segs & IH)]; cbn [app split_char].
  - rewrite N.eqb_refl. by exists [], [].
  - destruct (c =? sep); [exists [], (seg :: segs); by rewrite IH|].
    rewrite IH. by exists (c :: seg), segs.
Qed.

Lemma last_item_split_char (a b : str) :
  slash ∉ b → last_item (split_char slash (a ++ slash :: b)) = b.
Proof.
  intros Hno. destruct (split_char_app_sep slash a b) as (seg & segs & ->).
  rewrite split_char_no_sep by done. unfold last_item.
  by rewrite last_snoc.
Qed.

Lemma split_once_contains (sep s : str) :
  contains sep s = false ↔ split_once sep s = None.
Proof.
  induction s as [|c t IH]; cbn [contains split_once].
  - rewrite orb_false_r. by destruct (startswith sep []).
  - destruct (startswith sep (c :: t)); [done|]. cbn [orb]. rewrite IH.
    destruct (split_once sep t) as [[a b]|]; naive_solver.
Qed.

Section Titles.
Context {U : UnicodeDB}.

Lemma in_chars_html_Forall (sfx : str) :
  Forall (λ c, c ∈ lit ".html") sfx →
  Forall (λ c, in_chars (lit ".html") c = true) sfx.
Proof.
  intros Hsfx. eapply Forall_impl; [exact Hsfx|].
  intros c Hc. by apply bool_decide_eq_true_2.
Qed.

Lemma extract_titles_stem (url stem : str) :
  last_item (split_char slash (py_rstrip_chars (lit ".html") url)) = stem →
  extract_titles url =
    match split_once (lit "--") stem with
    | Some (nl, en) => (title_of nl, title_of en)
    | None => (title_of stem, title_of stem)
    end.
Proof.
  intros Hstem. unfold extract_titles. cbv zeta. rewrite Hstem.
  destruct (contains (lit "--") stem) eqn:Hc.
  - by destruct (split_once (lit "--") stem) as [[nl en]|].
  - apply split_once_contains in Hc. by rewrite Hc.
Qed.

End Titles.

(** X16.  The titles do not see what [rstrip] strips: appending any of
    the characters [.], [h], [t], [m], [l] to a URL, in any number and
    order, leaves both titles as they are.  Two pages whose names differ
    only in such an ending get the same titles. *)
Theorem extract_titles_suffix_blind {U : UnicodeDB} (url sfx : str) :
  Forall (λ c, c ∈ lit ".html") sfx →
  extract_titles (url ++ sfx) = extract_titles url.
Proof.
  intros Hsfx. unfold extract_titles, py_rstrip_chars.
  by rewrite rstrip_by_app_all by by apply in_chars_html_Forall.
Qed.

Lemma extract_titles_suffix_blind_witness :
  extract_titles (U := udb_plain) (lit "/webshop/detail/9/stil.html")
  = extract_titles (U := udb_plain) (lit "/webshop/detail/9/sti.html").
Proof.
  assert (∀ sfx, Forall (λ c, c ∈ lit ".html") sfx →
            extract_titles (U := udb_plain) (lit "/webshop/detail/9/sti" ++ sfx)
            = extract_titles (U := udb_plain) (lit "/webshop/detail/9/sti")) as Hblind
    by (intros sfx; apply extract_titles_suffix_blind).
  assert (∀ l, Forall (λ c, in_chars (lit ".html") c = true) l →
               Forall (λ c, c ∈ lit ".html") l) as Hdec.
  { intros l Hl. eapply Forall_impl; [exact Hl|].
    intros c Hc. exact (proj1 (bool_decide_eq_true _) Hc). }
  transitivity (extract_titles (U := udb_plain) (lit "/webshop/detail/9/sti")).
  - apply (Hblind (lit "l.html")), Hdec. repeat constructor.
  - symmetry. apply (Hblind (lit ".html")), Hdec. repeat constructor.
Defined.

(** X17.  For a page name that does not end in one of the characters [.],
    [h], [t], [m], [l], the titles are as intended: the name before
    [.html] is split at its first [--] into the Dutch and the English
    half, or stands for both titles when it has no [--]; hyphens become
    spaces and each half is stripped and title-cased. *)
Theorem extract_titles_clean_name {U : UnicodeDB} (dir name : str) :
  slash ∉ name →
  (∀ c, last name = Some c → c ∉ lit ".html") →
  extract_titles (dir ++ slash :: name ++ lit ".html") =
    match split_once (lit "--") name with
    | Some (nl, en) => (title_of nl, title_of en)
    | None => (title_of name, title_of name)
    end.
Proof.
  intros Hslash Hlast. apply extract_titles_stem. unfold py_rstrip_chars.
  replace (dir ++ slash :: name ++ lit ".html")
    with ((dir ++ slash :: name) ++ lit ".html") by (by rewrite <- app_assoc).
  rewrite rstrip_by_app_all
    by (apply Forall_forall; intros c Hc; by apply bool_decide_eq_true_2).
  rewrite rstrip_by_stop; [by apply last_item_split_char|].
  intros c Hc. apply bool_decide_eq_false_2.
  destruct name as [|n name].
  - rewrite last_snoc in Hc. injection Hc as <-.
    apply (bool_decide_unpack _). vm_compute. exact I.
  - rewrite last_app in Hc. cbn [last] in Hc.
    destruct (last (n :: name)) as [c'|] eqn:Hn; [|by apply last_None in Hn].
    by apply Hlast.
Qed.

Lemma extract_titles_clean_name_witness :
  extract_titles (U := udb_plain)
    (lit "/webshop/detail/12" ++ slash :: lit "de-kloof--the-gap" ++ lit ".html")
  = (lit "De Kloof", lit "The Gap").
Proof.
  rewrite extract_titles_clean_name.
  - reflexivity.
  - apply (bool_decide_unpack _). vm_compute. exact I.
  - intros c Hc. vm_compute in Hc. injection Hc as <-.
    apply (bool_decide_unpack _). vm_compute. exact I.
Defined.

(** ** Slugs are fixed points of slugify *)

Lemma squeeze_none p h b (s : str) :
  Forall (λ c, p c = false) s → squeeze p h b s = s.
Proof.
  intros Hs. revert b. induction Hs as [|c s Hc _ IH]; intros b; [done|].
  cbn [squeeze]. by rewrite Hc, IH.
Qed.

Lemma squeeze_single h (s : str) :
  contains [h; h] s = false → squeeze (N.eqb h) h false s = s.
Proof.
  induction s as [|c s IH]; [done|]. cbn [contains squeeze].
  intros [Hhere Hrest]%orb_false_iff. destruct (N.eqb_spec h c) as [<-|Hne].
  - f_equal. destruct s as [|d s]; [done|].
    cbn [startswith] in Hhere. rewrite N.eqb_refl in Hhere. cbn [andb] in Hhere.
    rewrite andb_true_r in Hhere. specialize (IH Hrest).
    cbn [squeeze] in *. by rewrite Hhere in *.
  - f_equal. by apply IH.
Qed.

Lemma lstrip_by_stop p (s : str) :
  (∀ c, head s = Some c → p c = false) → lstrip_by p s = s.
Proof.
  intros Hhead. destruct s as [|c s]; [done|].
  unfold lstrip_by. cbn [drop_while]. by rewrite Hhead.
Qed.

Lemma strip_by_stop p (s : str) :
  (∀ c, head s = Some c → p c = false) →
  (∀ c, last s = Some c → p c = false) →
  strip_by p s = s.
Proof.
  intros Hhead Hlast. unfold strip_by.
  by rewrite lstrip_by_stop, rstrip_by_stop.
Qed.

Lemma filter_all (p : char → bool) (s : str) :
  Forall (λ c, p c = true) s → List.filter p s = s.
Proof. induction 1 as [|c s Hc _ IH]; [done|]. cbn [List.filter]. by rewrite Hc, IH. Qed.

Lemma map_id_on (f : char → char) (s : str) :
  Forall (λ c, f c = c) s → map f s = s.
Proof. induction 1 as [|c s Hc _ IH]; [done|]. cbn [map]. by rewrite Hc, IH. Qed.

Section SlugFixedPoint.
Context {U : UnicodeDB}.

Lemma slug_char_facts c :
  slug_char c = true →
  is_ascii c = true ∧ ascii_to_lower c = c ∧ is_space c = false
  ∧ slug_junk c = false ∧ slug_gap c = false.
Proof.
  intros Hc.
  assert (c < 128) as Hlt.
  { unfold slug_char, ascii_lower, ascii_digit, hyphen in Hc.
    rewrite !orb_true_iff, !andb_true_iff, !N.leb_le, N.eqb_eq in Hc. lia. }
  assert (∃ n : nat, (n < 128)%nat ∧ c = N.of_nat n) as (n & Hn & ->).
  { exists (N.to_nat c). split; lia. }
  clear Hlt. revert Hc.
  do 128 (destruct n as [|n]; [by vm_compute|]). lia.
Qed.

Lemma slugify_slug (s : str) :
  Forall (λ c, slug_char c = true) s →
  startswith [hyphen] s = false →
  endswith [hyphen] s = false →
  contains [hyphen; hyphen] s = false →
  slugify s = s.
Proof.
  intros Hs Hlead Htrail Hdouble.
  assert (Forall (λ c, is_ascii c = true ∧ ascii_to_lower c = c ∧ is_space c = false
                       ∧ slug_junk c = false ∧ slug_gap c = false) s) as Hfacts.
  { eapply Forall_impl; [exact Hs|]. apply slug_char_facts. }
  assert (Forall (λ c, is_ascii c = true) s) as Hascii
    by (eapply Forall_impl; [exact Hfacts|]; by intros c (? & _)).
  assert (Forall (λ c, ascii_to_lower c = c) s) as Hlower
    by (eapply Forall_impl; [exact Hfacts|]; by intros c (_ & ? & _)).
  assert (Forall (λ c, negb (slug_junk c) = true) s) as Hjunk
    by (eapply Forall_impl; [exact Hfacts|]; by intros c (_ & _ & _ & -> & _)).
  assert (Forall (λ c, slug_gap c = false) s) as Hgap
    by (eapply Forall_impl; [exact Hfacts|]; by intros c (_ & _ & _ & _ & ?)).
  rewrite slugify_eq. unfold py_lower.
  rewrite lower_from_ascii, map_id_on by done.
  assert (py_strip s = s) as ->.
  { rewrite Forall_forall in Hfacts. apply strip_by_stop; intros c Hc.
    - apply Hfacts. destruct s; [done|]. injection Hc as <-. by left.
    - apply Hfacts. destruct (last_Some s c) as [[l ->] _]; [done|]. set_solver. }
  rewrite (filter_all _ s Hjunk), (squeeze_none _ _ _ s Hgap).
  rewrite squeeze_single by done.
  apply strip_by_stop; intros c Hc; apply N.eqb_neq; intros <-.
  - assert (startswith [hyphen] s = true) as Ht; [|congruence].
    apply startswith_spec. destruct s as [|d s]; [done|]. injection Hc as ->. eauto.
  - assert (endswith [hyphen] s = true) as Ht; [|congruence].
    apply endswith_spec. destruct (last_Some s hyphen) as [[l ->] _]; [done|]. eauto.
Qed.

End SlugFixedPoint.

(** X18.  A slug stays as it is: [slugify] is the identity on a text of
    lower-case ASCII letters, digits and hyphens that neither starts nor
    ends with a hyphen and has no two hyphens in a row.  Hence slugifying
    the slug of an ASCII title changes nothing. *)
Theorem slugify_idempotent {U : UnicodeDB} :
  (∀ s, Forall (λ c, slug_char c = true) s →
        startswith [hyphen] s = false →
        endswith [hyphen] s = false →
        contains (lit "--") s = false →
        slugify s = s)
  ∧ (∀ title, Forall (λ c, is_ascii c = true) title →
              slugify (slugify title) = slugify title).
Proof.
  split; [apply slugify_slug|].
  intros title Hascii. apply slugify_slug.
  - by apply slugify_ascii.
  - apply slugify_no_leading_hyphen.
  - apply slugify_no_trailing_hyphen.
  - apply slugify_no_double_hyphen.
Qed.

(** ** The dimensions *)

Section DimensionFacts.
Context {U : UnicodeDB}.

Lemma digit_not_space c : is_digit c = true → is_space c = false.
Proof.
  intros Hd. destruct (is_space c) eqn:Hsp; [|done].
  pose proof (is_space_spec c Hsp) as Hc.
  unfold is_digit, digit_value in Hd. destruct (is_ascii c).
  - destruct (ascii_digit c) eqn:Ha; [|done].
    unfold ascii_digit in Ha. rewrite andb_true_iff, !N.leb_le in Ha. lia.
  - by rewrite (udb_space_not_decimal c Hsp) in Hd.
Qed.

Lemma matches_number_re g n g' : matches number_re g n g' → numeral n ∧ g' = g.
Proof.
  unfold number_re.
  intros (ip & g1 & frac & -> & Hip & Hfrac)%matches_Cat_inv.
  apply matches_Plus_Cls in Hip as (Hne & Hip & ->).
  inversion Hfrac as [| | |? ? ? ? ? Hsome|? ? ? ? ? Hnone| | | | |]; subst.
  - apply matches_Cat_inv in Hsome as (s1 & g2 & fp & -> & Hsep & Hfp).
    apply matches_Cls in Hsep as (sep & -> & Hsep & ->).
    apply matches_Plus_Cls in Hfp as (Hfne & Hfp & ->).
    split; [|done]. exists ip, (sep :: fp). split_and!; try done. right. eauto 10.
  - inversion Hnone; subst. split; [|done]. exists ip, []. split_and!; eauto.
Qed.

Lemma numeral_head n : numeral n → ∃ c, head n = Some c ∧ is_digit c = true.
Proof.
  intros (ip & frac & -> & Hne & Hip & _). destruct ip as [|c ip]; [done|].
  apply Forall_cons_1 in Hip as [Hc _]. eauto.
Qed.

Lemma numeral_last n : numeral n → ∃ c, last n = Some c ∧ is_digit c = true.
Proof.
  intros (ip & frac & -> & Hne & Hip & [->|(sep & fp & -> & _ & Hfne & Hfp)]).
  - rewrite app_nil_r. destruct (last ip) as [c|] eqn:Hl; [|by apply last_None in Hl].
    exists c. split; [done|]. rewrite Forall_forall in Hip. apply Hip.
    apply last_Some in Hl as [l ->]. set_solver.
  - destruct (last fp) as [c|] eqn:Hl; [|by apply last_None in Hl].
    exists c. split.
    + destruct fp as [|f fp]; [done|]. by rewrite last_app, last_cons_cons, Hl.
    + rewrite Forall_forall in Hfp. apply Hfp.
      apply last_Some in Hl as [l ->]. set_solver.
Qed.

Lemma matches_dim_re (m : str) (g' : option str) :
  matches dim_re None m g' →
  ∃ a sp1 sp2 b after,
    g' = Some (a ++ sp1 ++ [120] ++ sp2 ++ b)
    ∧ numeral a ∧ numeral b
    ∧ Forall (λ c, is_space c = true) sp1 ∧ Forall (λ c, is_space c = true) sp2
    ∧ m = (a ++ sp1 ++ [120] ++ sp2 ++ b) ++ after.
Proof.
  unfold dim_re.
  intros (x & g1 & after & -> & Hgroup & Hrest)%matches_Cat_inv.
  apply matches_Cat_inv in Hrest as (sp3 & g2 & cm & -> & Hsp3 & Hcm).
  apply matches_Star_Cls in Hsp3 as [_ ->].
  apply matches_Lits in Hcm as [-> ->].
  apply matches_Group_inv in Hgroup as [-> [g3 H]].
  apply matches_Cat_inv in H as (a & g4 & m1 & -> & Ha & H).
  apply matches_number_re in Ha as [Ha ->].
  apply matches_Cat_inv in H as (sp1 & g5 & m2 & -> & Hsp1 & H).
  apply matches_Star_Cls in Hsp1 as [Hsp1 ->].
  apply matches_Cat_inv in H as (x & g6 & m3 & -> & Hx & H).
  apply matches_Cls in Hx as (c & -> & Hc%N.eqb_eq & ->). subst c.
  apply matches_Cat_inv in H as (sp2 & g7 & b & -> & Hsp2 & Hb).
  apply matches_Star_Cls in Hsp2 as [Hsp2 ->].
  apply matches_number_re in Hb as [Hb _].
  exists a, sp1, sp2, b, (sp3 ++ lit "cm"). by split_and!.
Qed.

Lemma extract_dimensions_found (html g : str) :
  re_search dim_re html = Some g →
  ∃ a sp1 sp2 b,
    g = a ++ sp1 ++ [120] ++ sp2 ++ b
    ∧ numeral a ∧ numeral b
    ∧ Forall (λ c, is_space c = true) sp1 ∧ Forall (λ c, is_space c = true) sp2
    ∧ contains g html = true ∧ py_strip g = g.
Proof.
  intros (pre & m & post & g' & -> & Hm & ->)%re_search_sound.
  apply matches_dim_re in Hm as (a & sp1 & sp2 & b & after & -> & Ha & Hb & H1 & H2 & ->).
  simpl (default _ _). exists a, sp1, sp2, b. split_and!; try done.
  - apply contains_spec. exists pre, (after ++ post).
    repeat (cbn [app]; rewrite <- ?app_assoc). done.
  - apply strip_by_stop; intros c Hc; apply digit_not_space.
    + destruct (numeral_head a Ha) as (d & Hd & Hdigit).
      destruct a as [|a0 a]; [done|]. cbn [app head] in Hc, Hd. congruence.
    + destruct (numeral_last b Hb) as (d & Hd & Hdigit).
      assert (last (a ++ sp1 ++ [120] ++ sp2 ++ b) = Some d) as Hl
        by (by rewrite !(assoc_L (++)), last_app, Hd).
      pose proof (eq_trans (eq_sym Hl) Hc) as Heq. congruence.
Qed.

End DimensionFacts.

(** X19.  The dimensions of a product are empty, or they read as a
    numeral, an [x] with optional white space around it, a second numeral
    and [ cm]: the text before [ cm] is copied from the page, begins and
    ends with a digit, and the call of [strip] on it changes nothing. *)
Theorem extract_dimensions_shape {U : UnicodeDB} (html : str) :
  extract_dimensions html = []
  ∨ ∃ a sp1 sp2 b,
      extract_dimensions html = a ++ sp1 ++ [120] ++ sp2 ++ b ++ lit " cm"
      ∧ numeral a ∧ numeral b
      ∧ Forall (λ c, is_space c = true) sp1 ∧ Forall (λ c, is_space c = true) sp2
      ∧ contains (a ++ sp1 ++ [120] ++ sp2 ++ b) html = true.
Proof.
  unfold extract_dimensions.
  destruct (re_search dim_re html) as [g|] eqn:Hg; [right|by left].
  apply extract_dimensions_found in Hg
    as (a & sp1 & sp2 & b & -> & Ha & Hb & H1 & H2 & Hin & ->).
  exists a, sp1, sp2, b. split_and!; try done. by rewrite <- !app_assoc.
Qed.

Lemma extract_dimensions_examples :
  extract_dimensions (U := udb_plain) (lit "<p>Olie op paneel, 130 x 80 cm</p>")
  = lit "130 x 80 cm"
  ∧ extract_dimensions (U := udb_plain) (lit "ca. 12,5x 30cm") = lit "12,5x 30 cm"
  ∧ extract_dimensions (U := udb_plain) (lit "130 bij 80 cm") = [].
Proof. vm_compute. done. Qed.

(** ** The naps of a run *)

Lemma napped_same (w w' : World) : naps w' = naps w → napped 0 w w'.
Proof. intros Heq. exists []. by rewrite app_nil_r. Qed.

Lemma napped_trans (n m : nat) (w1 w2 w3 : World) :
  napped n w1 w2 → napped m w2 w3 → napped (n + m) w1 w3.
Proof.
  intros (a1 & H1 & Hall1 & <-) (a2 & H2 & Hall2 & <-). exists (a1 ++ a2).
  split_and!.
  - by rewrite H2, H1, <- app_assoc.
  - by apply Forall_app.
  - by rewrite filter_app, length_app.
Qed.

Lemma napped_sleep (w : World) : napped 1 w (sleep 500 w).
Proof.
  exists [500]. split; [reflexivity|]. split; [|reflexivity].
  constructor; [right; reflexivity|constructor].
Qed.

Lemma no_short_nap (k : nat) : filter (λ ms : N, ms = 500) (replicate k 2000) = [].
Proof.
  induction k as [|k IH]; [done|]. cbn [replicate].
  by rewrite filter_cons_False by lia.
Qed.

Section Naps.
Context {U : UnicodeDB} (E : Env).

Lemma napped_fetch (url : str) (retries : Z) (w : World) :
  napped 0 w (fetch E url retries w).2.
Proof.
  unfold fetch.
  destruct (fetch_from_effects E url retries (Z.to_nat retries) 0 w)
    as (n & _ & _ & _ & _ & _ & _ & Hnaps); [lia|].
  eexists. split; [exact Hnaps|]. split.
  - apply Forall_replicate. by left.
  - by rewrite no_short_nap.
Qed.

Lemma napped_download (url dest : str) (w : World) :
  napped 0 w (download_image E url dest w).2.
Proof.
  apply napped_same. unfold download_image. destruct (file_exists dest w); [done|].
  destruct (exists_error E dest); [done|].
  destruct (urlopen E _ url); [| |]; try destruct (disk E _ dest); done.
Qed.

Lemma process_link_napped (cat cat_dir link : str) (w : World) :
  let r := process_link E cat cat_dir link w in
  napped (match r.1 with Done (Some _) => 1 | _ => 0 end) w r.2.
Proof.
  unfold process_link. cbv zeta.
  match goal with |- context [fetch E ?u 3 ?w0] =>
    pose proof (napped_trans _ _ _ _ _ (napped_same w w0 eq_refl)
                  (napped_fetch u 3 w0)) as Hfetch;
    destruct (fetch E u 3 w0) as [[[|c html]|] w1]
  end; cbn [fst snd] in Hfetch; cbv beta iota; cbn [fst snd].
  1, 3: apply (napped_trans 0 0 _ _ _ Hfetch); by apply napped_same.
  destruct (images (extract_product_data (c :: html) link)) as [|img rest];
    cbv beta iota; cbn [fst snd].
  - apply (napped_trans 0 1 _ _ _ Hfetch).
    apply (napped_trans 0 1 _ (print (lit "  No image found!") w1));
      [by apply napped_same|apply napped_sleep].
  - match goal with |- context [download_image E ?u ?d0 ?w0] =>
      pose proof (napped_download u d0 w0) as Hload;
      destruct (download_image E u d0 w0) as [[ok|e] w2]
    end; cbn [fst snd] in *.
    + apply (napped_trans 0 1 _ _ _ Hfetch).
      eapply (napped_trans 0 1); [exact Hload|apply napped_sleep].
    + by apply (napped_trans 0 0 _ _ _ Hfetch).
Qed.

Lemma process_links_napped (cat cat_dir : str) (links : list str)
    (paintings l : list painting) (w : World) :
  (process_links E cat cat_dir links paintings w).1 = Done l →
  ∃ n, length l = (length paintings + n)%nat
       ∧ napped n w (process_links E cat cat_dir links paintings w).2.
Proof.
  revert paintings w. induction links as [|link links IH]; intros paintings w.
  { cbn [process_links fst snd]. intros <-%Done_inj.
    exists 0%nat. split; [lia|by apply napped_same]. }
  cbn [process_links]. pose proof (process_link_napped cat cat_dir link w) as Hone.
  destruct (process_link E cat cat_dir link w) as [[p|e] w1]; cbn [fst snd] in Hone;
    [|done].
  intros Hrest. destruct (IH _ w1 Hrest) as (n & Hlen & Hn).
  destruct p as [p|].
  - exists (1 + n)%nat. split; [|by eapply napped_trans].
    rewrite Hlen, length_app. simpl. lia.
  - exists n. split; [done|]. by apply (napped_trans 0 n _ w1).
Qed.

Lemma crawl_category_napped (cat cat_path : str) (paintings l : list painting)
    (w : World) :
  (crawl_category E cat cat_path paintings w).1 = Done l →
  ∃ n, length l = (length paintings + n)%nat
       ∧ napped n w (crawl_category E cat cat_path paintings w).2.
Proof.
  unfold crawl_category. cbv zeta.
  match goal with |- context [fetch E ?u 3 ?w0] =>
    pose proof (napped_trans _ _ _ _ _ (napped_same w w0 eq_refl)
                  (napped_fetch u 3 w0)) as Hfetch;
    destruct (fetch E u 3 w0) as [[[|c html]|] w1]
  end; cbn [fst snd] in Hfetch; cbv beta iota; cbn [fst snd].
  1, 3: intros [= <-]; exists 0%nat; split; [lia|];
    apply (napped_trans 0 0 _ _ _ Hfetch); by apply napped_same.
  destruct (extract_links E (c :: html)) as [links|e]; [|done].
  intros Hdone. destruct (process_links_napped _ _ _ _ _ _ Hdone) as (n & Hlen & Hn).
  exists n. split; [done|].
  apply (napped_trans 0 n _ _ _ Hfetch).
  eapply (napped_trans 0 n); [|exact Hn]. by apply napped_same.
Qed.

Lemma crawl_napped (categories : list (str * str)) (paintings l : list painting)
    (w : World) :
  (crawl E categories paintings w).1 = Done l →
  ∃ n, length l = (length paintings + n)%nat
       ∧ napped n w (crawl E categories paintings w).2.
Proof.
  revert paintings w. induction categories as [|[cat cat_path] rest IH];
    intros paintings w.
  { intros [= <-]. exists 0%nat. split; [simpl; lia|by apply napped_same]. }
  cbn [crawl].
  pose proof (crawl_category_napped cat cat_path paintings) as Hone.
  destruct (crawl_category E cat cat_path paintings w) as [[l1|e] w1] eqn:Hcat;
    [|done].
  specialize (Hone l1 w). rewrite Hcat in Hone.
  destruct (Hone eq_refl) as (n & Hlen & Hn). cbn [snd] in Hn.
  intros Hrest. destruct (IH l1 w1 Hrest) as (m & Hlen2 & Hm).
  exists (n + m)%nat. split; [lia|]. by eapply napped_trans.
Qed.

End Naps.

(** X20.  A run sleeps half a second once for every entry of the
    manifest, and otherwise only the two seconds between the attempts of
    a fetch. *)
Theorem main_naps {U : UnicodeDB} (E : Env) (w w' : World)
    (manifest : list painting) :
  main E w = (Done manifest, w') →
  ∃ added, naps w' = naps w ++ added
    ∧ Forall (λ ms, ms = 2000 ∨ ms = 500) added
    ∧ length (filter (λ ms, ms = 500) added) = length manifest.
Proof.
  unfold main. pose proof (crawl_napped E CATEGORIES [] ) as Hcrawl.
  destruct (crawl E CATEGORIES [] w) as [[l|e] w1] eqn:Hc; [|done].
  specialize (Hcrawl l w). rewrite Hc in Hcrawl.
  destruct (Hcrawl eq_refl) as (n & Hlen & added & Hnaps & Hall & Hcount).
  intros [= <- <-]. exists added. split_and!; [done|done|].
  rewrite sort_by_id_perm. simpl in Hlen. lia.
Qed.

Lemma main_naps_witness :
  ∃ manifest w',
    main (U := udb_plain) two_pages new_world = (Done manifest, w')
    ∧ length manifest = 2%nat
    ∧ length (filter (λ ms, ms = 500) (naps w')) = 2%nat.
Proof.
  assert (match main (U := udb_plain) two_pages new_world with
          | (Done manifest, _) => length manifest = 2%nat
          | _ => False
          end) as Hlen by (vm_compute; reflexivity).
  destruct (main (U := udb_plain) two_pages new_world) as [[manifest|e] w'] eqn:Hmain;
    [|contradiction].
  exists manifest, w'. split; [reflexivity|]. split; [exact Hlen|].
  destruct (main_naps two_pages new_world w' manifest Hmain)
    as (added & Hnaps & _ & Hcount).
  change (naps new_world ++ added) with added in Hnaps.
  rewrite Hnaps, Hcount. exact Hlen.
Defined.



(** ** The tag stack of ProductPageParser *)

Section TagStack.
Import ProductPageParser.

Lemma handle_starttag_stack (s s' : state) (tag : str) attrs :
  handle_starttag s tag attrs = Done s' → tag_stack s' = tag_stack s ++ [tag].
Proof.
  unfold handle_starttag. cbv zeta.
  destruct (bool_decide (tag = lit "img")).
  - destruct (attrs_get (lit "src") _ attrs) as [src|]; [|done].
    destruct (contains _ src); unfold add_image;
      repeat (case_bool_decide || destruct (_ && _)); by intros [= <-].
  - unfold add_image.
    repeat (case_bool_decide || destruct (_ && _)); by intros [= <-].
Qed.

Lemma feed_app (s : state) (l1 l2 : list event) :
  feed s (l1 ++ l2) =
    match feed s l1 with Done s1 => feed s1 l2 | Raised e => Raised e end.
Proof.
  revert s. induction l1 as [|ev l1 IH]; intros s; [done|].
  cbn [app feed]. by destruct (handle s ev).
Qed.

Lemma handle_data_stack (s : state) (text : str) :
  tag_stack (handle_data s text) = tag_stack s.
Proof.
  unfold handle_data. cbv zeta. destruct (py_strip text); [done|].
  by destruct (_ || _).
Qed.

Lemma feed_nested_stack (events : list event) :
  nested events →
  ∀ s s', feed s events = Done s' → tag_stack s' = tag_stack s.
Proof.
  induction 1 as [|text rest _ IH|tag attrs body rest _ IHbody _ IHrest];
    intros s s'.
  - by intros [= <-].
  - cbn [feed handle]. intros Hrest%IH. by rewrite Hrest, handle_data_stack.
  - cbn [feed handle].
    destruct (handle_starttag s tag attrs) as [s1|e] eqn:Hstart; [|done].
    apply handle_starttag_stack in Hstart. rewrite feed_app.
    destruct (feed s1 body) as [s2|e] eqn:Hbody; [|done].
    apply IHbody in Hbody. cbn [feed handle]. intros Hrest%IHrest.
    rewrite Hrest. unfold handle_endtag.
    rewrite Hbody, Hstart, last_snoc, bool_decide_eq_true_2 by done.
    cbn [tag_stack]. by rewrite removelast_last.
Qed.

End TagStack.

(** X22.  On markup where every start tag has its end tag, properly
    nested, the tag stack of [ProductPageParser] is after the page what
    it was before: each end tag pops the tag that its start tag pushed. *)
Theorem page_parser_stack (events : list ProductPageParser.event)
    (s s' : ProductPageParser.state) :
  nested events →
  ProductPageParser.feed s events = Done s' →
  ProductPageParser.tag_stack s' = ProductPageParser.tag_stack s.
Proof. intros Hnested. by apply feed_nested_stack. Qed.

Lemma page_parser_stack_witness :
  ∃ s, ProductPageParser.feed ProductPageParser.init
         [ ProductPageParser.StartTag (lit "div") [];
           ProductPageParser.StartTag (lit "p") [];
           ProductPageParser.Data (lit "Olieverf");
           ProductPageParser.EndTag (lit "p");
           ProductPageParser.EndTag (lit "div") ] = Done s
       ∧ ProductPageParser.tag_stack s = [].
Proof.
  destruct (ProductPageParser.feed _ _) as [s|e] eqn:Hfeed;
    [|vm_compute in Hfeed; discriminate].
  exists s. split; [reflexivity|].
  apply (page_parser_stack _ _ _ (nested_element (lit "div") []
           [ ProductPageParser.StartTag (lit "p") [];
             ProductPageParser.Data (lit "Olieverf");
             ProductPageParser.EndTag (lit "p") ] []
           (nested_element (lit "p") [] [ProductPageParser.Data (lit "Olieverf")] []
              (nested_data _ _ nested_nil) nested_nil)
           nested_nil) Hfeed).
Defined.
